(** * items: sheet ingest, image/price enrichment and caching

  A shallow embedding of the server code of the repository (the in-memory
  server [server.js], its earlier image-only revision, and the persistent
  MongoDB-backed revision) together with the properties the specification
  states about it.

  Conventions.
  - A JavaScript string is a sequence of UTF-16 code units; a code unit is
    a number in [N].  String literals of the source are written
    [u "..."].
  - JavaScript's [null]/[undefined] results are [None].
  - Asynchronous code is modelled by explicit state passing; where the
    interleaving matters, by a step function over the suspended tasks. *)

From Stdlib Require Import ZArith NArith QArith Qabs Ascii String List Lia.
From stdpp Require Import base option list gmap sets fin_maps.

Set Warnings "-register-all".

Local Open Scope N_scope.
Local Open Scope list_scope.

(** ** JavaScript strings *)

Module Js.

Abbreviation char := N (only parsing).
Abbreviation str := (list N) (only parsing).

(** Source literal to code units (ASCII literals only). *)
Definition u (s : string) : str :=
  map N_of_ascii (list_ascii_of_string s).

Definition QUOTE : char := 34.   (* the double quote *)
Definition COMMA : char := 44.
Definition SLASH : char := 47.
Definition DOT : char := 46.
Definition MINUS : char := 45.
Definition CR : char := 13.
Definition LF : char := 10.

(** [\d] of a regular expression without the unicode flag. *)
Definition is_digit (c : char) : bool := (48 <=? c) && (c <=? 57).

(** WhiteSpace and LineTerminator code units, the class removed by
    [String.prototype.trim]. *)
Definition is_space (c : char) : bool :=
  ((9 <=? c) && (c <=? 13)) || (c =? 32) || (c =? 160) || (c =? 5760)
  || ((8192 <=? c) && (c <=? 8202)) || (c =? 8232) || (c =? 8233)
  || (c =? 8239) || (c =? 8287) || (c =? 12288) || (c =? 65279).

Fixpoint trimStart (s : str) : str :=
  match s with
  | c :: s' => if is_space c then trimStart s' else s
  | [] => []
  end.

Definition trimEnd (s : str) : str := rev (trimStart (rev s)).

Definition trim (s : str) : str := trimEnd (trimStart s).

(** Truthiness of a string value: only the empty string is falsy. *)
Definition truthy (s : str) : bool :=
  match s with [] => false | _ => true end.

(** [s.startsWith(p)] *)
Fixpoint startsWith (p s : str) : bool :=
  match p, s with
  | [], _ => true
  | a :: p', b :: s' => (a =? b) && startsWith p' s'
  | _ :: _, [] => false
  end.


(** *** Numbers

    [Fin q] is the finite double whose value is the rational [q].  The
    sign of a zero is not kept. *)

Inductive num :=
| NaN
| Inf (negative : bool)
| Fin (q : Q).

(** The integer nearest to [n / d], ties to the even one, for [0 <= n]
    and [0 < d]. *)
Definition roundHalfEven (n d : Z) : Z :=
  let m := (n / d)%Z in
  let r := (n mod d)%Z in
  if (2 * r >? d)%Z || ((2 * r =? d)%Z && Z.odd m) then (m + 1)%Z else m.

(** The binary exponent of the unit in the last place of the doubles
    around [a / b], for [0 < a] and [0 < b]: 53 significant bits, and
    no exponent below [-1074]. *)
Definition ulpExponent (a b : Z) : Z :=
  let e0 := (Z.log2 a - Z.log2 b)%Z in
  let below :=
    if (0 <=? e0)%Z then (a <? b * 2 ^ e0)%Z else (a * 2 ^ (- e0) <? b)%Z in
  let e := if below then (e0 - 1)%Z else e0 in
  Z.max (e - 52) (-1074).

(** The double a decimal literal of exact value [q] converts to: the
    nearest double, ties to even; a value that rounds to [2^1024] or
    beyond converts to an infinity. *)
Definition ofDecimal (q : Q) : num :=
  let a := Z.abs (Qnum q) in
  let b := Zpos (Qden q) in
  if (a =? 0)%Z then Fin 0 else
  let negative := (Qnum q <? 0)%Z in
  let ex := ulpExponent a b in
  if (0 <=? ex)%Z then
    let v := (roundHalfEven a (b * 2 ^ ex) * 2 ^ ex)%Z in
    if (2 ^ 1024 <=? v)%Z then Inf negative
    else Fin (inject_Z (if negative then - v else v))
  else
    let m := roundHalfEven (a * 2 ^ (- ex)) b in
    Fin (Qred (Qmake (if negative then - m else m) (Z.to_pos (2 ^ (- ex))))).

(** [Number.isFinite(n) ? n : null] *)
Definition finiteOrNull (n : num) : option Q :=
  match n with Fin q => Some q | _ => None end.

Fixpoint span_digits (s : str) : str * str :=
  match s with
  | c :: s' =>
      if is_digit c
      then let '(d, r) := span_digits s' in (c :: d, r)
      else ([], s)
  | [] => ([], [])
  end.

(** Value of a run of decimal digits, most significant first. *)
Definition digitsVal (ds : str) : Z :=
  fold_left (fun acc c => (acc * 10 + (Z.of_N c - 48))%Z) ds 0%Z.

(** StrUnsignedDecimalLiteral without exponent, spanning the whole input:
    digits, optionally followed by a dot and more digits, or a dot
    followed by digits. *)
Definition unsignedDecimal (s : str) : option Q :=
  let '(ip, r) := span_digits s in
  match r with
  | [] =>
      match ip with
      | [] => None
      | _ => Some (inject_Z (digitsVal ip))
      end
  | 46 :: r' =>
      let '(fp, r'') := span_digits r' in
      match r'', ip, fp with
      | [], [], [] => None
      | [], _, _ =>
          Some (inject_Z (digitsVal ip)
                + inject_Z (digitsVal fp) / inject_Z (10 ^ Z.of_nat (length fp)))%Q
      | _, _, _ => None
      end
  | _ => None
  end.

(** [Number(s)] for a string made of digits, [.] and [-] only, which is
    all that remains after [stripNonNumeric]: the empty string
    converts to [0], a decimal literal with an optional leading [-] to its
    value, anything else to [NaN]. *)
Definition Number (s : str) : num :=
  match s with
  | [] => Fin 0
  | 45 :: s' =>
      match unsignedDecimal s' with
      | Some q => ofDecimal (- q)
      | None => NaN
      end
  | _ =>
      match unsignedDecimal s with
      | Some q => ofDecimal q
      | None => NaN
      end
  end.

(** [s.replace(/[^0-9.\-]/g, EMPTY)]: keep digits, dots and minus signs. *)
Definition stripNonNumeric (s : str) : str :=
  filter (fun c => is_digit c || (c =? DOT) || (c =? MINUS) = true) s.

(** [Math.trunc] on a finite value. *)
Definition trunc (q : Q) : Q := inject_Z (Z.quot (Qnum q) (Zpos (Qden q))).

(** *** Parsed JSON values

    The fields of [JObj] are the object's own properties in the order
    [Object.keys] enumerates them; property names are unique. *)

Inductive json :=
| JNull
| JBool (b : bool)
| JNum (n : Q)
| JStr (s : str)
| JArr (items : list json)
| JObj (fields : list (str * json)).

Definition str_eqb (a b : str) : bool := bool_decide (a = b).

Fixpoint assoc (k : str) (fields : list (str * json)) : option json :=
  match fields with
  | [] => None
  | (k', v) :: rest => if str_eqb k k' then Some v else assoc k rest
  end.

(** [value?.key]; [None] is [undefined]. *)
Definition getField (k : str) (v : json) : option json :=
  match v with
  | JObj fields => assoc k fields
  | _ => None
  end.

(** Truthiness of a value. *)
Definition truthyJ (v : json) : bool :=
  match v with
  | JNull => false
  | JBool b => b
  | JNum n => negb (Qeq_bool n 0)
  | JStr s => truthy s
  | JArr _ | JObj _ => true
  end.

(** [typeof v === "object"] for a value that is not [null]. *)
Definition isObject (v : json) : bool :=
  match v with
  | JArr _ | JObj _ => true
  | _ => false
  end.

(** [Object.keys(node).map(k => node[k])] *)
Definition children (v : json) : list json :=
  match v with
  | JArr items => items
  | JObj fields => map snd fields
  | _ => []
  end.

(** Number of values in a tree. *)
Fixpoint nodes (v : json) : nat :=
  match v with
  | JArr items => S (list_sum (map nodes items))
  | JObj fields => S (list_sum (map (fun kv => nodes (snd kv)) fields))
  | _ => 1
  end.

(** *** Outcome of a call that may throw *)

Record error := Err { ename : str; message : str }.

(** [String(e)] for an error object. *)
Definition String_of_error (e : error) : str :=
  ename e ++ u ": " ++ message e.

Inductive outcome (A : Type) :=
| Ret (a : A)
| Throw (e : error).
Arguments Ret {A} a.
Arguments Throw {A} e.

(** *** [encodeURIComponent]

    The call throws a [URIError] when the string holds a surrogate code
    unit that is not part of a pair, and otherwise returns the encoded
    text, which the model does not need. *)

Definition isHighSurrogate (c : char) : bool := (55296 <=? c) && (c <=? 56319).
Definition isLowSurrogate (c : char) : bool := (56320 <=? c) && (c <=? 57343).

Fixpoint wellFormed (s : str) : bool :=
  match s with
  | [] => true
  | c :: r =>
      if isHighSurrogate c
      then match r with
           | d :: r' => isLowSurrogate d && wellFormed r'
           | [] => false
           end
      else if isLowSurrogate c then false
      else wellFormed r
  end.

Definition URI_MALFORMED : error := Err (u "URIError") (u "URI malformed").

(** *** Replies of the search endpoint *)

Inductive reply :=
| HttpError (status statusText : str)   (* [!resp.ok]; the status in decimal *)
| BadBody (why : str)                   (* [resp.json()] rejects *)
| Body (data : json).

(** A text without a decimal digit. *)
Definition noDigit (s : str) : Prop := Forall (fun c => is_digit c = false) s.

End Js.

Import Js.

(** ** Regular expressions of the source

    The patterns used by the servers are sequences of literal text and
    greedy repetitions of a character class, with one capture group. *)

Module Regex.

Inductive atom :=
| Lit (ci : bool) (text : str)          (* literal; [ci]: flag [i] *)
| Many (least : nat) (cls : char -> bool) (* [cls+] is [Many 1], [cls*] is [Many 0] *)
| Open                                  (* start of group 1 *)
| Close.                                (* end of group 1 *)

(** Canonicalisation under flag [i] without flag [u], on the ASCII
    letters (no other code unit folds onto an ASCII one). *)
Definition fold_case (c : char) : char :=
  if (97 <=? c) && (c <=? 122) then c - 32 else c.

Fixpoint lit (ci : bool) (p s : str) : option str :=
  match p, s with
  | [], _ => Some s
  | a :: p', b :: s' =>
      if (if ci then fold_case a =? fold_case b else a =? b)
      then lit ci p' s' else None
  | _ :: _, [] => None
  end.

(** Greedy repetition: the longest run first, then shorter ones, down to
    [least] occurrences. *)
Fixpoint many {R} (cls : char -> bool) (k : str -> option R)
    (least : nat) (s : str) : option R :=
  let stop := match least with O => k s | S _ => None end in
  match s with
  | c :: s' =>
      if cls c
      then match many cls k (pred least) s' with
           | Some r => Some r
           | None => stop
           end
      else stop
  | [] => stop
  end.

(** Match the pattern at the start of [s]; [from] is the input at the
    opening of group 1, [cap] the text captured by it.  The result is the
    capture and the input left after the match. *)
Fixpoint matchHere (p : list atom) (from : str) (cap : str) (s : str)
    : option (str * str) :=
  match p with
  | [] => Some (cap, s)
  | Lit ci text :: p' =>
      match lit ci text s with
      | Some s' => matchHere p' from cap s'
      | None => None
      end
  | Many least cls :: p' => many cls (matchHere p' from cap) least s
  | Open :: p' => matchHere p' s cap s
  | Close :: p' =>
      matchHere p' from (take (length from - length s) from) s
  end.

(** [s.match(re)] without flag [g]: the leftmost match; the result is
    [m[1]]. *)
Fixpoint search (p : list atom) (s : str) : option str :=
  match matchHere p [] [] s with
  | Some (cap, _) => Some cap
  | None =>
      match s with
      | [] => None
      | _ :: s' => search p s'
      end
  end.

Definition notGt (c : char) : bool := negb (c =? 62).
Definition notQuote (c : char) : bool := negb (c =? QUOTE).

(** First pattern of attempt B, flag [i]: an [<img] tag, one or more
    characters other than [>], the attribute [src=] with a quoted value
    (group 1) that has [steamstatic] strictly inside it, then the rest of
    the tag up to [>]. *)
Definition IMG_STEAMSTATIC : list atom :=
  [ Lit true (u "<img"); Many 1 notGt; Lit true (u "src=" ++ [QUOTE]);
    Open; Many 1 notQuote; Lit true (u "steamstatic"); Many 1 notQuote; Close;
    Lit true [QUOTE]; Many 0 notGt; Lit true (u ">") ].

(** Second pattern of attempt B, flag [i]: the same with any non-empty
    quoted value of [src=] as group 1. *)
Definition IMG_ANY : list atom :=
  [ Lit true (u "<img"); Many 1 notGt; Lit true (u "src=" ++ [QUOTE]);
    Open; Many 1 notQuote; Close;
    Lit true [QUOTE]; Many 0 notGt; Lit true (u ">") ].

(** [s.replace(/&amp;/g, "&")] *)
Fixpoint unescapeAmp (s : str) : str :=
  match s with
  | 38 :: 97 :: 109 :: 112 :: 59 :: r => 38 :: unescapeAmp r
  | c :: r => c :: unescapeAmp r
  | [] => []
  end.

(** The size token after its slash: [\d+fx\d+f] at the start of [s],
    with the input left after it.  Each [\d+] is followed by the letter
    [f], so only the longest run of digits can lead to a match. *)
Definition matchTok (s : str) : option str :=
  let '(d1, r1) := span_digits s in
  match d1, r1 with
  | _ :: _, a :: b :: r =>
      if (a =? 102) && (b =? 120)                       (* fx *)
      then let '(d2, r2) := span_digits r in
           match d2, r2 with
           | _ :: _, c :: r' => if c =? 102 then Some r' else None   (* f *)
           | _, _ => None
           end
      else None
  | _, _ => None
  end.

Definition BIG : str := u "/360fx360f".

Definition slashFree (s : str) : Prop := Forall (fun c => c <> SLASH) s.

(** [s.replace(/\/\d+fx\d+f$/, "/360fx360f")]: the leftmost position at
    which the pattern matches up to the end of the input. *)
Fixpoint replaceAnchored (s : str) : str :=
  match s with
  | [] => []
  | c :: s' =>
      if c =? SLASH
      then match matchTok s' with
           | Some [] => BIG
           | _ => c :: replaceAnchored s'
           end
      else c :: replaceAnchored s'
  end.

(** [s.replace(/\/\d+fx\d+f/g, "/360fx360f")]: every match, left to
    right, the scan resuming after each match.  [n] bounds the number of
    scan steps; [length s] steps always suffice. *)
Fixpoint replaceAllFrom (n : nat) (s : str) : str :=
  match n with
  | O => s
  | S n' =>
      match s with
      | [] => []
      | c :: s' =>
          if c =? SLASH
          then match matchTok s' with
               | Some r => BIG ++ replaceAllFrom n' r
               | None => c :: replaceAllFrom n' s'
               end
          else c :: replaceAllFrom n' s'
      end
  end.

Definition replaceAll (s : str) : str := replaceAllFrom (length s) s.

(** [text.split(/\r?\n/)] *)
Fixpoint splitLines (s : str) : list str :=
  let push c rest :=
    match rest with
    | l :: ls => (c :: l) :: ls
    | [] => [[c]]
    end in
  match s with
  | [] => [[]]
  | c :: s' =>
      if c =? LF then [] :: splitLines s'
      else
        match s' with
        | d :: s'' =>
            if (c =? CR) && (d =? LF)
            then [] :: splitLines s''
            else push c (splitLines s')
        | [] => [[c]]
        end
  end.

End Regex.

Import Regex.

(** ** Code common to the three server revisions *)

Module Shared.

(** *** CSV reader ([parseCsvLine], [parseCsv]) *)

(** The [for] loop of [parseCsvLine]; the arguments after the rest of the
    line are the variables [cur], [inQuotes] and [out]. *)
Fixpoint parseCsvLine_loop (line : str) (cur : str) (inQuotes : bool)
    (out : list str) : list str :=
  match line with
  | [] => out ++ [cur]                               (* out.push(cur) *)
  | ch :: rest =>
      if ch =? QUOTE then
        match rest with
        | next :: rest' =>
            if inQuotes && (next =? QUOTE)
            then parseCsvLine_loop rest' (cur ++ [QUOTE]) inQuotes out
            else parseCsvLine_loop rest cur (negb inQuotes) out
        | [] => parseCsvLine_loop rest cur (negb inQuotes) out
        end
      else if (ch =? COMMA) && negb inQuotes then
        parseCsvLine_loop rest [] inQuotes (out ++ [cur])
      else
        parseCsvLine_loop rest (cur ++ [ch]) inQuotes out
  end.

Definition parseCsvLine (line : str) : list str :=
  map trim (parseCsvLine_loop line [] false []).

Definition parseCsv (text : str) : list (list str) :=
  map parseCsvLine (splitLines (trim text)).

(** The quoting that [parseCsvLine] undoes, used to state the round trip:
    a cell is written between double quotes with each double quote of
    its content doubled, and the cells of a line are joined by commas.
    The servers only read CSV; no writer exists in the source. *)
Definition quoteCell (cell : str) : str :=
  QUOTE :: flat_map (fun ch => if ch =? QUOTE then [QUOTE; QUOTE] else [ch]) cell
        ++ [QUOTE].

Fixpoint quoteLine (cells : list str) : str :=
  match cells with
  | [] => []
  | [cell] => quoteCell cell
  | cell :: rest => quoteCell cell ++ COMMA :: quoteLine rest
  end.

(** *** Bounded fan-out ([mapLimit])

    [fn a i] is the value the promise [fn(items[i], i)] resolves to (the
    transforms passed by the handlers catch their own failures).  The
    workers run interleaved; a scheduler picks which suspended worker
    runs next, so every completion order is a schedule. *)

Section MapLimit.

Context {A B : Type}.
Variable items : list A.
Variable fn : A -> nat -> B.

Inductive worker :=
| Ready                              (* at the loop test *)
| Awaiting (my : nat) (value : B)    (* suspended on [await fn(items[my], my)] *)
| Returned.                          (* the worker's promise is resolved *)

Record pool := Pool {
  idx : nat;
  results : list (option B);
  workers : list worker;
  calls : list nat                   (* indices passed to [fn], in call order *)
}.

(** [results[my] = v]; a write past the end extends the array. *)
Definition setSlot (my : nat) (v : B) (r : list (option B)) : list (option B) :=
  if (my <? length r)%nat
  then <[my := Some v]> r
  else r ++ replicate (my - length r) None ++ [Some v].

(** [new Array(items.length)], [idx = 0] and
    [Array.from({ length: Math.min(limit, items.length) }, worker)]. *)
Definition start (limit : nat) : pool :=
  Pool 0 (replicate (length items) None)
       (replicate (Nat.min limit (length items)) Ready) [].

(** Worker [w] runs up to its next suspension. *)
Definition step (w : nat) (p : pool) : option pool :=
  match workers p !! w with
  | Some Ready =>
      match items !! idx p with
      | Some a =>                               (* idx < items.length *)
          let my := idx p in
          Some (Pool (S my) (results p)
                     (<[w := Awaiting my (fn a my)]> (workers p))
                     (calls p ++ [my]))
      | None =>
          Some (Pool (idx p) (results p) (<[w := Returned]> (workers p))
                     (calls p))
      end
  | Some (Awaiting my v) =>
      Some (Pool (idx p) (setSlot my v (results p))
                 (<[w := Ready]> (workers p)) (calls p))
  | Some Returned | None => None
  end.

Fixpoint run (sched : list nat) (p : pool) : option pool :=
  match sched with
  | [] => Some p
  | w :: sched' =>
      match step w p with
      | Some p' => run sched' p'
      | None => None
      end
  end.

Definition isReturned (w : worker) : bool :=
  match w with Returned => true | _ => false end.

(** [await Promise.all(workers)] is over. *)
Definition settled (p : pool) : bool := forallb isReturned (workers p).

(** What holds of every pool reached from [start]. *)
Record consistent (p : pool) : Prop := Consistent {
  slots_length : length (results p) = length items;
  calls_in_order : calls p = seq 0 (idx p);
  cursor_bounded : (idx p <= length items)%nat;
  awaited_value : forall w my v,
    workers p !! w = Some (Awaiting my v) ->
    exists a, items !! my = Some a /\ v = fn a my;
  taken_item : forall i a,
    items !! i = Some a -> (i < idx p)%nat ->
    results p !! i = Some (Some (fn a i))
    \/ exists w v, workers p !! w = Some (Awaiting i v);
  returned_at_end : forall w,
    workers p !! w = Some Returned -> idx p = length items
}.

(** Steps left before the pool settles. *)
Definition weight (w : worker) : nat :=
  match w with Ready => 1 | Awaiting _ _ => 2 | Returned => 0 end.

Definition remaining (p : pool) : nat :=
  2 * (length items - idx p) + list_sum (map weight (workers p)).



End MapLimit.

(** *** Attempt A of the image lookup

    The work stack is a list whose head is the top: [stack.pop()] takes
    the head and pushing the children in key order leaves the last child
    on top.  [probe] is the test made on an object node; [fuel] bounds the
    number of iterations, and a tree with [n] values needs at most [n + 1]. *)
Fixpoint walk (probe : json -> option str) (fuel : nat) (stack : list json)
    : option (option str) :=
  match fuel with
  | O => None
  | S fuel' =>
      match stack with
      | [] => Some None                       (* iconUrl stays null *)
      | node :: rest =>
          if negb (truthyJ node) then walk probe fuel' rest
          else if isObject node then
            match probe node with
            | Some url => Some (Some url)     (* break *)
            | None => walk probe fuel' (rev (children node) ++ rest)
            end
          else walk probe fuel' rest
      end
  end.

(** Number of values held by the trees on a stack. *)
Definition stackNodes (stack : list json) : nat := list_sum (map nodes stack).

(** The values of a tree in the order in which a traversal that never
    stops pops them: a value, then its children's subtrees from the last
    child to the first. *)
Fixpoint popOrder (v : json) : list json :=
  v :: match v with
       | JArr items => concat (rev (map popOrder items))
       | JObj fields => concat (rev (map (fun kv => popOrder (snd kv)) fields))
       | _ => []
       end.

(** The first value of a sequence, an object or array, at which the node
    test succeeds. *)
Fixpoint firstMatch (probe : json -> option str) (l : list json) : option str :=
  match l with
  | [] => None
  | v :: l' =>
      if truthyJ v && isObject v
      then match probe v with
           | Some url => Some url
           | None => firstMatch probe l'
           end
      else firstMatch probe l'
  end.

(** [const assets = data?.assets; if (assets) { ... }] *)
Definition attemptA (probe : json -> option str) (data : json) : option str :=
  match getField (u "assets") data with
  | Some assets =>
      if truthyJ assets
      then match walk probe (S (nodes assets)) [assets] with
           | Some found => found
           | None => None
           end
      else None
  | None => None
  end.

(** A property that is a non-empty string:
    [node.k && typeof node.k === "string"]. *)
Definition nonEmptyString (k : str) (node : json) : option str :=
  match getField k node with
  | Some (JStr s) => if truthy s then Some s else None
  | _ => None
  end.

(** A property that is a string: [typeof node.k === "string"]. *)
Definition anyString (k : str) (node : json) : option str :=
  match getField k node with
  | Some (JStr s) => Some s
  | _ => None
  end.

(** Attempt B: [data?.results_html || EMPTY], the two [match] calls and
    the replacement of [&amp;].  A truthy [results_html] that is not a
    string has no [match] method and the call throws. *)
Definition attemptB (data : json) : outcome (option str) :=
  let scrape html :=
    match (match search IMG_STEAMSTATIC html with
           | Some m1 => Some m1
           | None => search IMG_ANY html
           end) with
    | Some m1 => if truthy m1 then Some (unescapeAmp m1) else None
    | None => None
    end in
  match getField (u "results_html") data with
  | Some v =>
      if truthyJ v
      then match v with
           | JStr html => Ret (scrape html)
           | _ => Throw (Err (u "TypeError") (u "html.match is not a function"))
           end
      else Ret (scrape [])
  | None => Ret (scrape [])
  end.

Definition searchFailed (status statusText : str) : error :=
  Err (u "Error") (u "Steam search failed: " ++ status ++ u " " ++ statusText).

(** What [fetchSteamImage] does with the parsed reply, common to the
    three revisions up to the node test [probe], the static base url and
    the size upgrade applied to a resolved url: attempt A, completion of a
    relative url, then attempt B, then [null]. *)
Definition resolveImage (probe : json -> option str) (base : str)
    (upgrade : str -> str) (data : json) : outcome (option str) :=
  let iconUrl :=
    match attemptA probe data with
    | Some i => if truthy i then Some i else None     (* if (iconUrl) *)
    | None => None
    end in
  match iconUrl with
  | Some i =>
      Ret (Some (upgrade (if startsWith (u "http") i then i else base ++ i)))
  | None =>
      match attemptB data with
      | Throw e => Throw e
      | Ret (Some src) => Ret (Some (upgrade src))
      | Ret None => Ret None
      end
  end.

(** Joining texts with a separator, used to state round trips of the
    readers: [parts.join(sep)]. *)
Fixpoint joinBy (sep : str) (parts : list str) : str :=
  match parts with
  | [] => []
  | [part] => part
  | part :: rest => part ++ sep ++ joinBy sep rest
  end.

(** A text without line terminators of the CSV reader. *)
Definition oneLine (s : str) : Prop :=
  Forall (fun c => c <> LF /\ c <> CR) s.

(** A cell that needs no quoting. *)
Definition plainCell (s : str) : Prop :=
  Forall (fun c => c <> QUOTE /\ c <> COMMA) s.

(** A text between two double quotes. *)
Definition quoted (l : str) : Prop := exists body, l = QUOTE :: body ++ [QUOTE].

End Shared.

Import Shared.

(** ** First revision: image lookup with an in-memory cache *)

Module Basic.

Record entry := Entry { imageUrl : option str; ts : Z }.

Definition CACHE_TTL_MS : Z := 6 * 60 * 60 * 1000.

(** The module-level cache and the search requests sent so far. *)
Record state := State {
  imageCache : gmap (list N) entry;
  searches : list str
}.

Definition cacheGet (now : Z) (key : str) (s : state) : option str * state :=
  match imageCache s !! key with
  | None => (None, s)
  | Some v =>
      if (now - ts v >? CACHE_TTL_MS)%Z
      then (None, State (delete key (imageCache s)) (searches s))
      else (imageUrl v, s)
  end.

Definition cacheSet (now : Z) (key : str) (url : option str) (s : state) : state :=
  State (<[key := Entry url now]> (imageCache s)) (searches s).

(** [icon_url] is tested first, [icon_url_large] second. *)
Definition probe (node : json) : option str :=
  match nonEmptyString (u "icon_url") node with
  | Some url => Some url
  | None => nonEmptyString (u "icon_url_large") node
  end.

Definition STATIC_BASE : str :=
  u "https://community.cloudflare.steamstatic.com/economy/image/".

(** [t0] is the clock at [cacheGet], [t1] the clock at [cacheSet], [r] the
    reply of the search endpoint should a request be sent. *)
Definition fetchSteamImage (marketName : str) (t0 t1 : Z) (r : reply)
    (s : state) : outcome (option str) * state :=
  let '(cached, s) := cacheGet t0 marketName s in
  let hit :=                                           (* if (cached) *)
    match cached with Some url => truthy url | None => false end in
  if hit then (Ret cached, s) else
  if negb (wellFormed marketName)             (* [encodeURIComponent] throws *)
  then (Throw URI_MALFORMED, s) else
  let s := State (imageCache s) (searches s ++ [marketName]) in
  match r with
  | HttpError status statusText => (Throw (searchFailed status statusText), s)
  | BadBody why => (Throw (Err (u "SyntaxError") why), s)
  | Body data =>
      match resolveImage probe STATIC_BASE (fun url => url) data with
      | Throw e => (Throw e, s)
      | Ret found => (Ret found, cacheSet t1 marketName found s)
      end
  end.

(** [toMarketName]; [wear] is the second cell of the row, or
    [undefined]. *)
Definition toMarketName (itemName : str) (wear : option str) : str :=
  match wear with
  | None => itemName
  | Some wear =>
      if negb (truthy wear) then itemName
      else trim itemName ++ u " (" ++ trim wear ++ u ")"
  end.

End Basic.

(** ** [server.js]: image and price lookup with in-memory caches *)

Module Memory.

Record entry := Entry { imageUrl : option str; ts : Z }.

Definition CACHE_TTL_MS : Z := 24 * 60 * 60 * 1000.

Record state := State {
  imageCache : gmap (list N) entry;
  searches : list str
}.

Definition cacheGet (now : Z) (key : str) (s : state) : option str * state :=
  match imageCache s !! key with
  | None => (None, s)
  | Some v =>
      if (now - ts v >? CACHE_TTL_MS)%Z
      then (None, State (delete key (imageCache s)) (searches s))
      else (imageUrl v, s)
  end.

Definition cacheSet (now : Z) (key : str) (url : option str) (s : state) : state :=
  State (<[key := Entry url now]> (imageCache s)) (searches s).

Definition upgradeSteamImageSize (url : str) : str :=
  if negb (truthy url) then url else replaceAnchored url.

(** [icon_url_large] is tested first, [icon_url] second. *)
Definition probe (node : json) : option str :=
  match nonEmptyString (u "icon_url_large") node with
  | Some url => Some url
  | None => nonEmptyString (u "icon_url") node
  end.

Definition STATIC_BASE : str :=
  u "https://community.cloudflare.steamstatic.com/economy/image/".

Definition fetchSteamImage (marketName : str) (t0 t1 : Z) (r : reply)
    (s : state) : outcome (option str) * state :=
  let '(cached, s) := cacheGet t0 marketName s in
  let hit :=                       (* cached !== null && cached !== undefined *)
    match cached with Some _ => true | None => false end in
  if hit then (Ret cached, s) else
  if negb (wellFormed marketName)             (* [encodeURIComponent] throws *)
  then (Throw URI_MALFORMED, s) else
  let s := State (imageCache s) (searches s ++ [marketName]) in
  match r with
  | HttpError status statusText => (Throw (searchFailed status statusText), s)
  | BadBody why => (Throw (Err (u "SyntaxError") why), s)
  | Body data =>
      match resolveImage probe STATIC_BASE upgradeSteamImageSize data with
      | Throw e => (Throw e, s)
      | Ret found => (Ret found, cacheSet t1 marketName found s)
      end
  end.

(** [x] is a field of the price reply: a string, or [undefined]. *)
Definition moneyToNumber (x : option str) : option Q :=
  match x with
  | None => None
  | Some x =>
      if negb (truthy x) then None
      else finiteOrNull (Number (stripNonNumeric x))
  end.

Definition IDX_SHEET_PRICE : nat := 4.

(** The sheet price computed by the [/api/items] handler for one row:
    [Number(String(it.row?.[IDX_SHEET_PRICE] ?? EMPTY).replace(...))],
    kept when finite. *)
Definition sheetPrice (row : list str) : option Q :=
  let sheetPriceRaw := row !! IDX_SHEET_PRICE in
  let sheetPriceNum := Number (stripNonNumeric (default [] sheetPriceRaw)) in
  finiteOrNull sheetPriceNum.

(** [toMarketName] of [server.js] (the first revision has the same
    text).  [wear] is the second cell of the row, or [undefined]. *)
Definition toMarketName (itemName : str) (wear : option str) : str :=
  match wear with
  | None => itemName
  | Some wear =>
      if negb (truthy wear) then itemName
      else trim itemName ++ u " (" ++ trim wear ++ u ")"
  end.

(** *** Price cache and price lookup

    The price cache has its own map; its entries are [{ data, ts }]
    (the time stamp is named [priceTs] here, [ts] being taken by the
    image cache).  [lookups] are the price requests sent so far. *)

Record priceEntry := PriceEntry { data : json; priceTs : Z }.

Definition PRICE_TTL_MS : Z := 30 * 60 * 1000.

Record priceState := PriceState {
  priceCache : gmap (list N) priceEntry;
  lookups : list str
}.

Definition priceCacheGet (now : Z) (key : str) (s : priceState)
    : option json * priceState :=
  match priceCache s !! key with
  | None => (None, s)
  | Some v =>
      if (now - priceTs v >? PRICE_TTL_MS)%Z
      then (None, PriceState (delete key (priceCache s)) (lookups s))
      else (Some (data v), s)
  end.

Definition priceCacheSet (now : Z) (key : str) (j : json) (s : priceState)
    : priceState :=
  PriceState (<[key := PriceEntry j now]> (priceCache s)) (lookups s).

(** [t0] is the clock at [priceCacheGet], [t1] the clock at
    [priceCacheSet], [r] the reply of the price endpoint should a request
    be sent (of an error reply only the status is used). *)
Definition fetchSteamPrice (marketName : str) (t0 t1 : Z) (r : reply)
    (s : priceState) : outcome json * priceState :=
  let '(cached, s) := priceCacheGet t0 marketName s in
  match (match cached with
         | Some j => if truthyJ j then Some j else None     (* if (cached) *)
         | None => None
         end) with
  | Some j => (Ret j, s)
  | None =>
      if negb (wellFormed marketName)         (* [encodeURIComponent] throws *)
      then (Throw URI_MALFORMED, s) else
      let s := PriceState (priceCache s) (lookups s ++ [marketName]) in
      match r with
      | HttpError status _ =>
          (Throw (Err (u "Error") (u "priceoverview failed: " ++ status)), s)
      | BadBody why => (Throw (Err (u "SyntaxError") why), s)
      | Body j => (Ret j, priceCacheSet t1 marketName j s)
      end
  end.

End Memory.

(** ** Persistent revision: sheet rows upserted into a store, background
    refresh of the enrichment fields *)

Module Persistent.

(** *** Cell parsing *)

Definition toMarketName (itemName wear : option str) : str :=
  let n := trim (default [] itemName) in
  let w := trim (default [] wear) in
  if negb (truthy w) then n else n ++ u " (" ++ w ++ u ")".

(** [x] is a cell of the row, or [undefined] past its end. *)
Definition numOrNull (x : option str) : option Q :=
  let s0 := trim (default [] x) in
  if negb (truthy s0) then None else
  let s := stripNonNumeric s0 in
  if negb (truthy s) || str_eqb s (u "-") || str_eqb s (u ".")
     || str_eqb s (u "-.")
  then None
  else finiteOrNull (Number s).

Definition intOrNull (x : option str) : option Q :=
  match numOrNull x with
  | None => None
  | Some n => Some (trunc n)
  end.

(** The arguments given to [new Date(yy, mm - 1, dd, 0, 0, 0, 0)]: a local
    midnight.  Out-of-range months and days, and years below 100, are
    normalised by the Date object, which is not modelled. *)
Record date := LocalMidnight { year : Z; monthIndex : Z; day : Z }.

(** [t.match(/^(\d{1,2})\/(\d{1,2})\/(\d{4})$/)] and the three numbers. *)
Definition matchMDY (t : str) : option (Z * Z * Z) :=
  let short d := match d with [_] | [_; _] => true | _ => false end in
  let '(m, r1) := span_digits t in
  match r1 with
  | 47 :: r2 =>
      let '(d, r3) := span_digits r2 in
      match r3 with
      | 47 :: r4 =>
          match span_digits r4 with
          | ([_; _; _; _] as y, []) =>
              if short m && short d
              then Some (digitsVal m, digitsVal d, digitsVal y)
              else None
          | _ => None
          end
      | _ => None
      end
  | _ => None
  end.

Definition parseMDYDate (s : option str) : option date :=
  match s with
  | None => None
  | Some s =>
      if negb (truthy s) then None else
      match matchMDY (trim s) with
      | None => None
      | Some (mm, dd, yy) =>
          if (mm =? 0)%Z || (dd =? 0)%Z || (yy =? 0)%Z then None
          else Some (LocalMidnight yy (mm - 1) dd)
      end
  end.

(** *** Image lookup (no cache in this revision) *)

Definition upgradeSteamImageSize (url : str) : str :=
  if negb (truthy url) then url else replaceAll url.

(** [icon_url_large] is tested first, [icon_url] second; any string
    stops the traversal. *)
Definition probe (node : json) : option str :=
  match anyString (u "icon_url_large") node with
  | Some url => Some url
  | None => anyString (u "icon_url") node
  end.

Definition STATIC_BASE : str :=
  u "https://community.fastly.steamstatic.com/economy/image/".

(** [r] is the reply of the search endpoint should a request be sent;
    none is sent when [encodeURIComponent] throws. *)
Definition fetchSteamImage (marketName : str) (r : reply) : outcome (option str) :=
  if negb (wellFormed marketName) then Throw URI_MALFORMED else
  match r with
  | HttpError status statusText => Throw (searchFailed status statusText)
  | BadBody why => Throw (Err (u "SyntaxError") why)
  | Body data => resolveImage probe STATIC_BASE upgradeSteamImageSize data
  end.

Record price := Price { lowest : option Q; median : option Q; volume : option Q }.

(** The price lookup of this revision is a stub. *)
Definition fetchSteamPrice : outcome price := Ret (Price None None None).

(** *** Stored records

    The fields declared by [ItemSchema].  The [createdAt] and [updatedAt]
    stamps that the store library keeps by itself are not part of the
    model. *)

Record Item := MkItem {
  marketName : str;
  name : str;
  wear : option str;
  sheetPrice : option Q;
  floatValue : option Q;
  paintSeed : option Q;
  sheetTimestamp : option date;
  row : list str;
  lastSeenAt : Z;
  imageUrl : option str;
  steamLowest : option Q;
  steamMedian : option Q;
  steamVolume : option Q;
  imageUpdatedAt : option Z;
  steamUpdatedAt : option Z;
  imageError : option str;
  steamError : option str
}.

Definition PRICE_TTL_MS : Z := 30 * 60 * 1000.
Definition IMAGE_TTL_MS : Z := 7 * 24 * 60 * 60 * 1000.

Definition isStale (now : Z) (dateObj : option Z) (ttlMs : Z) : bool :=
  match dateObj with
  | None => true
  | Some t => (now - t >? ttlMs)%Z
  end.

(** The [$set] documents written by [refreshOne]. *)
Inductive update :=
| SetImage (url : option str) (at_ : Z)
| SetImageError (e : str)
| SetPrice (p : price) (at_ : Z)
| SetSteamError (e : str).

Definition applyUpdate (w : update) (d : Item) : Item :=
  match w with
  | SetImage url t =>
      MkItem (marketName d) (name d) (wear d) (sheetPrice d) (floatValue d)
        (paintSeed d) (sheetTimestamp d) (row d) (lastSeenAt d)
        url (steamLowest d) (steamMedian d) (steamVolume d)
        (Some t) (steamUpdatedAt d) None (steamError d)
  | SetImageError e =>
      MkItem (marketName d) (name d) (wear d) (sheetPrice d) (floatValue d)
        (paintSeed d) (sheetTimestamp d) (row d) (lastSeenAt d)
        (imageUrl d) (steamLowest d) (steamMedian d) (steamVolume d)
        (imageUpdatedAt d) (steamUpdatedAt d) (Some e) (steamError d)
  | SetPrice p t =>
      MkItem (marketName d) (name d) (wear d) (sheetPrice d) (floatValue d)
        (paintSeed d) (sheetTimestamp d) (row d) (lastSeenAt d)
        (imageUrl d) (lowest p) (median p) (volume p)
        (imageUpdatedAt d) (Some t) (imageError d) None
  | SetSteamError e =>
      MkItem (marketName d) (name d) (wear d) (sheetPrice d) (floatValue d)
        (paintSeed d) (sheetTimestamp d) (row d) (lastSeenAt d)
        (imageUrl d) (steamLowest d) (steamMedian d) (steamVolume d)
        (imageUpdatedAt d) (steamUpdatedAt d) (imageError d) (Some e)
  end.

(** [Item.updateOne({ marketName }, { $set: w })], without upsert. *)
Definition updateOne (key : str) (w : update) (db : gmap (list N) Item)
    : gmap (list N) Item :=
  match db !! key with
  | Some d => <[key := applyUpdate w d]> db
  | None => db
  end.

(** *** [refreshOne] as a resumable task

    A call runs synchronously up to its first [await] and then in
    segments, each resumed when the awaited operation completes.  Any
    number of calls may be suspended at once; the scheduler picks which
    one resumes next.  Store operations take effect when the caller
    resumes and do not fail. *)

Inductive pc :=
| Called                                   (* the call has not run yet *)
| AwaitFind                                (* [await Item.findOne(...)] *)
| AwaitImage (doc : Item)                  (* [await fetchSteamImage(...)] *)
| AwaitImageWrite (doc : Item) (w : update)
| AwaitPrice (doc : Item)                  (* [await fetchSteamPrice(...)] *)
| AwaitPriceWrite (w : update)
| Finished (worked : bool).                (* [false]: returned at the guard *)

Record task := Task {
  target : str;
  refreshPrice : bool;
  refreshImage : bool;
  at_ : pc
}.

Inductive action :=
| Search (key : str)                       (* request to the search endpoint *)
| PriceLookup (key : str)                  (* request to the price endpoint *)
| Write (key : str) (w : update).          (* [Item.updateOne] *)

Record sys := Sys {
  db : gmap (list N) Item;
  inFlight : gset (list N);
  tasks : list task;
  log : list (nat * action)                (* who did what, in order *)
}.

(** What the environment supplies to the segment being resumed: the
    clock, and the results of the lookups (the price lookup is a
    parameter so that its failure branch can be exercised; the stub of
    this revision always supplies [fetchSteamPrice]). *)
Record env := Env {
  now : Z;
  searchReply : reply;
  priceResult : outcome price
}.

Definition moveTo (i : nat) (t : task) (p : pc) (s : sys) : sys :=
  Sys (db s) (inFlight s)
      (<[i := Task (target t) (refreshPrice t) (refreshImage t) p]> (tasks s))
      (log s).

Definition record (i : nat) (a : action) (s : sys) : sys :=
  Sys (db s) (inFlight s) (tasks s) (log s ++ [(i, a)]).

(** [finally { inFlight.delete(marketName) }] and return. *)
Definition finish (i : nat) (t : task) (s : sys) : sys :=
  moveTo i t (Finished true)
    (Sys (db s) (inFlight s ∖ {[target t]}) (tasks s) (log s)).

(** From the comment [Price refresh] on. *)
Definition priceStage (i : nat) (e : env) (t : task) (doc : Item) (s : sys) : sys :=
  if refreshPrice t && isStale (now e) (steamUpdatedAt doc) PRICE_TTL_MS
  then moveTo i t (AwaitPrice doc) (record i (PriceLookup (target t)) s)
  else finish i t s.

Definition missing (url : option str) : bool :=        (* !doc.imageUrl *)
  match url with Some url => negb (truthy url) | None => true end.

Definition imageWrite (key : str) (e : env) : update :=
  match fetchSteamImage key (searchReply e) with
  | Ret url => SetImage url (now e)
  | Throw err => SetImageError (String_of_error err)
  end.

Definition priceWrite (e : env) : update :=
  match priceResult e with
  | Ret p => SetPrice p (now e)
  | Throw err => SetSteamError (String_of_error err)
  end.

Definition write (i : nat) (key : str) (w : update) (s : sys) : sys :=
  record i (Write key w) (Sys (updateOne key w (db s)) (inFlight s) (tasks s) (log s)).

(** Task [i] runs its next segment. *)
Definition step (i : nat) (e : env) (s : sys) : option sys :=
  match tasks s !! i with
  | None => None
  | Some t =>
      match at_ t with
      | Called =>
          if bool_decide (target t ∈ inFlight s)
          then Some (moveTo i t (Finished false) s)
          else Some (moveTo i t AwaitFind
                       (Sys (db s) ({[target t]} ∪ inFlight s) (tasks s) (log s)))
      | AwaitFind =>
          match db s !! target t with
          | None => Some (finish i t s)
          | Some doc =>
              if refreshImage t
                 && (isStale (now e) (imageUpdatedAt doc) IMAGE_TTL_MS
                     || missing (imageUrl doc))
              then Some (moveTo i t (AwaitImage doc)
                           (if wellFormed (target t)
                            then record i (Search (target t)) s
                            else s))
              else Some (priceStage i e t doc s)
          end
      | AwaitImage doc =>
          Some (moveTo i t (AwaitImageWrite doc (imageWrite (target t) e)) s)
      | AwaitImageWrite doc w =>
          Some (priceStage i e t doc (write i (target t) w s))
      | AwaitPrice doc =>
          Some (moveTo i t (AwaitPriceWrite (priceWrite e)) s)
      | AwaitPriceWrite w =>
          Some (finish i t (write i (target t) w s))
      | Finished _ => None
      end
  end.

Fixpoint run (sched : list (nat * env)) (s : sys) : option sys :=
  match sched with
  | [] => Some s
  | (i, e) :: sched' =>
      match step i e s with
      | Some s' => run sched' s'
      | None => None
      end
  end.

(** A call that holds the guard: past the test, not yet returned. *)
Definition active (t : task) : bool :=
  match at_ t with
  | Called | Finished _ => false
  | _ => true
  end.

(** A call that went past the guard, whether or not it has returned. *)
Definition passed (t : task) : bool :=
  match at_ t with
  | Called | Finished false => false
  | _ => true
  end.

(** What holds of every state reached from one in which no call has run
    yet: the identifier of a call holding the guard is in the set, no two
    such calls share an identifier, and every logged action is by a call
    that went past the guard. *)
Record guarded (s : sys) : Prop := Guarded {
  holders_in_flight : forall i t,
    tasks s !! i = Some t -> active t = true -> target t ∈ inFlight s;
  one_holder : forall i j ti tj,
    tasks s !! i = Some ti -> tasks s !! j = Some tj ->
    active ti = true -> active tj = true -> target ti = target tj -> i = j;
  actions_by_holders : forall i a,
    (i, a) ∈ log s -> exists t, tasks s !! i = Some t /\ passed t = true
}.

(** *** [upsertFromSheet] *)

(** The [$set] document built for one row. *)
Record sheetSet := SheetSet {
  set_marketName : str;
  set_name : str;
  set_wear : option str;
  set_sheetPrice : option Q;
  set_floatValue : option Q;
  set_paintSeed : option Q;
  set_sheetTimestamp : option date;
  set_row : list str;
  set_lastSeenAt : Z
}.

Definition IDX_NAME : nat := 0.
Definition IDX_WEAR : nat := 1.
Definition IDX_FLOAT : nat := 2.
Definition IDX_SEED : nat := 3.
Definition IDX_PRICE : nat := 4.
Definition IDX_TS : nat := 7.

(** The body of the loop for a row [r]; [None] is [continue]. *)
Definition rowOp (now : Z) (r : list str) : option sheetSet :=
  match r !! IDX_NAME with
  | Some name =>
      if negb (truthy name) then None else
      let wear := r !! IDX_WEAR in
      Some (SheetSet (toMarketName (Some name) wear) name wear
              (numOrNull (r !! IDX_PRICE)) (numOrNull (r !! IDX_FLOAT))
              (intOrNull (r !! IDX_SEED)) (parseMDYDate (r !! IDX_TS))
              r now)
  | None => None
  end.

(** The array [ops]; [clock k] is [new Date()] at the [k]-th row. *)
Fixpoint sheetOps (clock : nat -> Z) (k : nat) (body : list (list str))
    : list sheetSet :=
  match body with
  | [] => []
  | r :: body' =>
      match rowOp (clock k) r with
      | Some op => op :: sheetOps clock (S k) body'
      | None => sheetOps clock (S k) body'
      end
  end.

(** [updateOne] with [upsert: true]: [$set] on a match, [$set] and
    [$setOnInsert] on a new record. *)
Definition applyUpsert (op : sheetSet) (db : gmap (list N) Item)
    : gmap (list N) Item :=
  let key := set_marketName op in
  match db !! key with
  | Some d =>
      <[key := MkItem (set_marketName op) (set_name op) (set_wear op)
                 (set_sheetPrice op) (set_floatValue op) (set_paintSeed op)
                 (set_sheetTimestamp op) (set_row op) (set_lastSeenAt op)
                 (imageUrl d) (steamLowest d) (steamMedian d) (steamVolume d)
                 (imageUpdatedAt d) (steamUpdatedAt d)
                 (imageError d) (steamError d)]> db
  | None =>
      <[key := MkItem (set_marketName op) (set_name op) (set_wear op)
                 (set_sheetPrice op) (set_floatValue op) (set_paintSeed op)
                 (set_sheetTimestamp op) (set_row op) (set_lastSeenAt op)
                 None None None None None None None None]> db
  end.

(** The two groups of fields of a record. *)
Definition sheetFields (d : Item) :=
  (marketName d, name d, wear d, sheetPrice d, floatValue d, paintSeed d,
   sheetTimestamp d, row d, lastSeenAt d).

Definition enrichment (d : Item) :=
  (imageUrl d, steamLowest d, steamMedian d, steamVolume d,
   imageUpdatedAt d, steamUpdatedAt d, imageError d, steamError d).

(** [Item.bulkWrite(ops, { ordered: false })]: the operations are applied
    one at a time, in an order the store chooses; [order] is that order. *)
Definition bulkWrite (order : list sheetSet) (db : gmap (list N) Item)
    : gmap (list N) Item :=
  foldl (fun db op => applyUpsert op db) db order.

(** The returned [{ header, count }] and the store after the write, the
    operations being applied in array order. *)
Definition upsertFromSheet (clock : nat -> Z) (rows : list (list str))
    (db : gmap (list N) Item) : (list str * nat) * gmap (list N) Item :=
  match rows with
  | [] => (([], O), db)
  | header :: body =>
      let ops := sheetOps clock 0 body in
      ((header, length ops), bulkWrite ops db)
  end.

(** The record an upsert leaves under its key: the sheet fields of the
    upsert, with the enrichment of the record found there, or [null]s. *)
Definition merged (w : sheetSet) (found : option Item) : Item :=
  match found with
  | Some d =>
      MkItem (set_marketName w) (set_name w) (set_wear w) (set_sheetPrice w)
        (set_floatValue w) (set_paintSeed w) (set_sheetTimestamp w) (set_row w)
        (set_lastSeenAt w)
        (imageUrl d) (steamLowest d) (steamMedian d) (steamVolume d)
        (imageUpdatedAt d) (steamUpdatedAt d) (imageError d) (steamError d)
  | None =>
      MkItem (set_marketName w) (set_name w) (set_wear w) (set_sheetPrice w)
        (set_floatValue w) (set_paintSeed w) (set_sheetTimestamp w) (set_row w)
        (set_lastSeenAt w)
        None None None None None None None None
  end.

(** The last upsert of a sequence that has the key [k]. *)
Fixpoint lastFor (k : str) (order : list sheetSet) : option sheetSet :=
  match order with
  | [] => None
  | w :: rest =>
      match lastFor k rest with
      | Some w' => Some w'
      | None => if bool_decide (set_marketName w = k) then Some w else None
      end
  end.

(** Segments a call may still run, at most. *)
Definition segmentsLeft (p : pc) : nat :=
  match p with
  | Called => 6
  | AwaitFind => 5
  | AwaitImage _ => 4
  | AwaitImageWrite _ _ => 3
  | AwaitPrice _ => 2
  | AwaitPriceWrite _ => 1
  | Finished _ => 0
  end.

Definition segments (s : sys) : nat :=
  list_sum (map (fun t => segmentsLeft (at_ t)) (tasks s)).

(** The calls that sent a search request, in the order of the requests. *)
Definition searchers (l : list (nat * action)) : list nat :=
  omap (fun ia => match snd ia with Search _ => Some (fst ia) | _ => None end) l.

(** A call that has not yet read its record. *)
Definition beforeFind (t : task) : bool :=
  match at_ t with
  | Called | AwaitFind => true
  | _ => false
  end.

(** *** [refreshLoop]

    [docs] is the answer of the store to
    [Item.find({}).sort({ lastSeenAt: -1 }).limit(200)], and [clock k] the
    value of [Date.now()] when the filter looks at the [k]-th record. *)

Definition needsRefresh (now : Z) (d : Item) : bool :=
  missing (imageUrl d)
  || isStale now (imageUpdatedAt d) IMAGE_TTL_MS
  || isStale now (steamUpdatedAt d) PRICE_TTL_MS.

Fixpoint keepStale (clock : nat -> Z) (k : nat) (docs : list Item) : list Item :=
  match docs with
  | [] => []
  | d :: docs' =>
      if needsRefresh (clock k) d
      then d :: keepStale clock (S k) docs'
      else keepStale clock (S k) docs'
  end.

(** [docs.filter(...).slice(0, 60)] *)
Definition candidates (clock : nat -> Z) (docs : list Item) : list Item :=
  take 60 (keepStale clock 0 docs).

(** The calls of one cycle:
    [refreshOne(cur.marketName, { refreshPrice: true, refreshImage: true })]
    for each candidate.  With [MAX_CONCURRENCY = 1] the single worker
    starts each call after the previous one has returned, which is one of
    the schedules of these calls. *)
Definition loopCalls (clock : nat -> Z) (docs : list Item) : list task :=
  map (fun d => Task (marketName d) true true Called) (candidates clock docs).

(** Every identifier in the set belongs to a call that holds the guard. *)
Definition accounted (s : sys) : Prop :=
  forall k, k ∈ inFlight s ->
    exists i t, tasks s !! i = Some t /\ active t = true /\ target t = k.

(** No call sent two search requests, and a call that sent one has read
    its record. *)
Definition searchedOnce (s : sys) : Prop :=
  NoDup (searchers (log s))
  /\ forall i, i ∈ searchers (log s) ->
       exists t, tasks s !! i = Some t /\ beforeFind t = false.





(** The identifier an action is about. *)
Definition actionKey (a : action) : str :=
  match a with
  | Search key | PriceLookup key | Write key _ => key
  end.

(** A call that has read its record and found one. *)
Definition holdsRecord (t : task) : bool :=
  match at_ t with
  | AwaitImage _ | AwaitImageWrite _ _ | AwaitPrice _ | AwaitPriceWrite _ => true
  | _ => false
  end.

(** A call that found a record has a stored identifier, and every action
    is about the identifier of the call that made it, which is stored. *)
Definition stocked (s : sys) : Prop :=
  (forall i t, tasks s !! i = Some t -> holdsRecord t = true ->
     target t ∈ dom (db s))
  /\ (forall i a, (i, a) ∈ log s ->
       actionKey a ∈ dom (db s)
       /\ exists t, tasks s !! i = Some t /\ target t = actionKey a).

End Persistent.

(** * Properties *)

(** ** Size upgrade *)

Section SizeUpgrade.

(** [span_digits] splits its input at the first code unit that is not a
    digit. *)
Lemma span_digits_split s d r :
  span_digits s = (d, r) ->
  s = d ++ r /\ forallb is_digit d = true /\
  match r with [] => True | c :: _ => is_digit c = false end.
Proof.
  revert d r. induction s as [|c s IH]; intros d r; simpl.
  - intros [= <- <-]. auto.
  - destruct (is_digit c) eqn:Hc.
    + destruct (span_digits s) as [d' r'] eqn:Hs. intros [= <- <-].
      destruct (IH _ _ eq_refl) as (-> & Hd & Hr).
      simpl. rewrite Hc, Hd. auto.
    + intros [= <- <-]. simpl. rewrite Hc. auto.
Qed.

Lemma span_digits_stop s d c r x :
  span_digits s = (d, c :: r) -> span_digits (s ++ x) = (d, c :: r ++ x).
Proof.
  revert d. induction s as [|a s IH]; intros d; simpl; [discriminate|].
  destruct (is_digit a) eqn:Ha.
  - destruct (span_digits s) as [d' r'] eqn:Hs. intros [= <- ->].
    rewrite (IH _ eq_refl). reflexivity.
  - intros [= <- <- <-]. reflexivity.
Qed.

(** A token followed by anything is matched, leaving what follows. *)
Lemma matchTok_app t x : matchTok t = Some [] -> matchTok (t ++ x) = Some x.
Proof.
  unfold matchTok. destruct (span_digits t) as [d1 r1] eqn:H1.
  destruct d1 as [|a0 d1]; [discriminate|].
  destruct r1 as [|a [|b r]]; try discriminate.
  rewrite (span_digits_stop _ _ _ _ x H1). simpl.
  destruct ((a =? 102) && (b =? 120)); [|discriminate].
  destruct (span_digits r) as [d2 r2] eqn:H2.
  destruct d2 as [|b0 d2]; [discriminate|].
  destruct r2 as [|c r']; [discriminate|].
  rewrite (span_digits_stop _ _ _ _ x H2).
  destruct (c =? 102); [|discriminate].
  intros [= ->]. reflexivity.
Qed.

Lemma digits_slashFree d : forallb is_digit d = true -> slashFree d.
Proof.
  induction d as [|c d IH]; simpl; intros H; constructor.
  - apply andb_prop in H as [H _]. intros ->. discriminate H.
  - apply IH. apply andb_prop in H as [_ H]. exact H.
Qed.

Lemma span_digits_digits d c r :
  forallb is_digit d = true -> is_digit c = false ->
  span_digits (d ++ c :: r) = (d, c :: r).
Proof.
  intros Hd Hc. induction d as [|a d IH]; simpl in *.
  - rewrite Hc. reflexivity.
  - apply andb_prop in Hd as [-> Hd]. rewrite (IH Hd). reflexivity.
Qed.

(** What [matchTok] consumes is a token without a slash. *)
Lemma matchTok_split s r :
  matchTok s = Some r ->
  exists t, s = t ++ r /\ slashFree t /\ matchTok t = Some [] /\ t <> [].
Proof.
  unfold matchTok at 1. destruct (span_digits s) as [d1 r1] eqn:H1.
  destruct d1 as [|a0 d1]; [discriminate|].
  destruct r1 as [|a [|b r0]]; try discriminate.
  destruct ((a =? 102) && (b =? 120)) eqn:Hab; [|discriminate].
  destruct (span_digits r0) as [d2 r2] eqn:H2.
  destruct d2 as [|b0 d2]; [discriminate|].
  destruct r2 as [|c r']; [discriminate|].
  destruct (c =? 102) eqn:Hc; [|discriminate].
  intros [= ->].
  apply span_digits_split in H1 as (-> & Hd1 & _).
  apply span_digits_split in H2 as (-> & Hd2 & _).
  apply andb_prop in Hab as [Ha Hb].
  apply N.eqb_eq in Ha, Hb, Hc. subst a b c.
  exists ((a0 :: d1) ++ 102 :: 120 :: (b0 :: d2) ++ [102]).
  split; [|split; [|split]].
  - rewrite <- !app_assoc. simpl. rewrite <- !app_assoc. reflexivity.
  - apply Forall_app_2; [apply digits_slashFree, Hd1|].
    apply Forall_cons_2; [discriminate|].
    apply Forall_cons_2; [discriminate|].
    apply Forall_app_2; [apply (digits_slashFree (b0 :: d2)), Hd2|].
    apply Forall_cons_2; [discriminate|constructor].
  - unfold matchTok.
    rewrite (span_digits_digits (a0 :: d1)) by (exact Hd1 || reflexivity).
    rewrite (span_digits_digits (b0 :: d2)) by (exact Hd2 || reflexivity).
    reflexivity.
  - discriminate.
Qed.

Lemma matchTok_shorter s r : matchTok s = Some r -> (length r < length s)%nat.
Proof.
  intros H. apply matchTok_split in H as (t & -> & _ & _ & Ht).
  rewrite length_app. destruct t; [congruence|]. simpl. lia.
Qed.

(** *** The anchored replacement of [server.js] *)

Lemma replaceAnchored_slashFree s :
  slashFree (replaceAnchored s) -> replaceAnchored s = s.
Proof.
  induction s as [|c s IH]; simpl; [reflexivity|].
  destruct (c =? SLASH) eqn:Hc.
  - apply N.eqb_eq in Hc. subst c. intros H. exfalso.
    change BIG with (SLASH :: u "360fx360f") in H.
    destruct (matchTok s) as [[|]|]; inversion H as [|? ? Hne]; now apply Hne.
  - intros H. inversion H; subst. f_equal. auto.
Qed.

Lemma replaceAnchored_idem s :
  replaceAnchored (replaceAnchored s) = replaceAnchored s.
Proof.
  induction s as [|c s IH]; simpl; [reflexivity|].
  destruct (c =? SLASH) eqn:Hc.
  - destruct (matchTok s) as [[|x r]|] eqn:Hm; [reflexivity| |];
      simpl; rewrite Hc, IH.
    + destruct (matchTok (replaceAnchored s)) as [[|]|] eqn:Hm'; try reflexivity.
      exfalso. pose proof Hm' as Hs.
      apply matchTok_split in Hs as (t & Ht & Hfree & _).
      rewrite app_nil_r in Ht. subst t.
      rewrite (replaceAnchored_slashFree _ Hfree) in Hm'. congruence.
    + destruct (matchTok (replaceAnchored s)) as [[|]|] eqn:Hm'; try reflexivity.
      exfalso. pose proof Hm' as Hs.
      apply matchTok_split in Hs as (t & Ht & Hfree & _).
      rewrite app_nil_r in Ht. subst t.
      rewrite (replaceAnchored_slashFree _ Hfree) in Hm'. congruence.
  - simpl. rewrite Hc, IH. reflexivity.
Qed.

(** *** The global replacement of the persistent revision *)

Lemma replaceAllFrom_fuel n s :
  (length s <= n)%nat -> replaceAllFrom n s = replaceAll s.
Proof.
  unfold replaceAll. revert s.
  induction n as [n IH] using lt_wf_ind. intros s Hn.
  destruct s as [|c s]; [destruct n; reflexivity|].
  destruct n as [|n]; [simpl in Hn; lia|]. simpl in *.
  destruct (c =? SLASH).
  - destruct (matchTok s) as [r|] eqn:Hm.
    + apply matchTok_shorter in Hm.
      rewrite (IH n) by lia. rewrite (IH (length s)) by lia. reflexivity.
    + rewrite (IH n) by lia. reflexivity.
  - rewrite (IH n) by lia. reflexivity.
Qed.

Lemma replaceAll_cons c s :
  replaceAll (c :: s) =
  if c =? SLASH
  then match matchTok s with
       | Some r => BIG ++ replaceAll r
       | None => c :: replaceAll s
       end
  else c :: replaceAll s.
Proof.
  unfold replaceAll at 1. simpl.
  destruct (c =? SLASH); [|reflexivity].
  destruct (matchTok s) as [r|] eqn:Hm; [|reflexivity].
  rewrite replaceAllFrom_fuel; [reflexivity|].
  apply matchTok_shorter in Hm. lia.
Qed.

(** The text before the first slash is left as it is. *)
Lemma replaceAll_prefix t s r :
  slashFree t -> replaceAll s = t ++ r -> exists r0, s = t ++ r0.
Proof.
  intros Ht. revert s. induction Ht as [|a t Ha Ht IH]; intros s H.
  - exists s. reflexivity.
  - destruct s as [|c s]; [discriminate|].
    rewrite replaceAll_cons in H.
    destruct (c =? SLASH) eqn:Hc.
    + apply N.eqb_eq in Hc. subst c.
      change BIG with (SLASH :: u "360fx360f") in H.
      destruct (matchTok s); simpl in H; injection H as <- _; now destruct Ha.
    + simpl in H. injection H as <- H.
      destruct (IH _ H) as [r0 ->]. exists r0. reflexivity.
Qed.

Lemma matchTok_replaceAll s :
  matchTok s = None -> matchTok (replaceAll s) = None.
Proof.
  intros Hs. destruct (matchTok (replaceAll s)) as [r|] eqn:Hm; [|reflexivity].
  apply matchTok_split in Hm as (t & Heq & Hfree & Ht & _).
  destruct (replaceAll_prefix _ _ _ Hfree Heq) as [r0 ->].
  rewrite (matchTok_app _ r0 Ht) in Hs. discriminate.
Qed.

Lemma replaceAll_idem s : replaceAll (replaceAll s) = replaceAll s.
Proof.
  remember (length s) as n eqn:Hn. revert s Hn.
  induction n as [n IH] using lt_wf_ind. intros s ->.
  destruct s as [|c s]; [reflexivity|].
  rewrite replaceAll_cons. destruct (c =? SLASH) eqn:Hc.
  - destruct (matchTok s) as [r|] eqn:Hm.
    + change (BIG ++ replaceAll r) with (SLASH :: u "360fx360f" ++ replaceAll r).
      rewrite replaceAll_cons.
      change (SLASH =? SLASH) with true. cbv iota.
      rewrite (matchTok_app (u "360fx360f") _ eq_refl).
      rewrite (IH (length r)); [reflexivity| |reflexivity].
      apply matchTok_shorter in Hm. simpl. lia.
    + rewrite replaceAll_cons, Hc, (matchTok_replaceAll _ Hm).
      rewrite (IH (length s)); [reflexivity|simpl; lia|reflexivity].
  - rewrite replaceAll_cons, Hc.
    rewrite (IH (length s)); [reflexivity|simpl; lia|reflexivity].
Qed.

End SizeUpgrade.

(** C10. [upgradeSteamImageSize] is idempotent on every string, in the
    anchored form of [server.js] and in the global form of the persistent
    revision. *)
Theorem upgradeSteamImageSize_idempotent (url : str) :
  Memory.upgradeSteamImageSize (Memory.upgradeSteamImageSize url)
    = Memory.upgradeSteamImageSize url
  /\ Persistent.upgradeSteamImageSize (Persistent.upgradeSteamImageSize url)
    = Persistent.upgradeSteamImageSize url.
Proof.
  unfold Memory.upgradeSteamImageSize, Persistent.upgradeSteamImageSize.
  destruct url as [|c url]; [split; reflexivity|].
  cbn [truthy negb]. split.
  - destruct (replaceAnchored (c :: url)) eqn:E; [reflexivity|].
    cbn [truthy negb]. rewrite <- E. apply replaceAnchored_idem.
  - destruct (replaceAll (c :: url)) eqn:E; [reflexivity|].
    cbn [truthy negb]. rewrite <- E. apply replaceAll_idem.
Qed.

(** ** CSV reader *)

Section Csv.

(** Inside a quoted cell: the escaped content up to the closing quote is
    appended to [cur], provided the closing quote is not followed by
    another quote. *)
Lemma loop_quoted body rest cur out :
  match rest with [] => True | next :: _ => next <> QUOTE end ->
  parseCsvLine_loop
    (flat_map (fun ch => if ch =? QUOTE then [QUOTE; QUOTE] else [ch]) body
       ++ QUOTE :: rest) cur true out
  = parseCsvLine_loop rest (cur ++ body) false out.
Proof.
  intros Hrest. revert cur. induction body as [|ch body IH]; intros cur.
  - rewrite app_nil_r. simpl.
    destruct rest as [|next rest']; [reflexivity|].
    apply N.eqb_neq in Hrest. rewrite Hrest. reflexivity.
  - simpl. destruct (ch =? QUOTE) eqn:Hch.
    + apply N.eqb_eq in Hch. subst ch. simpl.
      rewrite IH. rewrite <- app_assoc. reflexivity.
    + simpl. rewrite Hch, andb_false_r.
      rewrite IH. rewrite <- app_assoc. reflexivity.
Qed.

Lemma loop_cell cell rest cur out :
  match rest with [] => True | next :: _ => next <> QUOTE end ->
  parseCsvLine_loop (quoteCell cell ++ rest) cur false out
  = parseCsvLine_loop rest (cur ++ cell) false out.
Proof.
  intros Hrest. unfold quoteCell.
  rewrite <- app_comm_cons, <- app_assoc.
  change ([QUOTE] ++ rest) with (QUOTE :: rest).
  rewrite <- (loop_quoted cell rest cur out Hrest).
  set (tail := _ ++ QUOTE :: rest).
  assert (Htail : tail <> []) by (subst tail; destruct (flat_map _ _); discriminate).
  destruct tail as [|next tail']; [congruence|]. reflexivity.
Qed.

Lemma loop_line cell cells out :
  parseCsvLine_loop (quoteLine (cell :: cells)) [] false out
  = out ++ cell :: cells.
Proof.
  revert cell out. induction cells as [|cell' cells IH]; intros cell out.
  - simpl quoteLine. rewrite <- (app_nil_r (quoteCell cell)).
    rewrite loop_cell by exact I. reflexivity.
  - change (quoteLine (cell :: cell' :: cells))
      with (quoteCell cell ++ COMMA :: quoteLine (cell' :: cells)).
    rewrite loop_cell by discriminate.
    change (parseCsvLine_loop (COMMA :: ?l) ?c false ?o)
      with (parseCsvLine_loop l [] false (o ++ [c])).
    rewrite IH. rewrite <- app_assoc. reflexivity.
Qed.

(** [split] never returns an empty array. *)
Lemma splitLines_nonempty s : splitLines s <> [].
Proof.
  destruct s as [|c s]; simpl; [discriminate|].
  destruct (c =? LF); [discriminate|].
  destruct s as [|d s]; [discriminate|].
  destruct ((c =? CR) && (d =? LF)); [discriminate|].
  destruct (splitLines (d :: s)); discriminate.
Qed.

(** [parseCsv] returns at least one row on every input. *)
Lemma parseCsv_nonempty text : parseCsv text <> [].
Proof.
  unfold parseCsv. pose proof (splitLines_nonempty (trim text)) as H.
  destruct (splitLines (trim text)); [congruence|discriminate].
Qed.

End Csv.

(** C7. On the empty text [parseCsv] returns one row holding one empty
    cell, not zero rows: [split] of the empty string is an array with the
    empty string. *)
Theorem parseCsv_empty_text : parseCsv [] = [[[]]].
Proof. reflexivity. Qed.

(** C8, as stated: a quoted cell with a leading space and an embedded
    comma does not come back character for character. *)
Lemma parseCsvLine_roundtrip_counterexample :
  parseCsvLine (quoteLine [u " a,b"]) <> [u " a,b"].
Proof. vm_compute. discriminate. Qed.

(** C8, amended. Parsing a line of quoted cells returns the content of
    each cell, embedded commas and escaped quotes included, with the
    white space at its two ends trimmed. *)
Theorem parseCsvLine_roundtrip (cell : str) (cells : list str) :
  parseCsvLine (quoteLine (cell :: cells)) = map trim (cell :: cells).
Proof. unfold parseCsvLine. rewrite loop_line. reflexivity. Qed.

(** ** Numeric cells *)

(** The persistent revision's [numOrNull] on the three inputs. *)
Lemma numOrNull_examples :
  Persistent.numOrNull (Some (u "$12.50")) = Some (25 # 2)%Q
  /\ Persistent.numOrNull (Some []) = None
  /\ Persistent.numOrNull (Some (u "-")) = None
  /\ Persistent.numOrNull None = None.
Proof. repeat split; reflexivity. Qed.

(** [Number] rounds the literal to a double before [Math.trunc] sees
    it. *)
Lemma intOrNull_truncates_the_double :
  Persistent.intOrNull (Some (u "0.99999999999999999999")) = Some 1%Q
  /\ Persistent.intOrNull (Some (u "123.9")) = Some 123%Q
  /\ Persistent.numOrNull (Some (u "0.1"))
     = Some (3602879701896397 # 36028797018963968)%Q
  /\ Persistent.numOrNull (Some (u "9007199254740993"))
     = Some 9007199254740992%Q.
Proof. repeat split; vm_compute; reflexivity. Qed.

(** [moneyToNumber] of [server.js] on the three inputs. *)
Lemma moneyToNumber_examples :
  Memory.moneyToNumber (Some (u "$12.50")) = Some (25 # 2)%Q
  /\ Memory.moneyToNumber (Some []) = None
  /\ Memory.moneyToNumber (Some (u "-")) = None.
Proof. repeat split; reflexivity. Qed.

(** The request path of [server.js] on a price cell [$12.50] and on a
    bare sign. *)
Lemma sheetPrice_examples :
  Memory.sheetPrice [u "AK-47"; u "FT"; u "0.21"; u "123"; u "$12.50"]
    = Some (25 # 2)%Q
  /\ Memory.sheetPrice [u "AK-47"; u "FT"; u "0.21"; u "123"; u "-"] = None.
Proof. split; reflexivity. Qed.

(** C6. On the request path of [server.js] an empty price cell, and a row
    too short to have one, give the sheet price [0] and not [null]:
    [Number] of the empty string is [0], and the handler has no test for
    the empty string. *)
Theorem sheetPrice_empty_cell_is_zero :
  Memory.sheetPrice [u "AK-47"; u "FT"; u "0.21"; u "123"; []] = Some 0%Q
  /\ Memory.sheetPrice [u "AK-47"; u "FT"] = Some 0%Q.
Proof. split; reflexivity. Qed.

(** ** Image cache *)

Section ImageCache.

(** A cached [null] that has not expired reads as a miss: [cacheGet]
    answers [null] for it as for an absent key, and both in-memory
    revisions then send a search request. *)
Lemma cacheGet_null_entry (s : Memory.state) key t now :
  Memory.imageCache s !! key = Some (Memory.Entry None t) ->
  (now - t <= Memory.CACHE_TTL_MS)%Z ->
  Memory.cacheGet now key s = (None, s).
Proof.
  intros Hk Hfresh. unfold Memory.cacheGet. rewrite Hk. simpl.
  destruct (now - t >? Memory.CACHE_TTL_MS)%Z eqn:E; [|reflexivity].
  apply Z.gtb_lt in E. lia.
Qed.

Lemma fetchSteamImage_cached_null_requeries (s : Memory.state) key t t0 t1 r :
  Memory.imageCache s !! key = Some (Memory.Entry None t) ->
  (t0 - t <= Memory.CACHE_TTL_MS)%Z ->
  wellFormed key = true ->
  Memory.searches (snd (Memory.fetchSteamImage key t0 t1 r s))
  = Memory.searches s ++ [key].
Proof.
  intros Hk Hfresh Hwf. unfold Memory.fetchSteamImage.
  rewrite (cacheGet_null_entry _ _ _ _ Hk Hfresh). cbv iota beta.
  rewrite Hwf. simpl negb. cbv iota.
  destruct r as [status statusText|why|data]; try reflexivity.
  destruct (resolveImage _ _ _ data); reflexivity.
Qed.

(** The call on a cached [null] and the call on a cache without the key
    return the same and send the same requests. *)
Lemma fetchSteamImage_cached_null_as_absent (s : Memory.state) key t t0 t1 r :
  Memory.imageCache s !! key = Some (Memory.Entry None t) ->
  (t0 - t <= Memory.CACHE_TTL_MS)%Z ->
  let absent := Memory.State (delete key (Memory.imageCache s)) (Memory.searches s) in
  fst (Memory.fetchSteamImage key t0 t1 r s)
  = fst (Memory.fetchSteamImage key t0 t1 r absent)
  /\ Memory.searches (snd (Memory.fetchSteamImage key t0 t1 r s))
     = Memory.searches (snd (Memory.fetchSteamImage key t0 t1 r absent)).
Proof.
  intros Hk Hfresh absent. unfold Memory.fetchSteamImage.
  rewrite (cacheGet_null_entry _ _ _ _ Hk Hfresh).
  unfold Memory.cacheGet at 1 2. subst absent. cbn [Memory.imageCache].
  rewrite lookup_delete_eq. cbv iota beta.
  destruct (negb (wellFormed key)); [split; reflexivity|].
  destruct r as [status statusText|why|data]; try (split; reflexivity).
  destruct (resolveImage _ _ _ data); split; reflexivity.
Qed.

Lemma cacheGet_basic_null_entry (s : Basic.state) key t now :
  Basic.imageCache s !! key = Some (Basic.Entry None t) ->
  (now - t <= Basic.CACHE_TTL_MS)%Z ->
  Basic.cacheGet now key s = (None, s).
Proof.
  intros Hk Hfresh. unfold Basic.cacheGet. rewrite Hk. simpl.
  destruct (now - t >? Basic.CACHE_TTL_MS)%Z eqn:E; [|reflexivity].
  apply Z.gtb_lt in E. lia.
Qed.

Lemma fetchSteamImage_basic_cached_null_requeries
    (s : Basic.state) key t t0 t1 r :
  Basic.imageCache s !! key = Some (Basic.Entry None t) ->
  (t0 - t <= Basic.CACHE_TTL_MS)%Z ->
  wellFormed key = true ->
  Basic.searches (snd (Basic.fetchSteamImage key t0 t1 r s))
  = Basic.searches s ++ [key].
Proof.
  intros Hk Hfresh Hwf. unfold Basic.fetchSteamImage.
  rewrite (cacheGet_basic_null_entry _ _ _ _ Hk Hfresh). cbv iota beta.
  rewrite Hwf. simpl negb. cbv iota.
  destruct r as [status statusText|why|data]; try reflexivity.
  destruct (resolveImage _ _ _ data); reflexivity.
Qed.

Lemma fetchSteamImage_basic_cached_null_as_absent
    (s : Basic.state) key t t0 t1 r :
  Basic.imageCache s !! key = Some (Basic.Entry None t) ->
  (t0 - t <= Basic.CACHE_TTL_MS)%Z ->
  let absent := Basic.State (delete key (Basic.imageCache s)) (Basic.searches s) in
  fst (Basic.fetchSteamImage key t0 t1 r s)
  = fst (Basic.fetchSteamImage key t0 t1 r absent)
  /\ Basic.searches (snd (Basic.fetchSteamImage key t0 t1 r s))
     = Basic.searches (snd (Basic.fetchSteamImage key t0 t1 r absent)).
Proof.
  intros Hk Hfresh absent. unfold Basic.fetchSteamImage.
  rewrite (cacheGet_basic_null_entry _ _ _ _ Hk Hfresh).
  unfold Basic.cacheGet at 1 2. subst absent. cbn [Basic.imageCache].
  rewrite lookup_delete_eq. cbv iota beta.
  destruct (negb (wellFormed key)); [split; reflexivity|].
  destruct r as [status statusText|why|data]; try (split; reflexivity).
  destruct (resolveImage _ _ _ data); split; reflexivity.
Qed.

End ImageCache.

(** C1, on one input: in [server.js], with a [null] cached under the
    identifier 750 ms earlier (the cache keeps entries for 24 hours), the
    next lookup sends a search request. *)
Lemma cached_null_counterexample :
  let key := u "AK-47 | Redline (Field-Tested)" in
  let noImage := Body (JObj [(u "success", JBool true)]) in
  let s1 := Memory.State {[ key := Memory.Entry None 250 ]} [key] in
  Memory.imageCache s1 !! key = Some (Memory.Entry None 250)
  /\ Memory.searches (snd (Memory.fetchSteamImage key 1000 1250 noImage s1))
     <> Memory.searches s1.
Proof. split; [reflexivity|]. vm_compute. discriminate. Qed.

(** C1. The miss is stored but never read back.  In [server.js] and in
    the first revision, for an entry that holds [null] and has not
    expired, [cacheGet] answers [null] as it does for an absent key, and
    [fetchSteamImage] returns what it returns, and sends the requests it
    sends, when the cache does not hold the key at all; for an
    identifier that can be encoded that is one new search request. *)
Theorem cached_null_is_searched_again (key : str) (t t0 t1 : Z) (r : reply) :
  (forall s : Memory.state,
      Memory.imageCache s !! key = Some (Memory.Entry None t) ->
      (t0 - t <= Memory.CACHE_TTL_MS)%Z ->
      let absent :=
        Memory.State (delete key (Memory.imageCache s)) (Memory.searches s) in
      Memory.cacheGet t0 key s = (None, s)
      /\ fst (Memory.fetchSteamImage key t0 t1 r s)
         = fst (Memory.fetchSteamImage key t0 t1 r absent)
      /\ Memory.searches (snd (Memory.fetchSteamImage key t0 t1 r s))
         = Memory.searches (snd (Memory.fetchSteamImage key t0 t1 r absent))
      /\ (wellFormed key = true ->
          Memory.searches (snd (Memory.fetchSteamImage key t0 t1 r s))
          = Memory.searches s ++ [key]))
  /\ (forall s : Basic.state,
      Basic.imageCache s !! key = Some (Basic.Entry None t) ->
      (t0 - t <= Basic.CACHE_TTL_MS)%Z ->
      let absent :=
        Basic.State (delete key (Basic.imageCache s)) (Basic.searches s) in
      Basic.cacheGet t0 key s = (None, s)
      /\ fst (Basic.fetchSteamImage key t0 t1 r s)
         = fst (Basic.fetchSteamImage key t0 t1 r absent)
      /\ Basic.searches (snd (Basic.fetchSteamImage key t0 t1 r s))
         = Basic.searches (snd (Basic.fetchSteamImage key t0 t1 r absent))
      /\ (wellFormed key = true ->
          Basic.searches (snd (Basic.fetchSteamImage key t0 t1 r s))
          = Basic.searches s ++ [key])).
Proof.
  split.
  - intros s Hk Hfresh absent.
    destruct (fetchSteamImage_cached_null_as_absent s key t t0 t1 r Hk Hfresh)
      as [Hout Hreq].
    split; [exact (cacheGet_null_entry s key t t0 Hk Hfresh)|].
    split; [exact Hout|]. split; [exact Hreq|].
    exact (fetchSteamImage_cached_null_requeries s key t t0 t1 r Hk Hfresh).
  - intros s Hk Hfresh absent.
    destruct (fetchSteamImage_basic_cached_null_as_absent s key t t0 t1 r Hk Hfresh)
      as [Hout Hreq].
    split; [exact (cacheGet_basic_null_entry s key t t0 Hk Hfresh)|].
    split; [exact Hout|]. split; [exact Hreq|].
    exact (fetchSteamImage_basic_cached_null_requeries s key t t0 t1 r Hk Hfresh).
Qed.

Lemma cached_null_is_searched_again_witness :
  let key := u "AK-47 | Redline (Field-Tested)" in
  let s1 := Memory.State {[ key := Memory.Entry None 250 ]} [key] in
  Memory.cacheGet 1000 key s1 = (None, s1)
  /\ Memory.searches
       (snd (Memory.fetchSteamImage key 1000 1250 (BadBody (u "eof")) s1))
     = [key; key].
Proof.
  intros key s1.
  destruct (cached_null_is_searched_again key 250 1000 1250 (BadBody (u "eof")))
    as (Hm & _).
  destruct (Hm s1) as (Hget & _ & _ & Hreq);
    [reflexivity | vm_compute; discriminate |].
  split; [exact Hget|]. apply Hreq. reflexivity.
Defined.

(** ** Bounded fan-out *)

Section MapLimitFacts.

Local Open Scope nat_scope.

Context {A B : Type}.
Variable items : list A.
Variable fn : A -> nat -> B.

Local Abbreviation step := (step items fn).
Local Abbreviation run := (run items fn).
Local Abbreviation consistent := (consistent items fn).
Local Abbreviation remaining := (remaining items).

Lemma start_consistent limit : consistent (start items limit).
Proof.
  split; simpl.
  - apply length_replicate.
  - reflexivity.
  - lia.
  - intros w my v H. apply lookup_replicate in H as [H _]. discriminate.
  - intros i a _ H. lia.
  - intros w H. apply lookup_replicate in H as [H _]. discriminate.
Qed.

Lemma step_consistent w p p' :
  consistent p -> step w p = Some p' -> consistent p'.
Proof.
  intros [Hlen Hcalls Hidx Hawait Htaken Hret]. unfold Shared.step.
  destruct (workers p !! w) as [[|my v|]|] eqn:Hw; try discriminate.
  - (* at the loop test *)
    pose proof (lookup_lt_Some _ _ _ Hw) as Hwlt.
    destruct (items !! idx p) as [a|] eqn:Hitem; intros [= <-]; split; simpl;
      try assumption.
    + rewrite Hcalls.
      change (seq 0 (idx p) ++ [idx p] = seq 0 (S (idx p))).
      rewrite seq_S. reflexivity.
    + apply lookup_lt_Some in Hitem. lia.
    + intros w' my v H. destruct (decide (w' = w)) as [->|Hne].
      * rewrite list_lookup_insert_eq in H by assumption.
        injection H as <- <-. eauto.
      * rewrite list_lookup_insert_ne in H by congruence. eauto.
    + intros i a' Hi Hlt. destruct (decide (i = idx p)) as [->|Hne].
      * right. exists w, (fn a (idx p)).
        rewrite list_lookup_insert_eq by assumption. reflexivity.
      * destruct (Htaken i a' Hi) as [Hr|(w' & v & Hw')]; [lia|auto|].
        right. exists w', v. rewrite list_lookup_insert_ne; [assumption|].
        intros ->. congruence.
    + intros w' H. destruct (decide (w' = w)) as [->|Hne].
      * rewrite list_lookup_insert_eq in H by assumption. discriminate.
      * rewrite list_lookup_insert_ne in H by congruence.
        apply Hret in H. apply lookup_lt_Some in Hitem. lia.
    + intros w' my v H. destruct (decide (w' = w)) as [->|Hne].
      * rewrite list_lookup_insert_eq in H by assumption. discriminate.
      * rewrite list_lookup_insert_ne in H by congruence. eauto.
    + intros i a' Hi Hlt.
      destruct (Htaken i a' Hi Hlt) as [Hr|(w' & v & Hw')]; [auto|].
      right. exists w', v. rewrite list_lookup_insert_ne; [assumption|].
      intros ->. congruence.
    + intros _ _. apply lookup_ge_None in Hitem. lia.
  - (* resumed with the value of the promise *)
    pose proof (lookup_lt_Some _ _ _ Hw) as Hwlt.
    destruct (Hawait _ _ _ Hw) as (a & Ha & ->).
    pose proof (lookup_lt_Some _ _ _ Ha) as Hmy.
    assert (Hset : setSlot my (fn a my) (results p)
                   = <[my := Some (fn a my)]> (results p)).
    { unfold setSlot. destruct (my <? length (results p))%nat eqn:E;
        [reflexivity|]. apply Nat.ltb_ge in E. lia. }
    intros [= <-]; split; simpl; try assumption.
    + rewrite Hset, length_insert. assumption.
    + intros w' my' v H. destruct (decide (w' = w)) as [->|Hne].
      * rewrite list_lookup_insert_eq in H by assumption. discriminate.
      * rewrite list_lookup_insert_ne in H by congruence. eauto.
    + intros i a' Hi Hlt. rewrite Hset.
      destruct (decide (i = my)) as [->|Hne].
      * left. rewrite list_lookup_insert_eq by lia. congruence.
      * rewrite list_lookup_insert_ne by congruence.
        destruct (Htaken i a' Hi Hlt) as [Hr|(w' & v & Hw')]; [auto|].
        right. exists w', v. rewrite list_lookup_insert_ne; [assumption|].
        intros ->. congruence.
    + intros w' H. destruct (decide (w' = w)) as [->|Hne].
      * rewrite list_lookup_insert_eq in H by assumption. discriminate.
      * rewrite list_lookup_insert_ne in H by congruence. eauto.
Qed.

Lemma run_consistent sched p p' :
  consistent p -> run sched p = Some p' -> consistent p'.
Proof.
  revert p. induction sched as [|w sched IH]; intros p Hp; simpl.
  - intros [= <-]. assumption.
  - destruct (step w p) as [p1|] eqn:Hs; [|discriminate].
    apply IH. eapply step_consistent; eassumption.
Qed.

(** A settled pool that is consistent holds every result in its slot. *)
Lemma settled_results p :
  consistent p -> settled p = true ->
  (workers p <> [] \/ items = []) ->
  results p = imap (fun i a => Some (fn a i)) items
  /\ calls p = seq 0 (length items).
Proof.
  intros [Hlen Hcalls Hidx Hawait Htaken Hret] Hset Hsome.
  unfold settled in Hset. rewrite forallb_forall in Hset.
  assert (Hend : idx p = length items).
  { destruct Hsome as [Hne| ->]; [|simpl in *; lia].
    destruct (workers p) as [|w0 ws] eqn:Hws; [congruence|].
    apply (Hret 0%nat). try rewrite Hws. simpl.
    specialize (Hset w0 (or_introl eq_refl)). destruct w0; try discriminate.
    reflexivity. }
  split; [|rewrite Hcalls, Hend; reflexivity].
  apply list_eq. intros i. rewrite list_lookup_imap.
  destruct (items !! i) as [a|] eqn:Hi; simpl.
  - destruct (Htaken i a Hi) as [Hr|(w & v & Hw)].
    + apply lookup_lt_Some in Hi. lia.
    + assumption.
    + apply list_elem_of_lookup_2, list_elem_of_In in Hw.
      apply Hset in Hw. discriminate.
  - apply lookup_ge_None. apply lookup_ge_None in Hi. lia.
Qed.

Lemma list_sum_insert (ws : list (@worker B)) w old new :
  ws !! w = Some old ->
  list_sum (map weight (<[w := new]> ws)) + weight old
  = list_sum (map weight ws) + weight new.
Proof.
  revert w. induction ws as [|x ws IH]; intros [|w]; simpl; try discriminate.
  - intros [= ->]. lia.
  - intros H. specialize (IH _ H). lia.
Qed.

(** Every step uses up exactly one unit of [remaining]. *)
Lemma step_remaining w p p' :
  consistent p -> step w p = Some p' -> S (remaining p') = remaining p.
Proof.
  intros Hp. unfold Shared.step, Shared.remaining.
  destruct (workers p !! w) as [[|my v|]|] eqn:Hw; try discriminate.
  - destruct (items !! idx p) as [a|] eqn:Hitem; intros [= <-]; simpl.
    + apply lookup_lt_Some in Hitem.
      pose proof (list_sum_insert _ _ _ (Awaiting (idx p) (fn a (idx p))) Hw).
      simpl in *. lia.
    + pose proof (list_sum_insert _ _ _ Returned Hw). simpl in *. lia.
  - intros [= <-]. simpl.
    pose proof (list_sum_insert _ _ _ Ready Hw). simpl in *. lia.
Qed.

Lemma run_remaining sched p p' :
  consistent p -> run sched p = Some p' ->
  length sched + remaining p' = remaining p.
Proof.
  revert p. induction sched as [|w sched IH]; intros p Hp; simpl.
  - intros [= <-]. reflexivity.
  - destruct (step w p) as [p1|] eqn:Hs; [|discriminate]. intros Hrun.
    pose proof (step_remaining _ _ _ Hp Hs).
    pose proof (IH _ (step_consistent _ _ _ Hp Hs) Hrun). lia.
Qed.

(** A pool that is not settled has a worker that can run. *)
Lemma unsettled_steps p :
  settled p = false -> exists w p', step w p = Some p'.
Proof.
  unfold settled, Shared.step. intros H.
  assert (Hex : exists w x, workers p !! w = Some x /\ isReturned x = false).
  { induction (workers p) as [|x ws IH]; [discriminate|]. simpl in H.
    destruct (isReturned x) eqn:Hx.
    - destruct (IH H) as (w & y & Hw & Hy). exists (S w), y. auto.
    - exists 0%nat, x. auto. }
  destruct Hex as (w & x & Hw & Hx). exists w. rewrite Hw.
  destruct x as [|my v|]; [|eauto|discriminate].
  destruct (items !! idx p); eauto.
Qed.

(** Every consistent pool can be run to a settled one. *)
Lemma runs_to_settled p :
  consistent p -> exists sched p', run sched p = Some p' /\ settled p' = true.
Proof.
  remember (remaining p) as n eqn:Hn. revert p Hn.
  induction n as [n IH] using lt_wf_ind. intros p -> Hp.
  destruct (settled p) eqn:Hset.
  - exists [], p. auto.
  - destruct (unsettled_steps _ Hset) as (w & p1 & Hs).
    pose proof (step_remaining _ _ _ Hp Hs) as Hr.
    destruct (IH (remaining p1) ltac:(lia) p1 eq_refl
                 (step_consistent _ _ _ Hp Hs)) as (sched & p' & Hrun & Hp').
    exists (w :: sched), p'. simpl. rewrite Hs. auto.
Qed.

End MapLimitFacts.

(** C3. For a list of [N] items and a limit [M] with [1 <= M <= N],
    [mapLimit] settles under every schedule of its workers, after exactly
    [2 N + M] segments; however the completions interleave, the array it
    returns has length [N] with the transform's result for the [i]-th
    item in the [i]-th slot, and the transform was called once on each
    index, [0] to [N - 1]. *)
Theorem mapLimit_results_in_input_order
    {A B : Type} (items : list A) (fn : A -> nat -> B) (limit : nat) :
  (1 <= limit)%nat -> (limit <= length items)%nat ->
  (exists sched p,
      run items fn sched (start items limit) = Some p /\ settled p = true)
  /\ (forall sched p,
      run items fn sched (start items limit) = Some p ->
      (length sched <= 2 * length items + limit)%nat
      /\ (settled p = true ->
          length sched = (2 * length items + limit)%nat
          /\ results p = imap (fun i a => Some (fn a i)) items
          /\ length (results p) = length items
          /\ calls p = seq 0 (length items))).
Proof.
  intros Hone Hle.
  pose proof (start_consistent items fn limit) as H0.
  assert (Hrem : remaining items (start (B:=B) items limit)
                 = (2 * length items + limit)%nat).
  { unfold remaining, start. simpl. rewrite Nat.min_l by assumption.
    rewrite Nat.sub_0_r. f_equal.
    clear. induction limit as [|n IH]; simpl; [reflexivity|]. rewrite IH.
    reflexivity. }
  split; [apply runs_to_settled; assumption|].
  intros sched p Hrun.
  pose proof (run_consistent _ _ _ _ _ H0 Hrun) as Hp.
  pose proof (run_remaining _ _ _ _ _ H0 Hrun) as Hlen.
  split; [lia|]. intros Hset.
  assert (Hworkers : length (workers p) = limit).
  { clear -Hrun Hle.
    assert (Hs : length (workers (start (B:=B) items limit)) = limit).
    { simpl. rewrite length_replicate. lia. }
    revert Hrun Hs. generalize (start (B:=B) items limit).
    induction sched as [|w sched IH]; intros q; simpl.
    - intros [= <-]. auto.
    - destruct (step items fn w q) as [q1|] eqn:Hq; [|discriminate].
      intros Hrun Hs. apply (IH q1 Hrun).
      unfold step in Hq.
      destruct (workers q !! w) as [[|my v|]|]; try discriminate.
      + destruct (items !! idx q); injection Hq as <-; simpl;
          rewrite length_insert; assumption.
      + injection Hq as <-; simpl. rewrite length_insert; assumption. }
  assert (Hzero : remaining items p = 0%nat).
  { unfold remaining. unfold settled in Hset.
    assert (Hw : list_sum (map weight (workers p)) = 0%nat).
    { clear -Hset. induction (workers p) as [|x ws IH]; [reflexivity|].
      simpl in *. apply andb_prop in Hset as [Hx Hws].
      destruct x; try discriminate. simpl. auto. }
    destruct (settled_results items fn p Hp Hset) as [_ Hc].
    { left. intros E. rewrite E in Hworkers. simpl in Hworkers. lia. }
    pose proof (calls_in_order _ _ _ Hp) as Hc'. rewrite Hc in Hc'.
    apply (f_equal length) in Hc'. rewrite !length_seq in Hc'. lia. }
  destruct (settled_results items fn p Hp Hset) as [Hres Hcalls].
  { left. intros E. rewrite E in Hworkers. simpl in Hworkers. lia. }
  repeat split; try assumption; [lia|].
  apply (slots_length _ _ _ Hp).
Qed.

Lemma mapLimit_results_in_input_order_witness :
  let items := [10; 20; 30]%nat in
  let fn := fun (a i : nat) => (a + i)%nat in
  (* the three calls complete in the reverse of the order they were made *)
  exists p,
    run items fn [0; 1; 2; 2; 1; 0; 2; 1; 0]%nat (start items 3) = Some p
    /\ results p = [Some 10; Some 21; Some 32]%nat
    /\ calls p = [0; 1; 2]%nat.
Proof.
  intros items fn.
  destruct (mapLimit_results_in_input_order items fn 3) as [_ H];
    [lia | simpl; lia |].
  set (p := Pool 3 [Some 10; Some 21; Some 32]%nat
                 [Returned; Returned; Returned] [0; 1; 2]%nat).
  assert (Hrun : run items fn [0; 1; 2; 2; 1; 0; 2; 1; 0]%nat (start items 3)
                 = Some p) by reflexivity.
  exists p. split; [exact Hrun|].
  destruct (H _ _ Hrun) as [_ Hs].
  destruct Hs as (_ & Hr & _ & Hc); [reflexivity|].
  split; [exact Hr | exact Hc].
Defined.

(** ** Attempt A of the image lookup *)

Section AttemptA.

Local Open Scope nat_scope.

Variable probe : json -> option str.

Lemma nodes_children v : nodes v = S (stackNodes (children v)).
Proof.
  unfold stackNodes. destruct v; simpl; try reflexivity.
  rewrite map_map. reflexivity.
Qed.

Lemma popOrder_children v :
  popOrder v = v :: concat (map popOrder (rev (children v))).
Proof.
  destruct v; simpl; try reflexivity.
  - rewrite map_rev. reflexivity.
  - rewrite map_rev, map_map. reflexivity.
Qed.

Lemma stackNodes_app a b : stackNodes (a ++ b) = stackNodes a + stackNodes b.
Proof. unfold stackNodes. rewrite map_app, list_sum_app. reflexivity. Qed.

Lemma stackNodes_rev a : stackNodes (rev a) = stackNodes a.
Proof.
  unfold stackNodes. induction a as [|x a IH]; [reflexivity|].
  cbn [rev map list_sum]. rewrite map_app, list_sum_app, IH.
  change (list_sum (map nodes [x])) with (nodes x + 0).
  change (list_sum (nodes x :: map nodes a))
    with (nodes x + list_sum (map nodes a)).
  lia.
Qed.

Lemma firstMatch_app a b :
  firstMatch probe (a ++ b) =
  match firstMatch probe a with
  | Some url => Some url
  | None => firstMatch probe b
  end.
Proof.
  induction a as [|v a IH]; simpl; [reflexivity|].
  destruct (truthyJ v && isObject v); [|assumption].
  destruct (probe v); [reflexivity|assumption].
Qed.

Lemma firstMatch_leaf v :
  truthyJ v && isObject v = false -> firstMatch probe (popOrder v) = None.
Proof.
  intros H. destruct v; simpl in *; try reflexivity; try discriminate.
  - destruct b; reflexivity.
  - destruct (negb (Qeq_bool n 0)); reflexivity.
  - destruct (truthy s); simpl; rewrite ?andb_false_r; reflexivity.
Qed.

(** With fuel for one iteration per value on the stack and one more, the
    traversal ends, on the first match in pop order. *)
Lemma walk_firstMatch fuel stack :
  stackNodes stack < fuel ->
  walk probe fuel stack
  = Some (firstMatch probe (concat (map popOrder stack))).
Proof.
  revert stack. induction fuel as [|fuel IH]; intros stack Hfuel; [lia|].
  destruct stack as [|node rest]; [reflexivity|].
  cbn [walk map concat]. rewrite firstMatch_app.
  change (stackNodes (node :: rest)) with (nodes node + stackNodes rest)
    in Hfuel.
  pose proof (nodes_children node) as Hn.
  destruct (truthyJ node) eqn:Ht; cbn [negb].
  - destruct (isObject node) eqn:Ho.
    + rewrite popOrder_children. cbn [firstMatch]. rewrite Ht, Ho. cbn [andb].
      destruct (probe node) as [url|]; [reflexivity|].
      rewrite IH.
      * rewrite map_app, concat_app, firstMatch_app. reflexivity.
      * rewrite stackNodes_app, stackNodes_rev. lia.
    + rewrite firstMatch_leaf by (rewrite Ho; apply andb_false_r).
      apply IH. lia.
  - rewrite firstMatch_leaf by (rewrite Ht; reflexivity).
    apply IH. lia.
Qed.

Lemma attemptA_firstMatch data :
  attemptA probe data =
  match getField (u "assets") data with
  | Some assets =>
      if truthyJ assets then firstMatch probe (popOrder assets) else None
  | None => None
  end.
Proof.
  unfold attemptA. destruct (getField (u "assets") data) as [assets|];
    [|reflexivity].
  destruct (truthyJ assets); [|reflexivity].
  rewrite walk_firstMatch.
  - cbn [map concat]. rewrite app_nil_r. reflexivity.
  - unfold stackNodes. simpl. lia.
Qed.

End AttemptA.

(** C5, as stated: in the first revision a node that carries both fields
    yields its [icon_url], not its [icon_url_large]. *)
Lemma attemptA_large_first_counterexample :
  let node := JObj [(u "icon_url", JStr (u "small"));
                    (u "icon_url_large", JStr (u "large"))] in
  let data := JObj [(u "assets", JObj [(u "730", node)])] in
  attemptA Basic.probe data = Some (u "small")
  /\ attemptA Basic.probe data <> Some (u "large").
Proof. split; [reflexivity|]. vm_compute. discriminate. Qed.

(** C5, amended. In all three revisions attempt A pops the values of
    [assets] from a stack, last pushed first, and stops at the first
    object or array on which the node test succeeds.  In [server.js] and
    in the persistent revision the node test looks at [icon_url_large]
    first: a node whose [icon_url_large] is a non-empty string (any
    string, in the persistent revision) yields it whatever its
    [icon_url], and [icon_url] is the fallback.  In the first revision the
    order is the reverse: a node whose [icon_url] is a non-empty string
    yields it whatever its [icon_url_large]. *)
Theorem attemptA_first_match_in_pop_order :
  (forall probe data,
      attemptA probe data =
      match getField (u "assets") data with
      | Some assets =>
          if truthyJ assets then firstMatch probe (popOrder assets) else None
      | None => None
      end)
  /\ (forall node large,
      getField (u "icon_url_large") node = Some (JStr large) ->
      (large <> [] -> Memory.probe node = Some large)
      /\ Persistent.probe node = Some large)
  /\ (forall node small,
      nonEmptyString (u "icon_url_large") node = None ->
      getField (u "icon_url") node = Some (JStr small) -> small <> [] ->
      Memory.probe node = Some small)
  /\ (forall node small,
      anyString (u "icon_url_large") node = None ->
      getField (u "icon_url") node = Some (JStr small) ->
      Persistent.probe node = Some small)
  /\ (forall node small,
      getField (u "icon_url") node = Some (JStr small) -> small <> [] ->
      Basic.probe node = Some small).
Proof.
  split; [exact attemptA_firstMatch|].
  split; [|split; [|split]].
  - intros node large H. split.
    + intros Hne. unfold Memory.probe, nonEmptyString. rewrite H.
      destruct large; [congruence|reflexivity].
    + unfold Persistent.probe, anyString. rewrite H. reflexivity.
  - intros node small Hl H Hne. unfold Memory.probe. rewrite Hl.
    unfold nonEmptyString. rewrite H. destruct small; [congruence|reflexivity].
  - intros node small Hl H. unfold Persistent.probe. rewrite Hl.
    unfold anyString. rewrite H. reflexivity.
  - intros node small H Hne. unfold Basic.probe, nonEmptyString. rewrite H.
    destruct small; [congruence|reflexivity].
Qed.

Lemma attemptA_first_match_in_pop_order_witness :
  let node := JObj [(u "icon_url", JStr (u "small"));
                    (u "icon_url_large", JStr (u "large"))] in
  Memory.probe node = Some (u "large")
  /\ Persistent.probe node = Some (u "large")
  /\ Basic.probe node = Some (u "small").
Proof.
  intros node.
  destruct attemptA_first_match_in_pop_order as (_ & Hlarge & _ & _ & Hsmall).
  destruct (Hlarge node (u "large") eq_refl) as [Hm Hp].
  split; [apply Hm; discriminate|].
  split; [exact Hp|].
  apply Hsmall; [reflexivity|discriminate].
Defined.

(** ** Upsert of the sheet rows *)

Section Upsert.

Import Persistent.

Lemma applyUpsert_existing (upd : sheetSet) (db : gmap (list N) Item) (d : Item) :
  db !! set_marketName upd = Some d ->
  exists d', applyUpsert upd db !! set_marketName upd = Some d'
    /\ enrichment d' = enrichment d
    /\ sheetFields d' =
       (set_marketName upd, set_name upd, set_wear upd, set_sheetPrice upd,
        set_floatValue upd, set_paintSeed upd, set_sheetTimestamp upd,
        set_row upd, set_lastSeenAt upd).
Proof.
  intros H. unfold applyUpsert. rewrite H. eexists.
  rewrite lookup_insert_eq. split; [reflexivity|]. split; reflexivity.
Qed.

Lemma applyUpsert_new (upd : sheetSet) (db : gmap (list N) Item) :
  db !! set_marketName upd = None ->
  exists d', applyUpsert upd db !! set_marketName upd = Some d'
    /\ enrichment d' = (None, None, None, None, None, None, None, None).
Proof.
  intros H. unfold applyUpsert. rewrite H. eexists.
  rewrite lookup_insert_eq. split; reflexivity.
Qed.

Lemma applyUpsert_other (upd : sheetSet) (db : gmap (list N) Item) (key : str) :
  key <> set_marketName upd -> applyUpsert upd db !! key = db !! key.
Proof.
  intros H. unfold applyUpsert.
  destruct (db !! set_marketName upd); rewrite lookup_insert_ne; congruence.
Qed.

Lemma bulkWrite_keeps_enrichment (order : list sheetSet) (db : gmap (list N) Item) (key : str) (d : Item) :
  db !! key = Some d ->
  exists d', bulkWrite order db !! key = Some d'
    /\ enrichment d' = enrichment d.
Proof.
  unfold bulkWrite. revert db d.
  induction order as [|upd order IH]; intros db d H; simpl.
  - eauto.
  - destruct (decide (key = set_marketName upd)) as [->|Hne].
    + destruct (applyUpsert_existing upd db d H) as (d1 & H1 & He & _).
      destruct (IH _ _ H1) as (d' & H' & He'). exists d'. split; [assumption|].
      congruence.
    + apply IH. rewrite applyUpsert_other; assumption.
Qed.

End Upsert.

(** C9. When the key of an upsert exists in the store, the update writes
    the sheet fields and [lastSeenAt] and leaves the eight enrichment
    fields as they were; they are set to [null] when the record is
    inserted.  Hence every record present before [upsertFromSheet], or
    before any sequence of its operations applied in any order, keeps its
    enrichment fields. *)
Theorem upsertFromSheet_keeps_enrichment :
  (forall (upd : Persistent.sheetSet) (db : gmap (list N) Persistent.Item) d,
      db !! Persistent.set_marketName upd = Some d ->
      exists d',
        Persistent.applyUpsert upd db !! Persistent.set_marketName upd = Some d'
        /\ Persistent.enrichment d' = Persistent.enrichment d
        /\ Persistent.sheetFields d' =
           (Persistent.set_marketName upd, Persistent.set_name upd,
            Persistent.set_wear upd, Persistent.set_sheetPrice upd,
            Persistent.set_floatValue upd, Persistent.set_paintSeed upd,
            Persistent.set_sheetTimestamp upd, Persistent.set_row upd,
            Persistent.set_lastSeenAt upd))
  /\ (forall (upd : Persistent.sheetSet) (db : gmap (list N) Persistent.Item),
      db !! Persistent.set_marketName upd = None ->
      exists d',
        Persistent.applyUpsert upd db !! Persistent.set_marketName upd = Some d'
        /\ Persistent.enrichment d'
           = (None, None, None, None, None, None, None, None))
  /\ (forall order (db : gmap (list N) Persistent.Item) key d,
      db !! key = Some d ->
      exists d', Persistent.bulkWrite order db !! key = Some d'
        /\ Persistent.enrichment d' = Persistent.enrichment d)
  /\ (forall clock rows (db : gmap (list N) Persistent.Item) key d,
      db !! key = Some d ->
      exists d',
        snd (Persistent.upsertFromSheet clock rows db) !! key = Some d'
        /\ Persistent.enrichment d' = Persistent.enrichment d).
Proof.
  split; [exact applyUpsert_existing|].
  split; [exact applyUpsert_new|].
  split; [exact bulkWrite_keeps_enrichment|].
  intros clock rows db key d H. unfold Persistent.upsertFromSheet.
  destruct rows as [|header body]; simpl; [eauto|].
  apply bulkWrite_keeps_enrichment. assumption.
Qed.

Lemma upsertFromSheet_keeps_enrichment_witness :
  let key := u "AK-47 | Redline (Field-Tested)" in
  let old :=
    Persistent.MkItem key (u "AK-47 | Redline") (Some (u "Field-Tested"))
      (Some 9%Q) None None None [] 100
      (Some (u "https://x/economy/image/abc/360fx360f")) (Some 11%Q) None None
      (Some 50%Z) (Some 60%Z) None (Some (u "Error: down")) in
  let rows :=
    [ [u "ItemName"; u "Condition"; u "Float"; u "Paint Seed"; u "Price"];
      [u "AK-47 | Redline"; u "Field-Tested"; u "0.21"; u "123"; u "10.50"] ] in
  exists d',
    snd (Persistent.upsertFromSheet (fun _ => 200%Z) rows {[ key := old ]})
      !! key = Some d'
    /\ Persistent.enrichment d' = Persistent.enrichment old.
Proof.
  intros key old rows.
  destruct upsertFromSheet_keeps_enrichment as (_ & _ & _ & H).
  apply H. apply lookup_singleton_eq.
Defined.

(** ** Background refresh *)

Section RefreshFailure.

Import Persistent.






Section Kept.

Context {X : Type} (f : Item -> X).






End Kept.





End RefreshFailure.



(** ** In-flight guard *)

Section InFlight.

Import Persistent.

(** The effect of one segment on the bookkeeping, whatever the segment. *)
Lemma guarded_update (s s' : sys) (i : nat) (t t' : task) :
  guarded s ->
  tasks s !! i = Some t ->
  tasks s' = <[i := t']> (tasks s) ->
  target t' = target t ->
  (forall j a, (j, a) ∈ log s' -> (j, a) ∈ log s \/ (j = i /\ passed t' = true)) ->
  (passed t = true -> passed t' = true) ->
  (forall k, k <> target t -> k ∈ inFlight s' <-> k ∈ inFlight s) ->
  (active t' = true -> target t ∈ inFlight s') ->
  (active t' = true -> active t = false -> target t ∉ inFlight s) ->
  (active t' = false -> active t = false -> inFlight s' = inFlight s) ->
  guarded s'.
Proof.
  intros [Hin Hone Hlog] Hi Htasks Htarget Clog Cpassed Cother Cactive Cnew Csame.
  pose proof (lookup_lt_Some _ _ _ Hi) as Hlt.
  assert (Hlook : forall j tj, tasks s' !! j = Some tj ->
            (j = i /\ tj = t') \/ (j <> i /\ tasks s !! j = Some tj)).
  { intros j tj. rewrite Htasks. destruct (decide (j = i)) as [->|Hne].
    - rewrite list_lookup_insert_eq by assumption. intros [= <-]. auto.
    - rewrite list_lookup_insert_ne by congruence. auto. }
  split.
  - intros j tj Hj Hact.
    destruct (Hlook _ _ Hj) as [[-> ->]|[Hne Hj']].
    + rewrite Htarget. auto.
    + pose proof (Hin _ _ Hj' Hact) as Hold.
      destruct (decide (target tj = target t)) as [Heq|Hdiff].
      * rewrite Heq. destruct (active t') eqn:Ht'; [auto|].
        destruct (active t) eqn:Ht.
        -- exfalso. apply Hne. symmetry. eapply Hone; eauto.
        -- rewrite Csame by reflexivity. rewrite <- Heq. assumption.
      * apply Cother; assumption.
  - intros j1 j2 t1 t2 H1 H2 Ha1 Ha2 Heq.
    destruct (Hlook _ _ H1) as [[-> ->]|[Hne1 H1']];
      destruct (Hlook _ _ H2) as [[-> ->]|[Hne2 H2']]; try reflexivity.
    + exfalso. rewrite Htarget in Heq. destruct (active t) eqn:Ht.
      * apply Hne2. symmetry. eapply Hone; eauto.
      * apply (Cnew Ha1 eq_refl). rewrite Heq. eauto.
    + exfalso. rewrite Htarget in Heq. destruct (active t) eqn:Ht.
      * apply Hne1. symmetry. eapply Hone; eauto.
      * apply (Cnew Ha2 eq_refl). rewrite <- Heq. eauto.
    + eapply Hone; eauto.
  - intros j a Hja. rewrite Htasks.
    destruct (Clog _ _ Hja) as [Hold|[-> Hp]].
    + destruct (Hlog _ _ Hold) as (tj & Hj & Hp).
      destruct (decide (j = i)) as [->|Hne].
      * exists t'. rewrite list_lookup_insert_eq by assumption.
        split; [reflexivity|]. apply Cpassed. congruence.
      * exists tj. rewrite list_lookup_insert_ne by congruence. auto.
    + exists t'. rewrite list_lookup_insert_eq by assumption. auto.
Qed.

(** Discharges the bookkeeping conditions of [guarded_update] for one
    segment; [Hheld] says that a holder's identifier is in the set and
    [Hfree] that the identifier was not in the set at the guard. *)
Ltac bookkeeping Hheld Hfree :=
  simpl;
  first
    [ reflexivity
    | discriminate
    | tauto
    | intros ? ? Hja;
      rewrite ?elem_of_app, ?list_elem_of_singleton in Hja;
      intuition (simplify_eq; auto)
    | intros ? ?;
      rewrite ?elem_of_union, ?elem_of_difference, ?elem_of_singleton; tauto
    | intros _; rewrite ?elem_of_union, ?elem_of_singleton;
      solve [auto | right; apply Hheld; reflexivity]
    | intros _ _; exact Hfree ].

Lemma step_guarded i e s s' : guarded s -> step i e s = Some s' -> guarded s'.
Proof.
  intros Hg. unfold step.
  destruct (tasks s !! i) as [t|] eqn:Hi; [|discriminate].
  pose proof (holders_in_flight _ Hg _ _ Hi) as Hheld.
  destruct t as [key rp ri p]. unfold active in Hheld. simpl in *.
  destruct p as [| |doc|doc w|doc|w|worked]; try discriminate.
  - destruct (bool_decide (key ∈ inFlight s)) eqn:Hk; intros [= <-].
    + eapply (guarded_update s _ i _ _ Hg Hi); bookkeeping Hheld I.
    + apply bool_decide_eq_false in Hk.
      eapply (guarded_update s _ i _ _ Hg Hi); bookkeeping Hheld Hk.
  - destruct (db s !! key) as [doc|].
    + destruct (ri && _).
      * destruct (wellFormed key); intros [= <-];
          eapply (guarded_update s _ i _ _ Hg Hi); bookkeeping Hheld I.
      * unfold priceStage. simpl. destruct (rp && _); intros [= <-];
          eapply (guarded_update s _ i _ _ Hg Hi); bookkeeping Hheld I.
    + intros [= <-].
      eapply (guarded_update s _ i _ _ Hg Hi); bookkeeping Hheld I.
  - intros [= <-].
    eapply (guarded_update s _ i _ _ Hg Hi); bookkeeping Hheld I.
  - unfold priceStage. simpl. destruct (rp && _); intros [= <-];
      eapply (guarded_update s _ i _ _ Hg Hi); bookkeeping Hheld I.
  - intros [= <-].
    eapply (guarded_update s _ i _ _ Hg Hi); bookkeeping Hheld I.
  - intros [= <-].
    eapply (guarded_update s _ i _ _ Hg Hi); bookkeeping Hheld I.
Qed.

Lemma run_guarded sched s s' : guarded s -> run sched s = Some s' -> guarded s'.
Proof.
  revert s. induction sched as [|[i e] sched IH]; intros s Hg; simpl.
  - intros [= <-]. assumption.
  - destruct (step i e s) as [s1|] eqn:Hs; [|discriminate].
    apply IH. eapply step_guarded; eassumption.
Qed.

(** Before any call has run nothing is held and nothing is logged. *)
Lemma initial_guarded (db0 : gmap (list N) Item) (calls : list task) :
  Forall (fun t => at_ t = Called) calls -> guarded (Sys db0 ∅ calls []).
Proof.
  intros Hall. rewrite Forall_lookup in Hall. split; simpl.
  - intros i t Hi. apply Hall in Hi. unfold active. rewrite Hi. discriminate.
  - intros i j ti tj Hi _. apply Hall in Hi. unfold active. rewrite Hi.
    discriminate.
  - intros i a H. apply elem_of_nil in H. destruct H.
Qed.

(** A call that finds its identifier in the set returns at once and
    changes nothing but its own state. *)
Lemma step_skips i e s t :
  tasks s !! i = Some t -> at_ t = Called -> target t ∈ inFlight s ->
  step i e s
  = Some (Sys (db s) (inFlight s)
              (<[i := Task (target t) (refreshPrice t) (refreshImage t)
                        (Finished false)]> (tasks s))
              (log s)).
Proof.
  intros Hi Hat Hin. unfold step. rewrite Hi, Hat.
  rewrite bool_decide_eq_true_2 by assumption. reflexivity.
Qed.

End InFlight.

(** C2. In every state reached from one in which no call of [refreshOne]
    has run yet, at most one call per identifier is past the guard and not
    yet returned.  A call that starts while another call for the same
    identifier is in flight returns at once: it leaves the store, the set
    and the log of requests and writes as they are, and no request or
    write is ever made by a call that returned at the guard. *)
Theorem refreshOne_in_flight_guard
    (db0 : gmap (list N) Persistent.Item) (calls : list Persistent.task)
    (sched : list (nat * Persistent.env)) (s : Persistent.sys) :
  Forall (fun t => Persistent.at_ t = Persistent.Called) calls ->
  Persistent.run sched (Persistent.Sys db0 ∅ calls []) = Some s ->
  (forall i j ti tj,
      Persistent.tasks s !! i = Some ti -> Persistent.tasks s !! j = Some tj ->
      Persistent.active ti = true -> Persistent.active tj = true ->
      Persistent.target ti = Persistent.target tj -> i = j)
  /\ (forall i j ti tj e,
      Persistent.tasks s !! i = Some ti ->
      Persistent.at_ ti = Persistent.Called ->
      Persistent.tasks s !! j = Some tj -> Persistent.active tj = true ->
      Persistent.target tj = Persistent.target ti ->
      exists s',
        Persistent.step i e s = Some s'
        /\ Persistent.db s' = Persistent.db s
        /\ Persistent.inFlight s' = Persistent.inFlight s
        /\ Persistent.log s' = Persistent.log s
        /\ Persistent.at_ <$> Persistent.tasks s' !! i
           = Some (Persistent.Finished false))
  /\ (forall i a t,
      (i, a) ∈ Persistent.log s -> Persistent.tasks s !! i = Some t ->
      Persistent.at_ t <> Persistent.Called
      /\ Persistent.at_ t <> Persistent.Finished false).
Proof.
  intros Hall Hrun.
  pose proof (run_guarded _ _ _ (initial_guarded db0 calls Hall) Hrun) as Hg.
  split; [exact (Persistent.one_holder _ Hg)|]. split.
  - intros i j ti tj e Hi Hat Hj Hact Heq.
    pose proof (Persistent.holders_in_flight _ Hg _ _ Hj Hact) as Hin.
    rewrite Heq in Hin. eexists. split; [apply step_skips; eassumption|].
    simpl. repeat split.
    rewrite list_lookup_insert_eq by (eapply lookup_lt_Some; eassumption).
    reflexivity.
  - intros i a t Hia Hi.
    destruct (Persistent.actions_by_holders _ Hg _ _ Hia) as (t' & Hi' & Hp).
    assert (t' = t) as -> by congruence.
    unfold Persistent.passed in Hp.
    split; intros E; rewrite E in Hp; discriminate.
Qed.

Lemma refreshOne_in_flight_guard_witness :
  let key := u "AK-47 | Redline (Field-Tested)" in
  let d :=
    Persistent.MkItem key (u "AK-47 | Redline") (Some (u "Field-Tested"))
      (Some 9%Q) None None None [] 100
      None None None None None None None None in
  let e :=
    Persistent.Env 1000 (Body (JObj [(u "success", JBool true)]))
      Persistent.fetchSteamPrice in
  let calls := [Persistent.Task key true true Persistent.Called;
                Persistent.Task key true true Persistent.Called] in
  (* the second trigger arrives while the first is waiting for the search *)
  exists s s',
    Persistent.run [(0, e); (0, e)]%nat (Persistent.Sys {[ key := d ]} ∅ calls [])
      = Some s
    /\ Persistent.step 1 e s = Some s'
    /\ Persistent.log s = [(0%nat, Persistent.Search key)]
    /\ Persistent.log s' = Persistent.log s
    /\ Persistent.db s' = Persistent.db s
    /\ Persistent.at_ <$> Persistent.tasks s' !! 1%nat
       = Some (Persistent.Finished false).
Proof.
  intros key d e calls.
  destruct (Persistent.run [(0, e); (0, e)]%nat
              (Persistent.Sys {[ key := d ]} ∅ calls [])) as [s|] eqn:Hrun;
    [|vm_compute in Hrun; discriminate].
  assert (Hcalls : Forall (fun t => Persistent.at_ t = Persistent.Called) calls)
    by (repeat constructor).
  destruct (refreshOne_in_flight_guard _ _ _ _ Hcalls Hrun) as (_ & Hskip & _).
  assert (Hs : Persistent.tasks s
               = [Persistent.Task key true true (Persistent.AwaitImage d);
                  Persistent.Task key true true Persistent.Called]
               /\ Persistent.log s = [(0%nat, Persistent.Search key)]).
  { vm_compute in Hrun. injection Hrun as <-. split; reflexivity. }
  destruct Hs as [Htasks Hlog].
  destruct (Hskip 1%nat 0%nat
              (Persistent.Task key true true Persistent.Called)
              (Persistent.Task key true true (Persistent.AwaitImage d)) e)
    as (s' & Hstep & Hdb & _ & Hlog' & Hat);
    try (rewrite Htasks; reflexivity); try reflexivity.
  exists s, s'. repeat split; assumption.
Defined.

(** * Further properties *)

(** ** The caches of [server.js] *)

Section Caches.

Lemma gtb_false_le (a b : Z) : (a <= b)%Z -> (a >? b)%Z = false.
Proof.
  intros H. destruct (a >? b)%Z eqn:E; [|reflexivity].
  apply Z.gtb_lt in E. lia.
Qed.

Lemma gtb_true_gt (a b : Z) : (a > b)%Z -> (a >? b)%Z = true.
Proof.
  intros H. destruct (a >? b)%Z eqn:E; [reflexivity|].
  rewrite Z.gtb_ltb in E. apply Z.ltb_ge in E. lia.
Qed.

Lemma fetchSteamImage_miss_inv key t0 t1 r s url s1 :
  Memory.fetchSteamImage key t0 t1 r s = (Ret (Some url), s1) ->
  Memory.searches s1 = Memory.searches s ++ [key] ->
  Memory.imageCache s1 !! key = Some (Memory.Entry (Some url) t1).
Proof.
  unfold Memory.fetchSteamImage.
  destruct (Memory.cacheGet t0 key s) as [cached s0] eqn:Hget.
  assert (Hs0 : Memory.searches s0 = Memory.searches s).
  { unfold Memory.cacheGet in Hget.
    destruct (Memory.imageCache s !! key) as [v|]; [|congruence].
    destruct (_ >? _)%Z; injection Hget as <- <-; reflexivity. }
  destruct cached as [c|].
  - intros [= <- <-] Hlog. rewrite Hs0 in Hlog.
    apply (f_equal length) in Hlog. rewrite length_app in Hlog.
    simpl in Hlog. lia.
  - destruct (negb (wellFormed key)); [discriminate|].
    destruct r as [status statusText|why|body]; try discriminate.
    destruct (resolveImage _ _ _ body) as [found|]; [|discriminate].
    intros [= -> <-] _. simpl. apply lookup_insert_eq.
Qed.

End Caches.

(** X1. A value stored by [cacheSet], a url or [null], is what [cacheGet]
    returns for the key until the entry expires, and reading leaves the
    cache as it is; in [server.js] and in the first revision. *)
Theorem cacheGet_after_cacheSet (key : str) (v : option str) (t now : Z) :
  (forall s : Memory.state,
      (now - t <= Memory.CACHE_TTL_MS)%Z ->
      Memory.cacheGet now key (Memory.cacheSet t key v s)
      = (v, Memory.cacheSet t key v s))
  /\ (forall s : Basic.state,
      (now - t <= Basic.CACHE_TTL_MS)%Z ->
      Basic.cacheGet now key (Basic.cacheSet t key v s)
      = (v, Basic.cacheSet t key v s)).
Proof.
  split; intros s Hfresh.
  - unfold Memory.cacheGet, Memory.cacheSet. simpl.
    rewrite lookup_insert_eq. simpl. rewrite gtb_false_le by assumption.
    reflexivity.
  - unfold Basic.cacheGet, Basic.cacheSet. simpl.
    rewrite lookup_insert_eq. simpl. rewrite gtb_false_le by assumption.
    reflexivity.
Qed.

Lemma cacheGet_after_cacheSet_witness :
  let key := u "Glock-18 | Fade (Factory New)" in
  let s := Memory.cacheSet 1000 key None (Memory.State ∅ []) in
  Memory.cacheGet (1000 + 60 * 60 * 1000) key s = (None, s).
Proof.
  intros key s.
  destruct (cacheGet_after_cacheSet key None 1000 (1000 + 60 * 60 * 1000))
    as [H _].
  apply H. vm_compute. discriminate.
Defined.

(** X2. Reading an expired entry evicts it: [cacheGet] answers [null] and
    deletes the key, the other keys are untouched, and no later read of
    the key, at whatever time, brings the value back. *)
Theorem cacheGet_expired_evicts
    (s : Memory.state) (key : str) (v : Memory.entry) (now : Z) :
  Memory.imageCache s !! key = Some v ->
  (now - Memory.ts v > Memory.CACHE_TTL_MS)%Z ->
  exists s1,
    Memory.cacheGet now key s = (None, s1)
    /\ Memory.imageCache s1 !! key = None
    /\ (forall other, other <> key ->
        Memory.imageCache s1 !! other = Memory.imageCache s !! other)
    /\ (forall later, Memory.cacheGet later key s1 = (None, s1)).
Proof.
  intros Hv Hold. unfold Memory.cacheGet at 1. rewrite Hv.
  rewrite gtb_true_gt by assumption. eexists. split; [reflexivity|].
  simpl. split; [apply lookup_delete_eq|]. split.
  - intros other Hne. apply lookup_delete_ne. congruence.
  - intros later. unfold Memory.cacheGet. simpl.
    rewrite lookup_delete_eq. reflexivity.
Qed.

Lemma cacheGet_expired_evicts_witness :
  let key := u "Glock-18 | Fade (Factory New)" in
  let s := Memory.cacheSet 0 key (Some (u "https://x/a")) (Memory.State ∅ []) in
  exists s1,
    Memory.cacheGet (25 * 60 * 60 * 1000) key s = (None, s1)
    /\ Memory.cacheGet 0 key s1 = (None, s1).
Proof.
  intros key s.
  destruct (cacheGet_expired_evicts s key (Memory.Entry (Some (u "https://x/a")) 0)
              (25 * 60 * 60 * 1000)) as (s1 & Hget & _ & _ & Hlater).
  - apply lookup_insert_eq.
  - vm_compute. reflexivity.
  - exists s1. split; [exact Hget | apply Hlater].
Defined.

(** X3. When [fetchSteamImage] of [server.js] resolves a url by asking the
    search endpoint, the url is cached: every call for the same identifier
    made while the entry has not expired returns the same url and sends no
    request, whatever the endpoint would answer. *)
Theorem fetchSteamImage_serves_resolved_url_from_cache
    (key : str) (t0 t1 : Z) (r : reply) (s s1 : Memory.state) (url : str)
    (t0' t1' : Z) (r' : reply) :
  Memory.fetchSteamImage key t0 t1 r s = (Ret (Some url), s1) ->
  Memory.searches s1 = Memory.searches s ++ [key] ->
  (t0' - t1 <= Memory.CACHE_TTL_MS)%Z ->
  Memory.fetchSteamImage key t0' t1' r' s1 = (Ret (Some url), s1).
Proof.
  intros Hfirst Hlog Hfresh.
  pose proof (fetchSteamImage_miss_inv _ _ _ _ _ _ _ Hfirst Hlog) as Hentry.
  unfold Memory.fetchSteamImage, Memory.cacheGet. rewrite Hentry. simpl.
  rewrite gtb_false_le by assumption. reflexivity.
Qed.

Lemma fetchSteamImage_serves_resolved_url_from_cache_witness :
  let key := u "AK-47 | Redline (Field-Tested)" in
  let found :=
    Body (JObj [(u "assets",
                 JObj [(u "730", JObj [(u "icon_url", JStr (u "abc/62fx62f"))])])]) in
  let url :=
    u "https://community.cloudflare.steamstatic.com/economy/image/abc/360fx360f" in
  let s0 := Memory.State ∅ [] in
  let s1 := snd (Memory.fetchSteamImage key 0 250 found s0) in
  Memory.fetchSteamImage key 5000 5250 (HttpError (u "429") (u "Too Many Requests")) s1
  = (Ret (Some url), s1).
Proof.
  intros key found url s0 s1.
  apply (fetchSteamImage_serves_resolved_url_from_cache key 0 250 found s0).
  - reflexivity.
  - reflexivity.
  - vm_compute. discriminate.
Defined.

(** X4. A lookup that fails stores nothing: every entry of the image
    cache afterwards was there before.  When the identifier cannot be
    encoded (it holds a lone surrogate) the failure is the [URIError] of
    [encodeURIComponent] and no request was sent; otherwise (error
    status, unreadable body, a [results_html] that is not a string)
    exactly one search request was sent. *)
Theorem fetchSteamImage_failure_caches_nothing
    (key : str) (t0 t1 : Z) (r : reply) (s s1 : Memory.state) (e : error) :
  Memory.fetchSteamImage key t0 t1 r s = (Throw e, s1) ->
  Memory.searches s1
  = Memory.searches s ++ (if wellFormed key then [key] else [])
  /\ (wellFormed key = false -> e = URI_MALFORMED)
  /\ (forall k v, Memory.imageCache s1 !! k = Some v ->
                  Memory.imageCache s !! k = Some v).
Proof.
  unfold Memory.fetchSteamImage.
  destruct (Memory.cacheGet t0 key s) as [cached s0] eqn:Hget.
  assert (Hs0 : Memory.searches s0 = Memory.searches s
                /\ forall k v, Memory.imageCache s0 !! k = Some v ->
                               Memory.imageCache s !! k = Some v).
  { unfold Memory.cacheGet in Hget.
    destruct (Memory.imageCache s !! key) as [v0|]; [|injection Hget as <- <-; auto].
    destruct (_ >? _)%Z; injection Hget as <- <-; simpl; [|auto].
    split; [reflexivity|]. intros k v Hk.
    apply lookup_delete_Some in Hk as [_ Hk]. exact Hk. }
  destruct Hs0 as [Hlog Hsub].
  destruct cached as [c|]; [discriminate|].
  destruct (wellFormed key); simpl negb; cbv iota.
  - destruct r as [status statusText|why|body].
    + intros [= <- <-]. simpl. rewrite Hlog. split; [reflexivity|].
      split; [discriminate|exact Hsub].
    + intros [= <- <-]. simpl. rewrite Hlog. split; [reflexivity|].
      split; [discriminate|exact Hsub].
    + destruct (resolveImage _ _ _ body) as [found|e']; [discriminate|].
      intros [= <- <-]. simpl. rewrite Hlog. split; [reflexivity|].
      split; [discriminate|exact Hsub].
  - intros [= <- <-]. rewrite Hlog, app_nil_r. split; [reflexivity|].
    split; [reflexivity|exact Hsub].
Qed.

Lemma fetchSteamImage_failure_caches_nothing_witness :
  let key := u "AK-47 | Redline (Field-Tested)" in
  let s := Memory.State ∅ [] in
  let s1 := snd (Memory.fetchSteamImage key 0 250
                   (Body (JObj [(u "results_html", JNum 5)])) s) in
  Memory.searches s1 = [key]
  /\ (forall k v, Memory.imageCache s1 !! k = Some v ->
                  Memory.imageCache s !! k = Some v).
Proof.
  intros key s s1.
  destruct (fetchSteamImage_failure_caches_nothing key 0 250
              (Body (JObj [(u "results_html", JNum 5)])) s s1
              (Err (u "TypeError") (u "html.match is not a function")))
    as (Hreq & _ & Hsub); [reflexivity|].
  split; [exact Hreq|exact Hsub].
Defined.

(** X5. The price lookup of [server.js] caches the body of a successful
    reply for 30 minutes when the body is truthy: later calls within that
    time return it without a request.  A falsy body ([null], [false], [0],
    the empty string) is stored too but never served: the next call sends
    a request again.  This is for an identifier that can be encoded; for
    one that cannot, the call fails with the [URIError] of
    [encodeURIComponent], sends no request and stores nothing. *)
Theorem fetchSteamPrice_cache
    (key : str) (t0 t1 : Z) (j : json) (s : Memory.priceState)
    (t0' t1' : Z) (r' : reply) :
  Memory.priceCache s !! key = None ->
  (t0' - t1 <= Memory.PRICE_TTL_MS)%Z ->
  let s1 := snd (Memory.fetchSteamPrice key t0 t1 (Body j) s) in
  (wellFormed key = true ->
   Memory.fetchSteamPrice key t0 t1 (Body j) s
     = (Ret j, Memory.priceCacheSet t1 key j
                 (Memory.PriceState (Memory.priceCache s)
                    (Memory.lookups s ++ [key])))
   /\ (truthyJ j = true ->
       Memory.fetchSteamPrice key t0' t1' r' s1 = (Ret j, s1))
   /\ (truthyJ j = false ->
       Memory.lookups (snd (Memory.fetchSteamPrice key t0' t1' r' s1))
       = Memory.lookups s ++ [key; key]))
  /\ (wellFormed key = false ->
      Memory.fetchSteamPrice key t0 t1 (Body j) s = (Throw URI_MALFORMED, s)).
Proof.
  intros Hnone Hfresh s1. split; intros Hwf.
  - assert (Hfirst : Memory.fetchSteamPrice key t0 t1 (Body j) s
                     = (Ret j, Memory.priceCacheSet t1 key j
                                 (Memory.PriceState (Memory.priceCache s)
                                    (Memory.lookups s ++ [key])))).
    { unfold Memory.fetchSteamPrice, Memory.priceCacheGet. rewrite Hnone, Hwf.
      reflexivity. }
    split; [exact Hfirst|]. subst s1. rewrite Hfirst. simpl.
    split; intros Hj.
    + unfold Memory.fetchSteamPrice, Memory.priceCacheGet, Memory.priceCacheSet.
      simpl. rewrite lookup_insert_eq. simpl.
      rewrite gtb_false_le by assumption. rewrite Hj. reflexivity.
    + unfold Memory.fetchSteamPrice, Memory.priceCacheGet, Memory.priceCacheSet.
      simpl. rewrite lookup_insert_eq. simpl.
      rewrite gtb_false_le by assumption. rewrite Hj, Hwf. simpl negb. cbv iota.
      destruct r' as [status statusText|why|j']; simpl;
        rewrite <- app_assoc; reflexivity.
  - unfold Memory.fetchSteamPrice, Memory.priceCacheGet. rewrite Hnone, Hwf.
    destruct s. reflexivity.
Qed.

Lemma fetchSteamPrice_cache_witness :
  let key := u "AK-47 | Redline (Field-Tested)" in
  let j := JObj [(u "success", JBool true); (u "lowest_price", JStr (u "$12.50"))] in
  let s := Memory.PriceState ∅ [] in
  let s1 := snd (Memory.fetchSteamPrice key 0 100 (Body j) s) in
  Memory.fetchSteamPrice key 60000 60100 (BadBody (u "eof")) s1 = (Ret j, s1).
Proof.
  intros key j s s1.
  destruct (fetchSteamPrice_cache key 0 100 j s 60000 60100 (BadBody (u "eof")))
    as (Hsent & _).
  - reflexivity.
  - vm_compute. discriminate.
  - destruct Hsent as (_ & Hhit & _); [reflexivity|].
    apply Hhit. reflexivity.
Defined.

(** ** What the size upgrade rewrites *)

Section SizeUpgradeShape.

Lemma matchTok_whole_slashFree t : matchTok t = Some [] -> slashFree t.
Proof.
  intros H. apply matchTok_split in H as (t0 & Heq & Hfree & _).
  rewrite app_nil_r in Heq. subst t0. exact Hfree.
Qed.

Lemma slashFree_no_slash p t : ~ slashFree (p ++ SLASH :: t).
Proof.
  intros H. apply Forall_app in H as [_ H]. inversion H as [|? ? Hne _].
  now apply Hne.
Qed.

Lemma replaceAnchored_final p t :
  matchTok t = Some [] -> replaceAnchored (p ++ SLASH :: t) = p ++ BIG.
Proof.
  intros Ht. induction p as [|c p IH]; simpl.
  - rewrite Ht. reflexivity.
  - destruct (c =? SLASH) eqn:Hc; [|rewrite IH; reflexivity].
    destruct (matchTok (p ++ SLASH :: t)) as [[|x r]|] eqn:Hm;
      try (rewrite IH; reflexivity).
    exfalso. apply (slashFree_no_slash p t).
    apply matchTok_whole_slashFree. exact Hm.
Qed.

Lemma replaceAnchored_unchanged s :
  (forall p t, s = p ++ SLASH :: t -> matchTok t <> Some []) ->
  replaceAnchored s = s.
Proof.
  induction s as [|c s IH]; intros H; simpl; [reflexivity|].
  assert (IH' : replaceAnchored s = s).
  { apply IH. intros p t ->. apply (H (c :: p) t). reflexivity. }
  destruct (c =? SLASH) eqn:Hc; [|rewrite IH'; reflexivity].
  apply N.eqb_eq in Hc. subst c.
  destruct (matchTok s) as [[|x r]|] eqn:Hm; try (rewrite IH'; reflexivity).
  exfalso. apply (H [] s); [reflexivity|exact Hm].
Qed.

Lemma replaceAll_unchanged s :
  (forall p t, s = p ++ SLASH :: t -> matchTok t = None) ->
  replaceAll s = s.
Proof.
  induction s as [|c s IH]; intros H; [reflexivity|].
  assert (IH' : replaceAll s = s).
  { apply IH. intros p t ->. apply (H (c :: p) t). reflexivity. }
  rewrite replaceAll_cons.
  destruct (c =? SLASH) eqn:Hc; [|rewrite IH'; reflexivity].
  apply N.eqb_eq in Hc. subst c.
  rewrite (H [] s eq_refl), IH'. reflexivity.
Qed.

(** After the global replacement every size token is the large one. *)
Lemma replaceAll_tokens s p t r :
  replaceAll s = p ++ SLASH :: t -> matchTok t = Some r ->
  t = u "360fx360f" ++ r.
Proof.
  remember (length s) as n eqn:Hn. revert s Hn p.
  induction n as [n IH] using lt_wf_ind. intros s -> p Hs Ht.
  destruct s as [|c s]; [destruct p; discriminate|].
  rewrite replaceAll_cons in Hs.
  destruct (c =? SLASH) eqn:Hc.
  - destruct (matchTok s) as [r0|] eqn:Hm.
    + change BIG with (SLASH :: u "360fx360f") in Hs.
      destruct p as [|a p]; simpl in Hs.
      * injection Hs as <-.
        change (matchTok (u "360fx360f" ++ replaceAll r0) = Some r) in Ht.
        rewrite (matchTok_app (u "360fx360f") _ eq_refl) in Ht.
        injection Ht as <-. reflexivity.
      * injection Hs as <- Hs.
        do 9 (destruct p as [|? p]; [discriminate Hs|injection Hs as <- Hs]).
        apply (IH (length r0)) with (s := r0) (p := p);
          [|reflexivity|exact Hs|exact Ht].
        apply matchTok_shorter in Hm. simpl. lia.
    + destruct p as [|a p]; simpl in Hs.
      * injection Hs as _ <-.
        rewrite (matchTok_replaceAll _ Hm) in Ht. discriminate.
      * injection Hs as <- Hs.
        apply (IH (length s)) with (s := s) (p := p);
          [simpl; lia|reflexivity|exact Hs|exact Ht].
  - destruct p as [|a p]; simpl in Hs.
    + injection Hs as -> _. discriminate.
    + injection Hs as <- Hs.
      apply (IH (length s)) with (s := s) (p := p);
        [simpl; lia|reflexivity|exact Hs|exact Ht].
Qed.

Lemma startsWith_prefix p x :
  startsWith p x = true -> exists rest, x = p ++ rest.
Proof.
  revert x. induction p as [|a p IH]; intros x; [exists x; reflexivity|].
  destruct x as [|b x]; [discriminate|]. cbn [startsWith]. intros H.
  apply andb_prop in H as [Hab H]. apply N.eqb_eq in Hab. subst b.
  destruct (IH _ H) as [rest ->]. exists rest. reflexivity.
Qed.

Lemma startsWith_http x :
  startsWith (u "http") x = true -> exists rest, x = u "http" ++ rest.
Proof. apply startsWith_prefix. Qed.

Lemma replaceAnchored_http rest :
  replaceAnchored (u "http" ++ rest) = u "http" ++ replaceAnchored rest.
Proof. reflexivity. Qed.

Lemma replaceAll_http rest :
  replaceAll (u "http" ++ rest) = u "http" ++ replaceAll rest.
Proof.
  change (u "http" ++ rest) with (104 :: 116 :: 116 :: 112 :: rest).
  rewrite !replaceAll_cons. reflexivity.
Qed.

Lemma upgrade_anchored_keeps_http x :
  startsWith (u "http") x = true ->
  startsWith (u "http") (Memory.upgradeSteamImageSize x) = true.
Proof.
  intros H. destruct (startsWith_http _ H) as [rest ->].
  unfold Memory.upgradeSteamImageSize. simpl negb. cbv iota.
  rewrite replaceAnchored_http. reflexivity.
Qed.

Lemma upgrade_global_keeps_http x :
  startsWith (u "http") x = true ->
  startsWith (u "http") (Persistent.upgradeSteamImageSize x) = true.
Proof.
  intros H. destruct (startsWith_http _ H) as [rest ->].
  unfold Persistent.upgradeSteamImageSize. simpl negb. cbv iota.
  rewrite replaceAll_http. reflexivity.
Qed.

Lemma completed_is_absolute base i :
  startsWith (u "http") base = true ->
  startsWith (u "http") (if startsWith (u "http") i then i else base ++ i) = true.
Proof.
  intros Hb. destruct (startsWith (u "http") i) eqn:Hi; [exact Hi|].
  destruct (startsWith_http _ Hb) as [rest ->]. reflexivity.
Qed.

End SizeUpgradeShape.

(** X6. The anchored upgrade of [server.js] rewrites the size token that
    ends the url and nothing else: a url [p/<digits>fx<digits>f] becomes
    [p/360fx360f] whatever [p] holds, and a url that does not end with a
    size token is returned unchanged. *)
Theorem upgradeSteamImageSize_anchored_shape :
  (forall p t,
      matchTok t = Some [] ->
      Memory.upgradeSteamImageSize (p ++ SLASH :: t) = p ++ BIG)
  /\ (forall url,
      (forall p t, url = p ++ SLASH :: t -> matchTok t <> Some []) ->
      Memory.upgradeSteamImageSize url = url).
Proof.
  split.
  - intros p t Ht. unfold Memory.upgradeSteamImageSize.
    assert (Hne : truthy (p ++ SLASH :: t) = true) by (destruct p; reflexivity).
    rewrite Hne. apply replaceAnchored_final. exact Ht.
  - intros url H. unfold Memory.upgradeSteamImageSize.
    destruct url; [reflexivity|]. simpl negb. cbv iota.
    apply replaceAnchored_unchanged. exact H.
Qed.

Lemma upgradeSteamImageSize_anchored_shape_witness :
  Memory.upgradeSteamImageSize (u "https://x/100fx100f/economy/image/abc/62fx62f")
  = u "https://x/100fx100f/economy/image/abc/360fx360f".
Proof.
  destruct upgradeSteamImageSize_anchored_shape as [H _].
  apply (H (u "https://x/100fx100f/economy/image/abc") (u "62fx62f")).
  reflexivity.
Defined.

(** X7. The global upgrade of the persistent revision leaves a url
    without a size token unchanged, and in its result every size token,
    wherever it stands, is [360fx360f]. *)
Theorem upgradeSteamImageSize_global_shape (url : str) :
  ((forall p t, url = p ++ SLASH :: t -> matchTok t = None) ->
   Persistent.upgradeSteamImageSize url = url)
  /\ (forall p t r,
      Persistent.upgradeSteamImageSize url = p ++ SLASH :: t ->
      matchTok t = Some r -> t = u "360fx360f" ++ r).
Proof.
  unfold Persistent.upgradeSteamImageSize. split.
  - intros H. destruct url; [reflexivity|]. simpl negb. cbv iota.
    apply replaceAll_unchanged. exact H.
  - intros p t r. destruct url as [|c url].
    + simpl. intros H. destruct p; discriminate.
    + simpl negb. cbv iota. apply replaceAll_tokens.
Qed.

Lemma upgradeSteamImageSize_global_shape_witness :
  Persistent.upgradeSteamImageSize (u "https://x/100fx100f/economy/image/abc/62fx62f")
    = u "https://x" ++ SLASH :: u "360fx360f/economy/image/abc/360fx360f"
  /\ u "360fx360f/economy/image/abc/360fx360f"
     = u "360fx360f" ++ u "/economy/image/abc/360fx360f".
Proof.
  split; [reflexivity|].
  destruct (upgradeSteamImageSize_global_shape
              (u "https://x/100fx100f/economy/image/abc/62fx62f")) as [_ H].
  apply (H (u "https://x")); reflexivity.
Defined.

(** X8. A url found by attempt A is returned absolute in every revision:
    an icon value that does not begin with [http] is prefixed with the
    static base, and the size upgrade keeps the prefix. *)
Theorem resolveImage_attemptA_is_absolute (data : json) :
  (forall i, attemptA Memory.probe data = Some i -> i <> [] ->
     exists x,
       resolveImage Memory.probe Memory.STATIC_BASE
         Memory.upgradeSteamImageSize data = Ret (Some x)
       /\ startsWith (u "http") x = true)
  /\ (forall i, attemptA Persistent.probe data = Some i -> i <> [] ->
     exists x,
       resolveImage Persistent.probe Persistent.STATIC_BASE
         Persistent.upgradeSteamImageSize data = Ret (Some x)
       /\ startsWith (u "http") x = true)
  /\ (forall i, attemptA Basic.probe data = Some i -> i <> [] ->
     exists x,
       resolveImage Basic.probe Basic.STATIC_BASE (fun url => url) data
         = Ret (Some x)
       /\ startsWith (u "http") x = true).
Proof.
  split; [|split]; intros i Hi Hne; unfold resolveImage; rewrite Hi;
    destruct i as [|c i]; try congruence; cbn [truthy]; eexists;
    (split; [reflexivity|]).
  - apply upgrade_anchored_keeps_http, completed_is_absolute. reflexivity.
  - apply upgrade_global_keeps_http, completed_is_absolute. reflexivity.
  - apply completed_is_absolute. reflexivity.
Qed.

Lemma resolveImage_attemptA_is_absolute_witness :
  let data :=
    JObj [(u "assets",
           JObj [(u "730", JObj [(u "icon_url_large", JStr (u "abc/62fx62f"))])])] in
  exists x,
    resolveImage Memory.probe Memory.STATIC_BASE Memory.upgradeSteamImageSize data
      = Ret (Some x)
    /\ startsWith (u "http") x = true.
Proof.
  intros data.
  destruct (resolveImage_attemptA_is_absolute data) as [H _].
  apply (H (u "abc/62fx62f")); [reflexivity|discriminate].
Defined.

(** ** More on the CSV reader *)

Section CsvMore.

Lemma trimStart_nonspace c s : is_space c = false -> trimStart (c :: s) = c :: s.
Proof. intros H. simpl. rewrite H. reflexivity. Qed.

Lemma trimStart_shape s :
  trimStart s = [] \/ exists c x, trimStart s = c :: x /\ is_space c = false.
Proof.
  induction s as [|c s IH]; simpl; [auto|].
  destruct (is_space c) eqn:Hc; [exact IH|]. right. eauto.
Qed.

Lemma trimStart_idem s : trimStart (trimStart s) = trimStart s.
Proof.
  destruct (trimStart_shape s) as [->|(c & x & -> & Hc)]; [reflexivity|].
  apply trimStart_nonspace. exact Hc.
Qed.

Lemma trimStart_snoc a c :
  is_space c = false -> trimStart (a ++ [c]) = trimStart a ++ [c].
Proof.
  intros Hc. induction a as [|b a IH]; simpl; [rewrite Hc; reflexivity|].
  destruct (is_space b); [exact IH|reflexivity].
Qed.

Lemma trimEnd_cons c s : is_space c = false -> trimEnd (c :: s) = c :: trimEnd s.
Proof.
  intros Hc. unfold trimEnd. simpl rev. rewrite trimStart_snoc by exact Hc.
  rewrite rev_app_distr. reflexivity.
Qed.

Lemma trimEnd_idem s : trimEnd (trimEnd s) = trimEnd s.
Proof.
  unfold trimEnd. rewrite rev_involutive, trimStart_idem. reflexivity.
Qed.

Lemma trim_shape s :
  trim s = [] \/ exists c x, trim s = c :: x /\ is_space c = false.
Proof.
  unfold trim. destruct (trimStart_shape s) as [->|(c & x & -> & Hc)].
  - left. reflexivity.
  - right. rewrite trimEnd_cons by exact Hc. eauto.
Qed.

Lemma trim_idem s : trim (trim s) = trim s.
Proof.
  unfold trim at 2 3. destruct (trimStart_shape s) as [->|(c & x & -> & Hc)].
  - reflexivity.
  - rewrite trimEnd_cons by exact Hc. unfold trim.
    rewrite trimStart_nonspace by exact Hc.
    rewrite !trimEnd_cons by exact Hc. rewrite trimEnd_idem. reflexivity.
Qed.

(** The last code unit of a trimmed text is not white space. *)
Lemma trimEnd_last s d : last (trimEnd s) = Some d -> is_space d = false.
Proof.
  unfold trimEnd.
  destruct (trimStart_shape (rev s)) as [->|(c & x & -> & Hc)];
    [discriminate|].
  simpl rev. rewrite last_snoc. intros [= <-]. exact Hc.
Qed.

Lemma trim_ends s :
  (forall c, head (trim s) = Some c -> is_space c = false)
  /\ (forall d, last (trim s) = Some d -> is_space d = false).
Proof.
  split.
  - intros c. destruct (trim_shape s) as [->|(c' & x & -> & Hc)]; simpl;
      [discriminate|]. intros [= <-]. exact Hc.
  - intros d. unfold trim. apply trimEnd_last.
Qed.

(** A text that begins and ends with code units other than white space
    is its own trim. *)
Lemma trim_fixed c x d y :
  is_space c = false -> is_space d = false ->
  c :: x = y ++ [d] -> trim (c :: x) = c :: x.
Proof.
  intros Hc Hd E. unfold trim. rewrite trimStart_nonspace by exact Hc.
  rewrite E. unfold trimEnd. rewrite rev_unit.
  rewrite trimStart_nonspace by exact Hd.
  change (rev (d :: rev y)) with (rev (rev y) ++ [d]).
  rewrite rev_involutive. reflexivity.
Qed.

Lemma loop_grows line :
  forall cur q out,
    exists cell, parseCsvLine_loop line cur q out = out ++ cell
                 /\ cell <> [].
Proof.
  remember (length line) as n eqn:Hn. revert line Hn.
  induction n as [n IH] using lt_wf_ind. intros line -> cur q out.
  destruct line as [|ch rest]; simpl.
  - exists [cur]. split; [reflexivity|discriminate].
  - destruct (ch =? QUOTE).
    + destruct rest as [|next rest'].
      * simpl. exists [cur]. split; [reflexivity|discriminate].
      * destruct (q && (next =? QUOTE)).
        -- apply (IH (length rest')); [simpl; lia|reflexivity].
        -- apply (IH (length (next :: rest'))); [simpl; lia|reflexivity].
    + destruct ((ch =? COMMA) && negb q).
      * destruct (IH (length rest) ltac:(simpl; lia) rest eq_refl [] q (out ++ [cur]))
          as (cell & -> & Hne).
        exists (cur :: cell). split; [|discriminate].
        simpl. rewrite <- app_assoc. reflexivity.
      * apply (IH (length rest)); [simpl; lia|reflexivity].
Qed.

Lemma parseCsvLine_nonempty line : parseCsvLine line <> [].
Proof.
  unfold parseCsvLine.
  destruct (loop_grows line [] false []) as (cell & -> & Hne).
  simpl. destruct cell; [congruence|discriminate].
Qed.

(** A plain cell is copied to [cur]. *)
Lemma loop_plain cell rest cur out :
  plainCell cell ->
  parseCsvLine_loop (cell ++ rest) cur false out
  = parseCsvLine_loop rest (cur ++ cell) false out.
Proof.
  intros Hplain. revert cur. induction Hplain as [|ch cell [Hq Hc] _ IH];
    intros cur.
  - rewrite app_nil_r. reflexivity.
  - simpl. apply N.eqb_neq in Hq, Hc. rewrite Hq, Hc. simpl.
    rewrite IH, <- app_assoc. reflexivity.
Qed.

Lemma loop_plain_line cell cells out :
  Forall plainCell (cell :: cells) ->
  parseCsvLine_loop (joinBy [COMMA] (cell :: cells)) [] false out
  = out ++ cell :: cells.
Proof.
  revert cell out. induction cells as [|cell' cells IH]; intros cell out Hall.
  - simpl joinBy. rewrite <- (app_nil_r cell) at 1.
    rewrite loop_plain by (inversion Hall; assumption). reflexivity.
  - change (joinBy [COMMA] (cell :: cell' :: cells))
      with (cell ++ COMMA :: joinBy [COMMA] (cell' :: cells)).
    inversion Hall as [|? ? Hcell Hrest]; subst.
    rewrite loop_plain by assumption.
    change (parseCsvLine_loop (COMMA :: ?l) ?c false ?o)
      with (parseCsvLine_loop l [] false (o ++ [c])).
    rewrite IH by assumption. rewrite <- app_assoc. reflexivity.
Qed.

(** [split] on lines that hold no line terminator. *)
Lemma splitLines_one l : oneLine l -> splitLines l = [l].
Proof.
  induction 1 as [|c l [Hlf Hcr] Hl IH]; [reflexivity|].
  apply N.eqb_neq in Hlf, Hcr. cbn [splitLines]. rewrite Hlf.
  destruct l as [|d l]; [reflexivity|].
  rewrite Hcr. cbn [andb]. rewrite IH. reflexivity.
Qed.

Lemma splitLines_lf l rest :
  oneLine l -> splitLines (l ++ LF :: rest) = l :: splitLines rest.
Proof.
  induction 1 as [|c l [Hlf Hcr] Hl IH]; [reflexivity|].
  apply N.eqb_neq in Hlf, Hcr.
  change ((c :: l) ++ LF :: rest) with (c :: (l ++ LF :: rest)).
  cbn [splitLines]. rewrite Hlf.
  destruct (l ++ LF :: rest) as [|d s''] eqn:E; [destruct l; discriminate|].
  rewrite Hcr. cbn [andb]. rewrite IH. reflexivity.
Qed.

Lemma splitLines_crlf l rest :
  oneLine l -> splitLines (l ++ CR :: LF :: rest) = l :: splitLines rest.
Proof.
  induction 1 as [|c l [Hlf Hcr] Hl IH]; [reflexivity|].
  apply N.eqb_neq in Hlf, Hcr.
  change ((c :: l) ++ CR :: LF :: rest) with (c :: (l ++ CR :: LF :: rest)).
  cbn [splitLines]. rewrite Hlf.
  destruct (l ++ CR :: LF :: rest) as [|d s''] eqn:E; [destruct l; discriminate|].
  rewrite Hcr. cbn [andb]. rewrite IH. reflexivity.
Qed.

Lemma splitLines_join sep line lines :
  sep = [LF] \/ sep = [CR; LF] ->
  Forall oneLine (line :: lines) ->
  splitLines (joinBy sep (line :: lines)) = line :: lines.
Proof.
  intros Hsep. revert line. induction lines as [|l' lines IH]; intros line Hall.
  - apply splitLines_one. inversion Hall. assumption.
  - inversion Hall as [|? ? Hline Hrest]; subst.
    change (joinBy sep (line :: l' :: lines))
      with (line ++ sep ++ joinBy sep (l' :: lines)).
    destruct Hsep as [-> | ->].
    + change (line ++ [LF] ++ ?x) with (line ++ LF :: x).
      rewrite splitLines_lf by assumption. rewrite IH by assumption.
      reflexivity.
    + change (line ++ [CR; LF] ++ ?x) with (line ++ CR :: LF :: x).
      rewrite splitLines_crlf by assumption. rewrite IH by assumption.
      reflexivity.
Qed.

End CsvMore.

Section CsvTables.

Lemma parseCsv_join sep line lines c d :
  sep = [LF] \/ sep = [CR; LF] ->
  Forall oneLine (line :: lines) ->
  head (joinBy sep (line :: lines)) = Some c -> is_space c = false ->
  last (joinBy sep (line :: lines)) = Some d -> is_space d = false ->
  parseCsv (joinBy sep (line :: lines)) = map parseCsvLine (line :: lines).
Proof.
  intros Hsep Hall Hhead Hc Hlast Hd. unfold parseCsv.
  destruct (joinBy sep (line :: lines)) as [|c' x] eqn:E; [discriminate|].
  injection Hhead as ->. apply last_Some in Hlast as [y Hy].
  rewrite (trim_fixed c x d y Hc Hd Hy). rewrite <- E.
  rewrite splitLines_join by assumption. reflexivity.
Qed.

Lemma quoteLine_quoted cell cells : quoted (quoteLine (cell :: cells)).
Proof.
  revert cell. induction cells as [|cell' cells IH]; intros cell.
  - eexists. reflexivity.
  - destruct (IH cell') as [body Hbody].
    change (quoteLine (cell :: cell' :: cells))
      with (quoteCell cell ++ COMMA :: quoteLine (cell' :: cells)).
    rewrite Hbody. unfold quoteCell.
    set (esc := flat_map _ cell).
    exists (esc ++ [QUOTE] ++ COMMA :: QUOTE :: body).
    simpl. f_equal. rewrite <- !app_assoc. reflexivity.
Qed.

Lemma joinBy_quoted sep l ls :
  Forall quoted (l :: ls) -> quoted (joinBy sep (l :: ls)).
Proof.
  revert l. induction ls as [|l' ls IH]; intros l Hall.
  - inversion Hall. assumption.
  - inversion Hall as [|? ? [b ->] Hrest]; subst.
    destruct (IH l' Hrest) as [b' Hb'].
    change (joinBy sep ((QUOTE :: b ++ [QUOTE]) :: l' :: ls))
      with ((QUOTE :: b ++ [QUOTE]) ++ sep ++ joinBy sep (l' :: ls)).
    rewrite Hb'. exists (b ++ [QUOTE] ++ sep ++ QUOTE :: b').
    simpl. f_equal. rewrite <- !app_assoc. simpl. rewrite <- !app_assoc.
    reflexivity.
Qed.

Lemma quoteCell_oneLine cell : oneLine cell -> oneLine (quoteCell cell).
Proof.
  intros H. unfold quoteCell, oneLine.
  apply Forall_cons_2; [split; discriminate|].
  apply Forall_app_2; [|apply Forall_cons_2; [split; discriminate|constructor]].
  induction H as [|c cell Hc _ IH]; simpl; [constructor|].
  apply Forall_app_2; [|exact IH].
  destruct (c =? QUOTE).
  - repeat (apply Forall_cons_2; [split; discriminate|]). constructor.
  - apply Forall_cons_2; [exact Hc|constructor].
Qed.

Lemma quoteLine_oneLine row : Forall oneLine row -> oneLine (quoteLine row).
Proof.
  induction 1 as [|cell cells Hcell Hcells IH]; [constructor|].
  destruct cells as [|cell' cells]; [apply quoteCell_oneLine; assumption|].
  change (quoteLine (cell :: cell' :: cells))
    with (quoteCell cell ++ COMMA :: quoteLine (cell' :: cells)).
  apply Forall_app_2; [apply quoteCell_oneLine; assumption|].
  apply Forall_cons_2; [split; discriminate|exact IH].
Qed.

End CsvTables.

(** X9. A line of cells that hold neither a comma nor a double quote,
    joined by commas, parses to those cells, each trimmed of the white
    space at its ends. *)
Theorem parseCsvLine_plain_cells (cell : str) (cells : list str) :
  Forall plainCell (cell :: cells) ->
  parseCsvLine (joinBy [COMMA] (cell :: cells)) = map trim (cell :: cells).
Proof.
  intros H. unfold parseCsvLine. rewrite loop_plain_line by exact H.
  reflexivity.
Qed.

Lemma parseCsvLine_plain_cells_witness :
  parseCsvLine (u "AK-47 | Redline, Field-Tested ,0.21,,10.50")
  = [u "AK-47 | Redline"; u "Field-Tested"; u "0.21"; []; u "10.50"].
Proof.
  apply (parseCsvLine_plain_cells (u "AK-47 | Redline")
           [u " Field-Tested "; u "0.21"; []; u "10.50"]).
  repeat (apply Forall_cons_2;
          [repeat (apply Forall_cons_2; [split; discriminate|]); constructor|]).
  constructor.
Defined.

(** X10. Whatever the line, also one with unbalanced quotes,
    [parseCsvLine] returns at least one cell, and no cell it returns
    begins or ends with white space; so for every row of [parseCsv]. *)
Theorem parseCsvLine_cells_are_trimmed :
  (forall line,
      parseCsvLine line <> []
      /\ Forall (fun cell =>
                   trim cell = cell
                   /\ (forall c, head cell = Some c -> is_space c = false)
                   /\ (forall d, last cell = Some d -> is_space d = false))
                (parseCsvLine line))
  /\ (forall text row,
      In row (parseCsv text) ->
      row <> [] /\ Forall (fun cell => trim cell = cell) row).
Proof.
  assert (Hline : forall line,
      Forall (fun cell =>
                trim cell = cell
                /\ (forall c, head cell = Some c -> is_space c = false)
                /\ (forall d, last cell = Some d -> is_space d = false))
             (parseCsvLine line)).
  { intros line. unfold parseCsvLine. apply Forall_map, Forall_forall.
    intros cell _. simpl. split; [apply trim_idem|apply trim_ends]. }
  split.
  - intros line. split; [apply parseCsvLine_nonempty|apply Hline].
  - intros text row Hrow. unfold parseCsv in Hrow.
    apply in_map_iff in Hrow as (line & <- & _).
    split; [apply parseCsvLine_nonempty|].
    eapply Forall_impl; [apply Hline|]. intros cell H. apply H.
Qed.

(** X11. [parseCsv] breaks the text at line feeds and at carriage return
    plus line feed alike: for lines that hold no such code unit, joined
    by either separator into a text that begins and ends with something
    other than white space, the rows are the parsed lines, in order. *)
Theorem parseCsv_rows_are_the_lines
    (sep line : str) (lines : list str) (c d : N) :
  sep = [LF] \/ sep = [CR; LF] ->
  Forall oneLine (line :: lines) ->
  head (joinBy sep (line :: lines)) = Some c -> is_space c = false ->
  last (joinBy sep (line :: lines)) = Some d -> is_space d = false ->
  parseCsv (joinBy sep (line :: lines)) = map parseCsvLine (line :: lines).
Proof. apply parseCsv_join. Qed.

Lemma parseCsv_rows_are_the_lines_witness :
  parseCsv (u "name,wear" ++ [CR; LF] ++ u "AK-47,FT" ++ [CR; LF] ++ u "Glock,")
  = [[u "name"; u "wear"]; [u "AK-47"; u "FT"]; [u "Glock"; []]].
Proof.
  apply (parseCsv_rows_are_the_lines [CR; LF] (u "name,wear")
           [u "AK-47,FT"; u "Glock,"] 110 44).
  - right. reflexivity.
  - repeat (apply Forall_cons_2;
            [repeat (apply Forall_cons_2; [split; discriminate|]); constructor|]).
    constructor.
  - reflexivity.
  - reflexivity.
  - reflexivity.
  - reflexivity.
Defined.

(** X12. A table written with every cell quoted, the rows joined by line
    feeds or by carriage return plus line feed, is read back by
    [parseCsv] row for row and cell for cell, each cell trimmed, provided
    no cell holds a line terminator and no row is empty. *)
Theorem parseCsv_quoted_table (sep : str) (row : list str) (rows : list (list str)) :
  sep = [LF] \/ sep = [CR; LF] ->
  Forall (fun r => r <> [] /\ Forall oneLine r) (row :: rows) ->
  parseCsv (joinBy sep (map quoteLine (row :: rows)))
  = map (map trim) (row :: rows).
Proof.
  intros Hsep Hall.
  assert (Hq : Forall quoted (map quoteLine (row :: rows))).
  { apply Forall_map. eapply Forall_impl; [exact Hall|].
    intros [|cell cells] [Hne _]; [congruence|]. apply quoteLine_quoted. }
  assert (Hone : Forall oneLine (map quoteLine (row :: rows))).
  { apply Forall_map. eapply Forall_impl; [exact Hall|].
    intros r [_ Hr]. apply quoteLine_oneLine. exact Hr. }
  assert (Hrows : map parseCsvLine (map quoteLine (row :: rows))
                  = map (map trim) (row :: rows)).
  { clear -Hall. induction Hall as [|r rs [Hne _] _ IH]; [reflexivity|].
    cbn [map]. f_equal; [|exact IH].
    destruct r as [|cell cells]; [congruence|].
    unfold parseCsvLine. rewrite loop_line. reflexivity. }
  rewrite <- Hrows. clear Hrows Hall.
  remember (map quoteLine rows) as ls eqn:Hls.
  assert (E : map quoteLine (row :: rows) = quoteLine row :: ls)
    by (subst ls; reflexivity).
  rewrite E in *. clear E Hls.
  destruct (joinBy_quoted sep _ _ Hq) as [body Hbody].
  apply (parseCsv_join sep _ _ QUOTE QUOTE Hsep Hone).
  - rewrite Hbody. reflexivity.
  - reflexivity.
  - rewrite Hbody. rewrite app_comm_cons. apply last_snoc.
  - reflexivity.
Qed.

Lemma parseCsv_quoted_table_witness :
  parseCsv (joinBy [LF] (map quoteLine
              [[u "ItemName"; u "Price"]; [u "AK-47 | Redline, FT"; u " 10.50"]]))
  = [[u "ItemName"; u "Price"]; [u "AK-47 | Redline, FT"; u "10.50"]].
Proof.
  apply (parseCsv_quoted_table [LF] [u "ItemName"; u "Price"]
           [[u "AK-47 | Redline, FT"; u " 10.50"]]).
  - left. reflexivity.
  - repeat (apply Forall_cons_2;
            [split; [discriminate|];
             repeat (apply Forall_cons_2;
                     [repeat (apply Forall_cons_2; [split; discriminate|]);
                      constructor|]);
             constructor|]).
    constructor.
Defined.

(** ** Numeric cells, dates and market names *)

Section Cells.

Lemma unsignedDecimal_dot s :
  unsignedDecimal s =
  let '(ip, r) := span_digits s in
  match r with
  | [] => match ip with [] => None | _ => Some (inject_Z (digitsVal ip)) end
  | c :: r' =>
      if c =? DOT then
        let '(fp, r'') := span_digits r' in
        match r'', ip, fp with
        | [], [], [] => None
        | [], _, _ =>
            Some (inject_Z (digitsVal ip)
                  + inject_Z (digitsVal fp) / inject_Z (10 ^ Z.of_nat (length fp)))%Q
        | _, _, _ => None
        end
      else None
  end.
Proof.
  unfold unsignedDecimal. destruct (span_digits s) as [ip r].
  destruct r as [|c r']; [reflexivity|].
  destruct (c =? DOT) eqn:E.
  - apply N.eqb_eq in E. subst c. reflexivity.
  - destruct c as [|p]; [reflexivity|].
    do 6 (destruct p as [p|p|]; try reflexivity; try discriminate E).
Qed.

Lemma Number_minus s :
  Number s =
  match s with
  | [] => Fin 0
  | c :: s' =>
      if c =? MINUS
      then match unsignedDecimal s' with
           | Some q => ofDecimal (- q)
           | None => NaN
           end
      else match unsignedDecimal s with
           | Some q => ofDecimal q
           | None => NaN
           end
  end.
Proof.
  destruct s as [|c s']; [reflexivity|].
  destruct (c =? MINUS) eqn:E.
  - apply N.eqb_eq in E. subst c. reflexivity.
  - destruct c as [|p]; [reflexivity|].
    do 6 (destruct p as [p|p|]; try reflexivity; try discriminate E).
Qed.

Lemma span_digits_noDigit s : noDigit s -> span_digits s = ([], s).
Proof. intros H. destruct H as [|c s Hc _]; simpl; [|rewrite Hc]; reflexivity. Qed.

Lemma unsignedDecimal_noDigit s : noDigit s -> unsignedDecimal s = None.
Proof.
  intros H. rewrite unsignedDecimal_dot, (span_digits_noDigit s H).
  destruct H as [|c r' _ Hr']; [reflexivity|].
  destruct (c =? DOT); [|reflexivity].
  rewrite (span_digits_noDigit r' Hr'). destruct r'; reflexivity.
Qed.

Lemma Number_noDigit s : noDigit s -> s <> [] -> Number s = NaN.
Proof.
  intros H Hne. rewrite Number_minus. destruct s as [|c s']; [congruence|].
  destruct (c =? MINUS).
  - rewrite unsignedDecimal_noDigit; [reflexivity|]. inversion H; assumption.
  - rewrite unsignedDecimal_noDigit; [reflexivity|exact H].
Qed.

Lemma trimStart_Forall (P : N -> Prop) s : Forall P s -> Forall P (trimStart s).
Proof.
  induction 1 as [|c s Hc Hs IH]; simpl; [constructor|].
  destruct (is_space c); [exact IH|constructor; assumption].
Qed.

Lemma trim_Forall (P : N -> Prop) s : Forall P s -> Forall P (trim s).
Proof.
  intros H. unfold trim, trimEnd.
  apply Forall_rev, trimStart_Forall, Forall_rev, trimStart_Forall, H.
Qed.

Lemma stripNonNumeric_Forall (P : N -> Prop) s :
  Forall P s -> Forall P (stripNonNumeric s).
Proof.
  unfold stripNonNumeric. induction 1 as [|c s Hc Hs IH]; [constructor|].
  rewrite filter_cons. destruct (decide _); [constructor|]; assumption.
Qed.

Lemma stripNonNumeric_symbols s :
  Forall (fun c => is_digit c = false /\ c <> DOT /\ c <> MINUS) s ->
  stripNonNumeric s = [].
Proof.
  unfold stripNonNumeric. induction 1 as [|c s (Hd & Hdot & Hm) Hs IH];
    [reflexivity|].
  rewrite filter_cons. apply N.eqb_neq in Hdot, Hm.
  destruct (decide _) as [H|_]; [|exact IH].
  rewrite Hd, Hdot, Hm in H. discriminate H.
Qed.

Lemma digit_value c : is_digit c = true -> (0 <= Z.of_N c - 48 <= 9)%Z.
Proof.
  unfold is_digit. intros H. apply andb_prop in H as [H1 H2].
  apply N.leb_le in H1, H2. lia.
Qed.

Lemma digitsVal_two d :
  forallb is_digit d = true -> (length d <= 2)%nat ->
  (0 <= digitsVal d <= 99)%Z.
Proof.
  intros Hd Hlen. destruct d as [|a [|b [|c d]]]; simpl in Hlen; try lia;
    unfold digitsVal; simpl fold_left; simpl in Hd.
  - lia.
  - rewrite andb_true_r in Hd. pose proof (digit_value a Hd). lia.
  - rewrite andb_true_r in Hd. apply andb_prop in Hd as [Ha Hb].
    pose proof (digit_value a Ha). pose proof (digit_value b Hb). lia.
Qed.

Lemma digitsVal_four a b c d :
  forallb is_digit [a; b; c; d] = true ->
  (0 <= digitsVal [a; b; c; d] <= 9999)%Z.
Proof.
  intros H. simpl in H. rewrite andb_true_r in H.
  apply andb_prop in H as [Ha H]. apply andb_prop in H as [Hb H].
  apply andb_prop in H as [Hc Hd].
  pose proof (digit_value a Ha). pose proof (digit_value b Hb).
  pose proof (digit_value c Hc). pose proof (digit_value d Hd).
  unfold digitsVal. simpl fold_left. lia.
Qed.

Lemma matchMDY_bounds t mm dd yy :
  Persistent.matchMDY t = Some (mm, dd, yy) ->
  (0 <= mm <= 99 /\ 0 <= dd <= 99 /\ 0 <= yy <= 9999)%Z.
Proof.
  unfold Persistent.matchMDY.
  destruct (span_digits t) as [m r1] eqn:Hm.
  destruct r1 as [|s1 r2]; [discriminate|].
  destruct (s1 =? SLASH) eqn:E1.
  2:{ destruct s1 as [|p]; [discriminate|].
      do 6 (destruct p as [p|p|]; try discriminate). }
  apply N.eqb_eq in E1. subst s1. cbv iota beta.
  change (match SLASH with 47 => ?a | _ => ?b end) with a.
  destruct (span_digits r2) as [d r3] eqn:Hd.
  destruct r3 as [|s2 r4]; [discriminate|].
  destruct (s2 =? SLASH) eqn:E2.
  2:{ destruct s2 as [|p]; [discriminate|].
      do 6 (destruct p as [p|p|]; try discriminate). }
  apply N.eqb_eq in E2. subst s2.
  change (match SLASH with 47 => ?a | _ => ?b end) with a.
  destruct (span_digits r4) as [y r5] eqn:Hy.
  destruct y as [|y1 [|y2 [|y3 [|y4 [|y5 y]]]]]; try discriminate.
  destruct r5; [|discriminate].
  apply span_digits_split in Hm as (_ & Hmd & _).
  apply span_digits_split in Hd as (_ & Hdd & _).
  apply span_digits_split in Hy as (_ & Hyd & _).
  destruct m as [|m1 [|m2 [|m3 m]]]; try discriminate;
    destruct d as [|d1 [|d2 [|d3 d]]]; try discriminate;
    intros [= <- <- <-];
    (split; [apply digitsVal_two; [assumption|simpl; lia]|]);
    (split; [apply digitsVal_two; [assumption|simpl; lia]|]);
    apply digitsVal_four; assumption.
Qed.

Lemma parseCsvLine_trimmed line :
  Forall (fun cell => trim cell = cell) (parseCsvLine line).
Proof.
  unfold parseCsvLine. apply Forall_map, Forall_forall. intros cell _.
  apply trim_idem.
Qed.

Lemma parseCsv_trimmed text row :
  In row (parseCsv text) -> Forall (fun cell => trim cell = cell) row.
Proof.
  unfold parseCsv. intros H. apply in_map_iff in H as (line & <- & _).
  apply parseCsvLine_trimmed.
Qed.

Lemma numOrNull_noDigit x : noDigit x -> Persistent.numOrNull (Some x) = None.
Proof.
  intros H. unfold Persistent.numOrNull. simpl default.
  destruct (negb (truthy (trim x))); [reflexivity|].
  pose proof (stripNonNumeric_Forall _ _ (trim_Forall _ _ H)) as Hs.
  destruct (stripNonNumeric (trim x)) as [|c s] eqn:E; [reflexivity|].
  rewrite <- E in *.
  destruct (_ || _ || _ || _); [reflexivity|].
  rewrite Number_noDigit; [reflexivity|exact Hs|rewrite E; discriminate].
Qed.

End Cells.

(** X13. [numOrNull] and [intOrNull] of the persistent revision never make
    a number out of a cell that holds no digit: signs, dots, currency
    symbols and words alone give [null]. *)
Theorem numOrNull_needs_a_digit (x : str) :
  noDigit x ->
  Persistent.numOrNull (Some x) = None /\ Persistent.intOrNull (Some x) = None.
Proof.
  intros H. unfold Persistent.intOrNull. rewrite (numOrNull_noDigit x H).
  split; reflexivity.
Qed.

Lemma numOrNull_needs_a_digit_witness :
  Persistent.numOrNull (Some (u " $-. n/a ")) = None
  /\ Persistent.intOrNull (Some (u " $-. n/a ")) = None.
Proof.
  apply numOrNull_needs_a_digit.
  repeat (apply Forall_cons_2; [reflexivity|]). constructor.
Defined.

(** X14. In [server.js] a non-empty text without digit, dot or minus sign
    (a currency symbol, a word) is stripped to the empty string, and
    [Number] of the empty string is [0]: [moneyToNumber] returns [0] for
    it, and so does the sheet price of a row whose price cell holds it. *)
Theorem moneyToNumber_symbols_give_zero (x : str) :
  x <> [] ->
  Forall (fun c => is_digit c = false /\ c <> DOT /\ c <> MINUS) x ->
  Memory.moneyToNumber (Some x) = Some 0%Q
  /\ (forall row, row !! Memory.IDX_SHEET_PRICE = Some x ->
                  Memory.sheetPrice row = Some 0%Q).
Proof.
  intros Hne H. pose proof (stripNonNumeric_symbols x H) as Hs. split.
  - unfold Memory.moneyToNumber. destruct x; [congruence|].
    cbn [truthy negb]. rewrite Hs. reflexivity.
  - intros row Hrow. unfold Memory.sheetPrice. rewrite Hrow. simpl default.
    rewrite Hs. reflexivity.
Qed.

Lemma moneyToNumber_symbols_give_zero_witness :
  Memory.moneyToNumber (Some (u "N/A")) = Some 0%Q
  /\ Memory.sheetPrice [u "AK-47"; u "FT"; u "0.2"; u "7"; u "N/A"] = Some 0%Q.
Proof.
  destruct (moneyToNumber_symbols_give_zero (u "N/A")) as [H1 H2].
  - discriminate.
  - repeat (apply Forall_cons_2;
            [split; [reflexivity|split; discriminate]|]). constructor.
  - split; [exact H1|]. apply H2. reflexivity.
Defined.

(** X15. A date accepted by [parseMDYDate] has a month index from [0] to
    [98], a day from [1] to [99] and a year from [1] to [9999]: the shape
    is checked, a zero is refused, the calendar is not consulted. *)
Theorem parseMDYDate_bounds (s : option str) (d : Persistent.date) :
  Persistent.parseMDYDate s = Some d ->
  (0 <= Persistent.monthIndex d <= 98
   /\ 1 <= Persistent.day d <= 99
   /\ 1 <= Persistent.year d <= 9999)%Z.
Proof.
  unfold Persistent.parseMDYDate. destruct s as [s|]; [|discriminate].
  destruct (negb (truthy s)); [discriminate|].
  destruct (Persistent.matchMDY (trim s)) as [[[mm dd] yy]|] eqn:E;
    [|discriminate].
  apply matchMDY_bounds in E.
  destruct (mm =? 0)%Z eqn:Hm; [discriminate|].
  destruct (dd =? 0)%Z eqn:Hd; [discriminate|].
  destruct (yy =? 0)%Z eqn:Hy; [discriminate|].
  apply Z.eqb_neq in Hm, Hd, Hy. intros [= <-]. simpl. lia.
Qed.

Lemma parseMDYDate_bounds_witness :
  Persistent.parseMDYDate (Some (u " 13/45/2025 "))
    = Some (Persistent.LocalMidnight 2025 12 45)
  /\ (0 <= 12 <= 98 /\ 1 <= 45 <= 99 /\ 1 <= 2025 <= 9999)%Z.
Proof.
  split; [reflexivity|].
  apply (parseMDYDate_bounds (Some (u " 13/45/2025 "))
           (Persistent.LocalMidnight 2025 12 45)).
  reflexivity.
Defined.

(** X16. On cells as the CSV reader returns them, trimmed, the three
    revisions build the same market name: the name alone when the wear
    cell is empty or missing, otherwise the name followed by the wear in
    parentheses. *)
Theorem toMarketName_revisions_agree (name wear : str) :
  trim name = name -> trim wear = wear ->
  Memory.toMarketName name (Some wear)
    = Persistent.toMarketName (Some name) (Some wear)
  /\ Basic.toMarketName name (Some wear)
    = Persistent.toMarketName (Some name) (Some wear)
  /\ Memory.toMarketName name None = Persistent.toMarketName (Some name) None
  /\ Persistent.toMarketName (Some name) (Some wear)
     = match wear with
       | [] => name
       | _ => name ++ u " (" ++ wear ++ u ")"
       end.
Proof.
  intros Hn Hw.
  unfold Memory.toMarketName, Basic.toMarketName, Persistent.toMarketName.
  simpl default. rewrite Hn, Hw.
  change (trim []) with (@nil N).
  destruct wear; repeat split; reflexivity.
Qed.

Lemma toMarketName_revisions_agree_witness :
  Memory.toMarketName (u "AK-47 | Slate") (Some (u "Well-Worn"))
    = Persistent.toMarketName (Some (u "AK-47 | Slate")) (Some (u "Well-Worn"))
  /\ Persistent.toMarketName (Some (u "AK-47 | Slate")) (Some (u "Well-Worn"))
     = u "AK-47 | Slate (Well-Worn)".
Proof.
  destruct (toMarketName_revisions_agree (u "AK-47 | Slate") (u "Well-Worn"))
    as (H1 & _ & _ & H4); [reflexivity|reflexivity|].
  split; [exact H1|exact H4].
Defined.

(** X17. For every row that [parseCsv] returns, the upsert built from the
    row, when one is built, has the first cell as its name, a name that
    is not empty, and a market name that begins with the name: no record
    is keyed by the empty string. *)
Theorem rowOp_of_parsed_row
    (text : str) (row : list str) (now : Z) (w : Persistent.sheetSet) :
  In row (parseCsv text) ->
  Persistent.rowOp now row = Some w ->
  row !! 0%nat = Some (Persistent.set_name w)
  /\ Persistent.set_name w <> []
  /\ (exists rest,
        Persistent.set_marketName w = Persistent.set_name w ++ rest)
  /\ Persistent.set_marketName w <> [].
Proof.
  intros Hrow. pose proof (parseCsv_trimmed _ _ Hrow) as Htrim.
  unfold Persistent.rowOp. change Persistent.IDX_NAME with 0%nat.
  destruct (row !! 0%nat) as [name|] eqn:Hname; [|discriminate].
  destruct name as [|c name]; [discriminate|]. cbn [truthy negb].
  intros [= <-]. cbn [Persistent.set_name Persistent.set_marketName].
  assert (Hn : trim (c :: name) = c :: name).
  { rewrite Forall_lookup in Htrim. apply (Htrim 0%nat). exact Hname. }
  assert (Hkey : exists rest,
             Persistent.toMarketName (Some (c :: name))
               (row !! Persistent.IDX_WEAR) = (c :: name) ++ rest).
  { unfold Persistent.toMarketName. simpl default. rewrite Hn.
    destruct (negb (truthy _)).
    - exists []. rewrite app_nil_r. reflexivity.
    - eexists. reflexivity. }
  split; [reflexivity|]. split; [discriminate|]. split; [exact Hkey|].
  destruct Hkey as [rest ->]. discriminate.
Qed.

Lemma rowOp_of_parsed_row_witness :
  exists w,
    Persistent.rowOp 0 [u "AK-47 | Redline"; u "Field-Tested"; u "0.21"] = Some w
    /\ Persistent.set_marketName w <> [].
Proof.
  destruct (Persistent.rowOp 0 [u "AK-47 | Redline"; u "Field-Tested"; u "0.21"])
    as [w|] eqn:E; [|vm_compute in E; discriminate].
  exists w. split; [reflexivity|].
  apply (rowOp_of_parsed_row
           (u "AK-47 | Redline, Field-Tested ,0.21")
           [u "AK-47 | Redline"; u "Field-Tested"; u "0.21"] 0 w).
  - left. reflexivity.
  - exact E.
Defined.

(** ** More on the upsert of the sheet rows *)

Section UpsertMore.

Import Persistent.

Lemma applyUpsert_merged (w : sheetSet) (db : gmap (list N) Item) :
  applyUpsert w db = <[set_marketName w := merged w (db !! set_marketName w)]> db.
Proof. unfold applyUpsert. destruct (db !! set_marketName w); reflexivity. Qed.

Lemma applyUpsert_comm (a b : sheetSet) (db : gmap (list N) Item) :
  set_marketName a <> set_marketName b ->
  applyUpsert a (applyUpsert b db) = applyUpsert b (applyUpsert a db).
Proof.
  intros Hne. rewrite !applyUpsert_merged.
  rewrite !lookup_insert_ne by congruence.
  apply insert_insert_ne. congruence.
Qed.

Lemma bulkWrite_cons (w : sheetSet) (order : list sheetSet) (db : gmap (list N) Item) :
  bulkWrite (w :: order) db = bulkWrite order (applyUpsert w db).
Proof. reflexivity. Qed.

Lemma bulkWrite_permutation (order order' : list sheetSet) :
  Permutation order order' ->
  NoDup (map set_marketName order) ->
  forall db : gmap (list N) Item, bulkWrite order db = bulkWrite order' db.
Proof.
  induction 1 as [|w o o' Hp IH|a b o|o1 o2 o3 H12 IH12 H23 IH23];
    intros Hnd db.
  - reflexivity.
  - rewrite !bulkWrite_cons. apply IH. inversion Hnd. assumption.
  - rewrite !bulkWrite_cons. f_equal. apply applyUpsert_comm.
    simpl in Hnd. apply NoDup_cons in Hnd as [Hnotin _].
    intros E. apply Hnotin. rewrite E. constructor.
  - rewrite IH12 by assumption. apply IH23.
    assert (Hm : map set_marketName o1 ≡ₚ map set_marketName o2)
      by (apply Permutation_map; assumption).
    rewrite <- Hm. exact Hnd.
Qed.

Lemma merged_merged (w a : sheetSet) (found : option Item) :
  merged w (Some (merged a found)) = merged w found.
Proof. destruct found; reflexivity. Qed.

Lemma bulkWrite_lookup (order : list sheetSet) (db : gmap (list N) Item) (k : str) :
  bulkWrite order db !! k =
  match lastFor k order with
  | Some w => Some (merged w (db !! k))
  | None => db !! k
  end.
Proof.
  revert db. induction order as [|a order IH]; intros db; [reflexivity|].
  rewrite bulkWrite_cons, IH. cbn [lastFor]. rewrite applyUpsert_merged.
  destruct (lastFor k order) as [w|].
  - destruct (decide (set_marketName a = k)) as [<-|Hne].
    + rewrite lookup_insert_eq, merged_merged. reflexivity.
    + rewrite lookup_insert_ne by exact Hne. reflexivity.
  - destruct (decide (set_marketName a = k)) as [<-|Hne].
    + rewrite lookup_insert_eq, bool_decide_eq_true_2 by reflexivity.
      reflexivity.
    + rewrite lookup_insert_ne by exact Hne.
      rewrite bool_decide_eq_false_2 by exact Hne. reflexivity.
Qed.

Lemma lastFor_last (pre post : list sheetSet) (w : sheetSet) :
  Forall (fun o => set_marketName o <> set_marketName w) post ->
  lastFor (set_marketName w) (pre ++ w :: post) = Some w.
Proof.
  intros Hpost.
  assert (Hp : lastFor (set_marketName w) post = None).
  { induction Hpost as [|o post Ho _ IH]; [reflexivity|]. cbn [lastFor].
    rewrite IH, bool_decide_eq_false_2 by exact Ho. reflexivity. }
  induction pre as [|a pre IH]; cbn [lastFor app].
  - rewrite Hp, bool_decide_eq_true_2 by reflexivity. reflexivity.
  - rewrite IH. reflexivity.
Qed.

Lemma bulkWrite_dom (order : list sheetSet) (db : gmap (list N) Item) :
  dom (bulkWrite order db) = dom db ∪ list_to_set (map set_marketName order).
Proof.
  revert db. induction order as [|a order IH]; intros db.
  - apply set_eq. intros x. rewrite elem_of_union.
    cbn [map list_to_set]. rewrite elem_of_empty. tauto.
  - rewrite bulkWrite_cons, IH, applyUpsert_merged, dom_insert_L.
    cbn [map list_to_set]. apply set_eq. intros x.
    rewrite !elem_of_union, elem_of_singleton. tauto.
Qed.

End UpsertMore.

(** X18. When no two operations of the bulk write share a market name,
    the order in which the store applies them does not matter: every
    permutation of the operations leaves the same store. *)
Theorem bulkWrite_order_independent
    (order order' : list Persistent.sheetSet)
    (db : gmap (list N) Persistent.Item) :
  Permutation order order' ->
  NoDup (map Persistent.set_marketName order) ->
  Persistent.bulkWrite order db = Persistent.bulkWrite order' db.
Proof. intros Hp Hnd. apply bulkWrite_permutation; assumption. Qed.

Lemma bulkWrite_order_independent_witness :
  let a := Persistent.SheetSet (u "A") (u "A") None None None None None [u "A"] 1 in
  let b := Persistent.SheetSet (u "B (FT)") (u "B") (Some (u "FT")) (Some 2%Q)
             None None None [u "B"; u "FT"] 2 in
  Persistent.bulkWrite [a; b] ∅ = Persistent.bulkWrite [b; a] ∅.
Proof.
  intros a b. apply bulkWrite_order_independent.
  - apply perm_swap.
  - apply NoDup_cons. split.
    + apply not_elem_of_cons. split; [discriminate|apply not_elem_of_nil].
    + apply NoDup_cons. split; [apply not_elem_of_nil|constructor].
Defined.

(** X19. After a bulk write the record under the key of an operation
    holds the sheet fields of the last operation applied with that key,
    together with the enrichment the key had in the store before the
    write, or [null]s if the key was new. *)
Theorem bulkWrite_last_write_wins
    (pre post : list Persistent.sheetSet) (w : Persistent.sheetSet)
    (db : gmap (list N) Persistent.Item) :
  Forall (fun o => Persistent.set_marketName o <> Persistent.set_marketName w)
         post ->
  exists d,
    Persistent.bulkWrite (pre ++ w :: post) db !! Persistent.set_marketName w
      = Some d
    /\ Persistent.sheetFields d =
       (Persistent.set_marketName w, Persistent.set_name w,
        Persistent.set_wear w, Persistent.set_sheetPrice w,
        Persistent.set_floatValue w, Persistent.set_paintSeed w,
        Persistent.set_sheetTimestamp w, Persistent.set_row w,
        Persistent.set_lastSeenAt w)
    /\ Persistent.enrichment d =
       match db !! Persistent.set_marketName w with
       | Some d0 => Persistent.enrichment d0
       | None => (None, None, None, None, None, None, None, None)
       end.
Proof.
  intros Hpost. rewrite bulkWrite_lookup, (lastFor_last pre post w Hpost).
  eexists. split; [reflexivity|].
  destruct (db !! Persistent.set_marketName w); split; reflexivity.
Qed.

Lemma bulkWrite_last_write_wins_witness :
  let first := Persistent.SheetSet (u "A") (u "A") None (Some 1%Q) None None None
                 [u "A"; []; []; []; u "1"] 10 in
  let second := Persistent.SheetSet (u "A") (u "A") None (Some 2%Q) None None None
                  [u "A"; []; []; []; u "2"] 11 in
  exists d,
    Persistent.bulkWrite [first; second] ∅ !! u "A" = Some d
    /\ Persistent.sheetPrice d = Some 2%Q.
Proof.
  intros first second.
  destruct (bulkWrite_last_write_wins [first] [] second ∅) as (d & Hd & Hf & _).
  - constructor.
  - exists d. split; [exact Hd|].
    apply (f_equal (fun t => snd (fst (fst (fst (fst (fst t))))))) in Hf.
    exact Hf.
Defined.

(** X20. A bulk write never deletes: the keys of the store afterwards are
    the keys it had before together with the market names of the
    operations. *)
Theorem bulkWrite_keys
    (order : list Persistent.sheetSet) (db : gmap (list N) Persistent.Item) :
  dom (Persistent.bulkWrite order db)
  = dom db ∪ list_to_set (map Persistent.set_marketName order).
Proof. apply bulkWrite_dom. Qed.


(** ** More on the background refresh *)

Section RefreshMore.

Import Persistent.

Local Open Scope nat_scope.

(** What one segment does to the bookkeeping, whichever segment it is. *)
Lemma step_shape i e s s' :
  step i e s = Some s' ->
  exists t t',
    tasks s !! i = Some t
    /\ tasks s' = <[i := t']> (tasks s)
    /\ target t' = target t
    /\ segmentsLeft (at_ t') < segmentsLeft (at_ t)
    /\ (db s' = db s \/ exists w, db s' = updateOne (target t) w (db s))
    /\ (forall k, k ∈ inFlight s' ->
          (k = target t /\ active t' = true)
          \/ (k ∈ inFlight s
              /\ (k <> target t \/ active t' = true \/ active t = false)))
    /\ ((searchers (log s') = searchers (log s)
         /\ (beforeFind t = false -> beforeFind t' = false))
        \/ (beforeFind t = true /\ beforeFind t' = false
            /\ searchers (log s') = searchers (log s) ++ [i])).
Proof.
  unfold step. destruct (tasks s !! i) as [t|] eqn:Hi; [|discriminate].
  destruct t as [key rp ri p]. simpl.
  assert (Hlog1 : forall l a,
            searchers (l ++ [(i, a)])
            = searchers l ++ match a with Search _ => [i] | _ => [] end).
  { intros l a. unfold searchers. rewrite omap_app. destruct a; reflexivity. }
  destruct p as [| |doc|doc w|doc|w|worked]; try discriminate.
  - destruct (bool_decide (key ∈ inFlight s)); intros [= <-];
      eexists _, _; (split; [reflexivity|]); simpl;
      (split; [reflexivity|]); (split; [reflexivity|]); (split; [simpl; lia|]);
      (split; [left; reflexivity|]); (split; [|left; split; [reflexivity|discriminate]]).
    + intros k Hk. right. auto.
    + intros k Hk. apply elem_of_union in Hk as [Hk|Hk].
      * apply elem_of_singleton in Hk. left. auto.
      * right. auto.
  - destruct (db s !! key) as [doc|].
    + destruct (ri && _).
      * destruct (wellFormed key); intros [= <-];
          eexists _, _; (split; [reflexivity|]); simpl;
          (split; [reflexivity|]); (split; [reflexivity|]); (split; [simpl; lia|]);
          (split; [left; reflexivity|]); (split; [intros k Hk; right; auto|]).
        -- right. rewrite Hlog1. auto.
        -- left. split; [reflexivity|discriminate].
      * unfold priceStage. simpl. destruct (rp && _); intros [= <-];
          eexists _, _; (split; [reflexivity|]); simpl;
          (split; [reflexivity|]); (split; [reflexivity|]); (split; [simpl; lia|]);
          (split; [left; reflexivity|]).
        -- split; [intros k Hk; right; auto|].
           left. rewrite Hlog1, app_nil_r. split; [reflexivity|discriminate].
        -- split.
           ++ intros k Hk. apply elem_of_difference in Hk as [Hk Hne].
              rewrite elem_of_singleton in Hne. right. auto.
           ++ left. split; [reflexivity|discriminate].
    + intros [= <-]. eexists _, _; (split; [reflexivity|]); simpl.
      split; [reflexivity|]. split; [reflexivity|]. split; [simpl; lia|].
      split; [left; reflexivity|]. split.
      * intros k Hk. apply elem_of_difference in Hk as [Hk Hne].
        rewrite elem_of_singleton in Hne. right. auto.
      * left. split; [reflexivity|discriminate].
  - intros [= <-]. eexists _, _; (split; [reflexivity|]); simpl.
    split; [reflexivity|]. split; [reflexivity|]. split; [simpl; lia|].
    split; [left; reflexivity|]. split; [intros k Hk; right; auto|].
    left. auto.
  - unfold priceStage. simpl. destruct (rp && _); intros [= <-];
      eexists _, _; (split; [reflexivity|]); simpl;
      (split; [reflexivity|]); (split; [reflexivity|]); (split; [simpl; lia|]);
      (split; [right; eexists; reflexivity|]).
    + split; [intros k Hk; right; auto|].
      left. rewrite !Hlog1, !app_nil_r. auto.
    + split.
      * intros k Hk. apply elem_of_difference in Hk as [Hk Hne].
        rewrite elem_of_singleton in Hne. right. auto.
      * left. rewrite Hlog1, app_nil_r. auto.
  - intros [= <-]. eexists _, _; (split; [reflexivity|]); simpl.
    split; [reflexivity|]. split; [reflexivity|]. split; [simpl; lia|].
    split; [left; reflexivity|]. split; [intros k Hk; right; auto|].
    left. auto.
  - intros [= <-]. eexists _, _; (split; [reflexivity|]); simpl.
    split; [reflexivity|]. split; [reflexivity|]. split; [simpl; lia|].
    split; [right; eexists; reflexivity|]. split.
    + intros k Hk. apply elem_of_difference in Hk as [Hk Hne].
      rewrite elem_of_singleton in Hne. right. auto.
    + left. rewrite Hlog1, app_nil_r. auto.
Qed.

Lemma step_accounted i e s s' : accounted s -> step i e s = Some s' -> accounted s'.
Proof.
  intros Hacc Hstep.
  destruct (step_shape _ _ _ _ Hstep)
    as (t & t' & Hi & Htasks & Htarget & _ & _ & Hin & _).
  pose proof (lookup_lt_Some _ _ _ Hi) as Hlt.
  intros k Hk. destruct (Hin k Hk) as [[-> Hact]|[Hold Hcases]].
  - exists i, t'. rewrite Htasks, list_lookup_insert_eq by assumption. auto.
  - destruct (Hacc k Hold) as (j & tj & Hj & Hactj & Htj).
    destruct (decide (j = i)) as [->|Hne].
    + assert (tj = t) as -> by congruence.
      exists i, t'. rewrite Htasks, list_lookup_insert_eq by assumption.
      split; [reflexivity|]. split; [|congruence].
      destruct Hcases as [Hk'|[Ht'|Ht]]; [congruence|assumption|congruence].
    + exists j, tj. rewrite Htasks, list_lookup_insert_ne by congruence. auto.
Qed.

Lemma run_accounted sched s s' : accounted s -> run sched s = Some s' -> accounted s'.
Proof.
  revert s. induction sched as [|[i e] sched IH]; intros s Hs; simpl.
  - intros [= <-]. assumption.
  - destruct (step i e s) as [s1|] eqn:Hstep; [|discriminate].
    apply IH. eapply step_accounted; eassumption.
Qed.

Lemma list_sum_map_insert {A} (f : A -> nat) (l : list A) i x y :
  l !! i = Some x ->
  list_sum (map f (<[i := y]> l)) + f x = list_sum (map f l) + f y.
Proof.
  revert i. induction l as [|a l IH]; intros [|i]; simpl; try discriminate.
  - intros [= ->]. lia.
  - intros H. specialize (IH _ H). lia.
Qed.

Lemma step_segments i e s s' : step i e s = Some s' -> segments s' < segments s.
Proof.
  intros Hstep.
  destruct (step_shape _ _ _ _ Hstep) as (t & t' & Hi & Htasks & _ & Hlt & _).
  unfold segments. rewrite Htasks.
  pose proof (list_sum_map_insert (fun t => segmentsLeft (at_ t)) _ _ _ t' Hi).
  simpl in *. lia.
Qed.

Lemma run_segments sched s s' :
  run sched s = Some s' -> length sched + segments s' <= segments s.
Proof.
  revert s. induction sched as [|[i e] sched IH]; intros s; simpl.
  - intros [= <-]. lia.
  - destruct (step i e s) as [s1|] eqn:Hstep; [|discriminate]. intros Hrun.
    pose proof (step_segments _ _ _ _ Hstep). pose proof (IH _ Hrun). lia.
Qed.

Lemma segments_initial (db0 : gmap (list N) Item) fl (calls : list task) lg :
  Forall (fun t => at_ t = Called) calls ->
  segments (Sys db0 fl calls lg) = 6 * length calls.
Proof.
  unfold segments. simpl. induction 1 as [|t calls Ht _ IH]; [reflexivity|].
  cbn [map list_sum length]. change (list_sum (?a :: ?l)) with (a + list_sum l).
  rewrite IH, Ht. simpl. lia.
Qed.

Lemma step_enabled i e s t :
  tasks s !! i = Some t -> (forall b, at_ t <> Finished b) ->
  exists s', step i e s = Some s'.
Proof.
  intros Hi Hnot. unfold step. rewrite Hi.
  destruct (at_ t) as [| |doc|doc w|doc|w|b]; try (eexists; reflexivity).
  - destruct (bool_decide _); eexists; reflexivity.
  - destruct (db s !! target t); [|eexists; reflexivity].
    destruct (_ && _); eexists; reflexivity.
  - exfalso. apply (Hnot b). reflexivity.
Qed.

Lemma updateOne_lookup (key : str) (w : update) (db0 : gmap (list N) Item) (k : str) :
  updateOne key w db0 !! k =
  if decide (k = key) then applyUpdate w <$> db0 !! key else db0 !! k.
Proof.
  unfold updateOne. destruct (decide (k = key)) as [->|Hne].
  - destruct (db0 !! key) eqn:E; simpl; [apply lookup_insert_eq|exact E].
  - destruct (db0 !! key); [apply lookup_insert_ne; congruence|reflexivity].
Qed.

Lemma updateOne_dom (key : str) (w : update) (db0 : gmap (list N) Item) :
  dom (updateOne key w db0) = dom db0.
Proof.
  unfold updateOne. destruct (db0 !! key) eqn:E; [|reflexivity].
  apply dom_insert_lookup_L. rewrite E. eauto.
Qed.

Lemma applyUpdate_sheetFields w d : sheetFields (applyUpdate w d) = sheetFields d.
Proof. destruct w; reflexivity. Qed.

Lemma run_frame sched s s' :
  run sched s = Some s' ->
  map target (tasks s') = map target (tasks s)
  /\ dom (db s') = dom (db s)
  /\ (forall k d, db s !! k = Some d ->
        exists d', db s' !! k = Some d' /\ sheetFields d' = sheetFields d)
  /\ (forall k, k ∉ map target (tasks s) -> db s' !! k = db s !! k).
Proof.
  revert s. induction sched as [|[i e] sched IH]; intros s; simpl.
  - intros [= <-]. repeat split; eauto.
  - destruct (step i e s) as [s1|] eqn:Hstep; [|discriminate]. intros Hrun.
    destruct (IH _ Hrun) as (Ht & Hdom & Hsheet & Hother).
    destruct (step_shape _ _ _ _ Hstep)
      as (t & t' & Hi & Htasks & Htarget & _ & Hdb & _).
    assert (Ht1 : map target (tasks s1) = map target (tasks s)).
    { rewrite Htasks. change (map target) with (fmap (M := list) target).
      rewrite list_fmap_insert, Htarget. apply list_insert_id.
      rewrite list_lookup_fmap, Hi. reflexivity. }
    assert (Hin : target t ∈ map target (tasks s)).
    { change (map target) with (fmap (M := list) target).
      apply list_elem_of_fmap. exists t. split; [reflexivity|].
      eapply list_elem_of_lookup_2. exact Hi. }
    split; [congruence|]. split; [|split].
    + rewrite Hdom. destruct Hdb as [->|[w ->]]; [reflexivity|].
      apply updateOne_dom.
    + intros k d Hk.
      assert (H1 : exists d1, db s1 !! k = Some d1 /\ sheetFields d1 = sheetFields d).
      { destruct Hdb as [->|[w ->]]; [eauto|].
        rewrite updateOne_lookup. destruct (decide (k = target t)) as [->|Hne].
        - rewrite Hk. simpl. eexists. split; [reflexivity|].
          apply applyUpdate_sheetFields.
        - eauto. }
      destruct H1 as (d1 & Hk1 & Hs1).
      destruct (Hsheet _ _ Hk1) as (d' & Hk' & Hs'). exists d'.
      split; [assumption|congruence].
    + intros k Hk. rewrite Hother by (rewrite Ht1; exact Hk).
      destruct Hdb as [->|[w ->]]; [reflexivity|].
      rewrite updateOne_lookup. destruct (decide (k = target t)) as [->|Hne];
        [|reflexivity].
      exfalso. apply Hk. exact Hin.
Qed.

Lemma step_searchedOnce i e s s' :
  searchedOnce s -> step i e s = Some s' -> searchedOnce s'.
Proof.
  intros [Hnd Hread] Hstep.
  destruct (step_shape _ _ _ _ Hstep)
    as (t & t' & Hi & Htasks & _ & _ & _ & _ & Hlog).
  pose proof (lookup_lt_Some _ _ _ Hi) as Hlt.
  assert (Hkeep : forall j, j ∈ searchers (log s) ->
            exists tj, tasks s' !! j = Some tj /\ beforeFind tj = false).
  { intros j Hj. destruct (Hread j Hj) as (tj & Htj & Hbf).
    rewrite Htasks. destruct (decide (j = i)) as [->|Hne].
    - assert (tj = t) as -> by congruence.
      exists t'. rewrite list_lookup_insert_eq by assumption.
      split; [reflexivity|].
      destruct Hlog as [[_ Hbf']|(Hbt & _ & _)]; [auto|congruence].
    - exists tj. rewrite list_lookup_insert_ne by congruence. auto. }
  unfold searchedOnce. destruct Hlog as [[-> _]|(Hbt & Hbt' & ->)].
  - split; assumption.
  - split.
    + apply NoDup_app. split; [assumption|]. split; [|apply NoDup_singleton].
      intros j Hj Hji. apply list_elem_of_singleton in Hji. subst j.
      destruct (Hread i Hj) as (tj & Htj & Hbf). congruence.
    + intros j Hj. apply elem_of_app in Hj as [Hj|Hj]; [auto|].
      apply list_elem_of_singleton in Hj. subst j.
      exists t'. rewrite Htasks, list_lookup_insert_eq by assumption. auto.
Qed.

Lemma run_searchedOnce sched s s' :
  searchedOnce s -> run sched s = Some s' -> searchedOnce s'.
Proof.
  revert s. induction sched as [|[i e] sched IH]; intros s Hs; simpl.
  - intros [= <-]. assumption.
  - destruct (step i e s) as [s1|] eqn:Hstep; [|discriminate].
    apply IH. eapply step_searchedOnce; eassumption.
Qed.

Lemma searchedOnce_bound s :
  searchedOnce s -> length (searchers (log s)) <= length (tasks s).
Proof.
  intros [Hnd Hread].
  transitivity (length (seq 0 (length (tasks s)))); [|rewrite length_seq; lia].
  apply submseteq_length, NoDup_submseteq; [assumption|].
  intros i Hi. destruct (Hread i Hi) as (t & Ht & _).
  apply elem_of_seq. apply lookup_lt_Some in Ht. lia.
Qed.

Lemma run_tasks_length sched s s' :
  run sched s = Some s' -> length (tasks s') = length (tasks s).
Proof.
  intros H. destruct (run_frame _ _ _ H) as (Ht & _).
  apply (f_equal length) in Ht. rewrite !length_map in Ht. exact Ht.
Qed.

End RefreshMore.

(** X22. The in-flight set holds exactly the identifiers of the calls of
    [refreshOne] that are past the guard and have not returned: nothing
    stays behind when a call returns, by whichever path, and once every
    call has returned the set is empty. *)
Theorem inFlight_is_exact
    (db0 : gmap (list N) Persistent.Item) (calls : list Persistent.task)
    (sched : list (nat * Persistent.env)) (s : Persistent.sys) :
  Forall (fun t => Persistent.at_ t = Persistent.Called) calls ->
  Persistent.run sched (Persistent.Sys db0 ∅ calls []) = Some s ->
  (forall k,
      k ∈ Persistent.inFlight s <->
      exists i t, Persistent.tasks s !! i = Some t
                  /\ Persistent.active t = true /\ Persistent.target t = k)
  /\ ((forall i t, Persistent.tasks s !! i = Some t -> Persistent.active t = false) ->
      Persistent.inFlight s = ∅).
Proof.
  intros Hall Hrun.
  assert (Hacc : Persistent.accounted s).
  { eapply run_accounted; [|exact Hrun]. intros k Hk. simpl in Hk.
    apply elem_of_empty in Hk. destruct Hk. }
  pose proof (run_guarded _ _ _ (initial_guarded db0 calls Hall) Hrun) as Hg.
  split.
  - intros k. split; [apply Hacc|].
    intros (i & t & Hi & Hact & <-).
    apply (Persistent.holders_in_flight _ Hg _ _ Hi Hact).
  - intros Hnone. apply set_eq. intros k. rewrite elem_of_empty.
    split; [|tauto]. intros Hk.
    destruct (Hacc k Hk) as (i & t & Hi & Hact & _).
    rewrite (Hnone _ _ Hi) in Hact. discriminate.
Qed.

Lemma inFlight_is_exact_witness :
  let key := u "AK-47 | Redline (Field-Tested)" in
  let e :=
    Persistent.Env 1000 (BadBody (u "eof")) Persistent.fetchSteamPrice in
  let calls := [Persistent.Task key false true Persistent.Called] in
  exists s,
    Persistent.run [(0, e); (0, e)]%nat (Persistent.Sys ∅ ∅ calls []) = Some s
    /\ Persistent.inFlight s = ∅.
Proof.
  intros key e calls.
  destruct (Persistent.run [(0, e); (0, e)]%nat (Persistent.Sys ∅ ∅ calls []))
    as [s|] eqn:Hrun; [|vm_compute in Hrun; discriminate].
  exists s. split; [reflexivity|].
  assert (Hcalls : Forall (fun t => Persistent.at_ t = Persistent.Called) calls)
    by (repeat constructor).
  destruct (inFlight_is_exact ∅ calls _ s Hcalls Hrun) as [_ Hempty].
  apply Hempty. intros i t Hi.
  assert (Ht : Persistent.tasks s
               = [Persistent.Task key false true (Persistent.Finished true)]).
  { vm_compute in Hrun. injection Hrun as <-. reflexivity. }
  rewrite Ht in Hi. destruct i as [|i]; [|destruct i; discriminate].
  injection Hi as <-. reflexivity.
Defined.

(** X23. Every call of [refreshOne] returns: a call that has not returned
    can always run its next segment, whatever the other calls are doing,
    and no call runs more than six segments, so that any interleaving of
    [n] calls is at most [6 n] segments long. *)
Theorem refreshOne_always_returns
    (db0 : gmap (list N) Persistent.Item) (calls : list Persistent.task)
    (sched : list (nat * Persistent.env)) (s : Persistent.sys) :
  Forall (fun t => Persistent.at_ t = Persistent.Called) calls ->
  Persistent.run sched (Persistent.Sys db0 ∅ calls []) = Some s ->
  (length sched <= 6 * length calls)%nat
  /\ (forall i t e,
      Persistent.tasks s !! i = Some t ->
      (forall b, Persistent.at_ t <> Persistent.Finished b) ->
      exists s', Persistent.step i e s = Some s').
Proof.
  intros Hall Hrun. split.
  - pose proof (run_segments _ _ _ Hrun) as H.
    rewrite (segments_initial db0 ∅ calls [] Hall) in H. lia.
  - intros i t e Hi Hnot. eapply step_enabled; eassumption.
Qed.

Lemma refreshOne_always_returns_witness :
  let key := u "AK-47 | Redline (Field-Tested)" in
  let e :=
    Persistent.Env 1000 (BadBody (u "eof")) Persistent.fetchSteamPrice in
  let calls := [Persistent.Task key false true Persistent.Called] in
  (length [(0%nat, e); (0%nat, e)] <= 6 * length calls)%nat.
Proof.
  intros key e calls.
  destruct (Persistent.run [(0, e); (0, e)]%nat (Persistent.Sys ∅ ∅ calls []))
    as [s|] eqn:Hrun; [|vm_compute in Hrun; discriminate].
  assert (Hcalls : Forall (fun t => Persistent.at_ t = Persistent.Called) calls)
    by (repeat constructor).
  exact (proj1 (refreshOne_always_returns ∅ calls _ s Hcalls Hrun)).
Defined.

(** X24. Whatever the calls of [refreshOne] and however they interleave,
    the store keeps its keys (nothing is inserted or deleted), every
    record keeps its sheet fields, and a record that is the target of no
    call is not touched at all. *)
Theorem refreshOne_store_frame
    (sched : list (nat * Persistent.env)) (s s' : Persistent.sys) :
  Persistent.run sched s = Some s' ->
  dom (Persistent.db s') = dom (Persistent.db s)
  /\ (forall k d, Persistent.db s !! k = Some d ->
        exists d', Persistent.db s' !! k = Some d'
                   /\ Persistent.sheetFields d' = Persistent.sheetFields d)
  /\ (forall k, k ∉ map Persistent.target (Persistent.tasks s) ->
        Persistent.db s' !! k = Persistent.db s !! k).
Proof. intros Hrun. apply (run_frame _ _ _ Hrun). Qed.

Lemma refreshOne_store_frame_witness :
  let key := u "AK-47 | Redline (Field-Tested)" in
  let other := u "Glock-18 | Fade (Factory New)" in
  let d k :=
    Persistent.MkItem k k None (Some 9%Q) None None None [k] 100
      None None None None None None None None in
  let e :=
    Persistent.Env 1000 (HttpError (u "500") (u "Internal Server Error"))
      Persistent.fetchSteamPrice in
  let s := Persistent.Sys (<[key := d key]> {[ other := d other ]}) ∅
             [Persistent.Task key true true Persistent.Called] [] in
  exists s',
    Persistent.run [(0, e); (0, e); (0, e); (0, e); (0, e); (0, e)]%nat s = Some s'
    /\ Persistent.db s' !! other = Some (d other).
Proof.
  intros key other d e s.
  destruct (Persistent.run [(0, e); (0, e); (0, e); (0, e); (0, e); (0, e)]%nat s)
    as [s'|] eqn:Hrun; [|vm_compute in Hrun; discriminate].
  exists s'. split; [reflexivity|].
  destruct (refreshOne_store_frame _ _ _ Hrun) as (_ & _ & Hother).
  rewrite Hother.
  - reflexivity.
  - simpl. intros H. apply list_elem_of_singleton in H. discriminate H.
Defined.

(** X25. No call of [refreshOne] sends more than one search request: in
    any interleaving of [n] calls at most [n] requests reach the search
    endpoint, and one cycle of [refreshLoop], which makes one call per
    candidate and keeps at most 60 candidates, sends at most 60. *)
Theorem search_requests_bounded :
  (forall (db0 : gmap (list N) Persistent.Item) calls sched s,
      Forall (fun t => Persistent.at_ t = Persistent.Called) calls ->
      Persistent.run sched (Persistent.Sys db0 ∅ calls []) = Some s ->
      (length (Persistent.searchers (Persistent.log s)) <= length calls)%nat)
  /\ (forall (db0 : gmap (list N) Persistent.Item) clock docs sched s,
      Persistent.run sched
        (Persistent.Sys db0 ∅ (Persistent.loopCalls clock docs) []) = Some s ->
      (length (Persistent.searchers (Persistent.log s)) <= 60)%nat).
Proof.
  assert (Hgen : forall (db0 : gmap (list N) Persistent.Item) calls sched s,
      Persistent.run sched (Persistent.Sys db0 ∅ calls []) = Some s ->
      (length (Persistent.searchers (Persistent.log s)) <= length calls)%nat).
  { intros db0 calls sched s Hrun.
    assert (H0 : Persistent.searchedOnce (Persistent.Sys db0 ∅ calls [])).
    { split; simpl; [constructor|]. intros i Hi. apply elem_of_nil in Hi.
      destruct Hi. }
    pose proof (searchedOnce_bound _ (run_searchedOnce _ _ _ H0 Hrun)) as Hb.
    rewrite (run_tasks_length _ _ _ Hrun) in Hb. exact Hb. }
  split.
  - intros db0 calls sched s _ Hrun. eapply Hgen. exact Hrun.
  - intros db0 clock docs sched s Hrun.
    pose proof (Hgen _ _ _ _ Hrun) as Hb.
    unfold Persistent.loopCalls, Persistent.candidates in Hb.
    rewrite length_map, length_take in Hb. lia.
Qed.

Lemma search_requests_bounded_witness :
  let key := u "AK-47 | Redline (Field-Tested)" in
  let d :=
    Persistent.MkItem key key None (Some 9%Q) None None None [key] 100
      None None None None None None None None in
  let e :=
    Persistent.Env 1000 (BadBody (u "eof")) Persistent.fetchSteamPrice in
  let calls := [Persistent.Task key true true Persistent.Called;
                Persistent.Task key true true Persistent.Called] in
  exists s,
    Persistent.run [(0, e); (1, e); (0, e); (0, e); (0, e)]%nat
      (Persistent.Sys {[ key := d ]} ∅ calls []) = Some s
    /\ (length (Persistent.searchers (Persistent.log s)) <= 2)%nat.
Proof.
  intros key d e calls.
  destruct (Persistent.run [(0, e); (1, e); (0, e); (0, e); (0, e)]%nat
              (Persistent.Sys {[ key := d ]} ∅ calls [])) as [s|] eqn:Hrun;
    [|vm_compute in Hrun; discriminate].
  exists s. split; [reflexivity|].
  destruct search_requests_bounded as [H _].
  assert (Hcalls : Forall (fun t => Persistent.at_ t = Persistent.Called) calls)
    by (repeat constructor).
  exact (H {[ key := d ]} calls [(0, e); (1, e); (0, e); (0, e); (0, e)]%nat s
           Hcalls Hrun).
Defined.

(** ** What the image lookup returns, and when it is repeated *)

Section ImageResult.

Lemma unescapeAmp_truthy (s : str) : truthy s = true -> truthy (unescapeAmp s) = true.
Proof.
  destruct s as [|c r]; [discriminate|]. intros _.
  assert (H : exists c' r', unescapeAmp (c :: r) = c' :: r').
  { simpl.
    repeat match goal with
           | |- context [match ?x with _ => _ end] => destruct x
           end; eauto. }
  destruct H as (c' & r' & ->). reflexivity.
Qed.

Lemma replaceAll_truthy (s : str) : truthy s = true -> truthy (replaceAll s) = true.
Proof.
  destruct s as [|c r]; [discriminate|]. intros _.
  unfold replaceAll. simpl.
  destruct (c =? SLASH); [|reflexivity].
  destruct (matchTok r); reflexivity.
Qed.

Lemma replaceAnchored_truthy (s : str) :
  truthy s = true -> truthy (replaceAnchored s) = true.
Proof.
  destruct s as [|c r]; [discriminate|]. intros _. simpl.
  destruct (c =? SLASH); [|reflexivity].
  destruct (matchTok r) as [[|? ?]|]; reflexivity.
Qed.

Lemma truthy_app_r (a b : str) : truthy b = true -> truthy (a ++ b) = true.
Proof. destruct a; [auto|reflexivity]. Qed.

Lemma attemptB_truthy (data : json) (src : str) :
  Shared.attemptB data = Ret (Some src) -> truthy src = true.
Proof.
  unfold Shared.attemptB.
  assert (Hs : forall found : option str,
             match found with
             | Some m1 => if truthy m1 then Some (unescapeAmp m1) else None
             | None => None
             end = Some src -> truthy src = true).
  { intros [m1|]; [|discriminate]. destruct (truthy m1) eqn:Hm; [|discriminate].
    intros [= <-]. apply unescapeAmp_truthy. assumption. }
  destruct (getField (u "results_html") data) as [v|].
  - destruct (truthyJ v).
    + destruct v; try discriminate. intros [= H]; revert H; apply Hs.
    + intros [= H]; revert H; apply Hs.
  - intros [= H]; revert H; apply Hs.
Qed.

Lemma resolveImage_truthy (probe : json -> option str) (base : str)
    (upgrade : str -> str) (data : json) (url : str) :
  (forall s, truthy s = true -> truthy (upgrade s) = true) ->
  Shared.resolveImage probe base upgrade data = Ret (Some url) ->
  truthy url = true.
Proof.
  intros Hup. unfold Shared.resolveImage.
  assert (HB : match Shared.attemptB data with
               | Throw e => Throw e
               | Ret (Some src) => Ret (Some (upgrade src))
               | Ret None => Ret None
               end = Ret (Some url) -> truthy url = true).
  { destruct (Shared.attemptB data) as [[src|]|err] eqn:HB; try discriminate.
    intros [= <-]. apply Hup. apply (attemptB_truthy _ _ HB). }
  destruct (Shared.attemptA probe data) as [i|]; [|exact HB].
  destruct (truthy i) eqn:Hi; [|exact HB].
  intros H.
  assert (E : url = upgrade (if startsWith (u "http") i then i else base ++ i))
    by congruence.
  rewrite E. apply Hup.
  destruct (startsWith (u "http") i); [assumption|].
  apply truthy_app_r. assumption.
Qed.

Lemma upgrade_global_truthy (s : str) :
  truthy s = true -> truthy (Persistent.upgradeSteamImageSize s) = true.
Proof.
  intros H. unfold Persistent.upgradeSteamImageSize. rewrite H. simpl.
  apply replaceAll_truthy. assumption.
Qed.

Lemma upgrade_anchored_truthy (s : str) :
  truthy s = true -> truthy (Memory.upgradeSteamImageSize s) = true.
Proof.
  intros H. unfold Memory.upgradeSteamImageSize. rewrite H. simpl.
  apply replaceAnchored_truthy. assumption.
Qed.

Lemma fetchSteamImage_truthy (key : str) (r : reply) (url : str) :
  Persistent.fetchSteamImage key r = Ret (Some url) -> truthy url = true.
Proof.
  unfold Persistent.fetchSteamImage.
  destruct (negb (wellFormed key)); [discriminate|].
  destruct r as [? ?|?|data]; try discriminate.
  apply resolveImage_truthy. apply upgrade_global_truthy.
Qed.

End ImageResult.

(** X26. The image lookup never yields the empty string: in each of the
    three revisions, when the reply of the search endpoint resolves to a
    url, that url is a non-empty string; the only other results are
    [null] and an error. *)
Theorem fetchSteamImage_url_never_empty :
  (forall data url,
      Shared.resolveImage Basic.probe Basic.STATIC_BASE (fun url => url) data
      = Ret (Some url) -> truthy url = true)
  /\ (forall data url,
      Shared.resolveImage Memory.probe Memory.STATIC_BASE
        Memory.upgradeSteamImageSize data
      = Ret (Some url) -> truthy url = true)
  /\ (forall key r url,
      Persistent.fetchSteamImage key r = Ret (Some url) -> truthy url = true).
Proof.
  split; [|split].
  - intros data url. apply resolveImage_truthy. auto.
  - intros data url. apply resolveImage_truthy. apply upgrade_anchored_truthy.
  - apply fetchSteamImage_truthy.
Qed.

Lemma fetchSteamImage_url_never_empty_witness :
  let html :=
    u "<img id=x src=" ++ [QUOTE] ++ u "https://cdn/a?b=1&amp;c=2/62fx62f"
      ++ [QUOTE] ++ u ">" in
  let r := Body (JObj [(u "results_html", JStr html)]) in
  let key := u "AK-47 | Redline (Field-Tested)" in
  Persistent.fetchSteamImage key r
  = Ret (Some (u "https://cdn/a?b=1&c=2/360fx360f"))
  /\ truthy (u "https://cdn/a?b=1&c=2/360fx360f") = true.
Proof.
  intros html r key.
  assert (H : Persistent.fetchSteamImage key r
              = Ret (Some (u "https://cdn/a?b=1&c=2/360fx360f")))
    by (vm_compute; reflexivity).
  split; [exact H|].
  destruct fetchSteamImage_url_never_empty as (_ & _ & Hp).
  exact (Hp key r _ H).
Defined.

Section RetryPolicy.

Import Persistent.

Lemma step_at_find (i : nat) (e : env) (s : sys) (t : task) (d : Item) :
  tasks s !! i = Some t -> at_ t = AwaitFind -> refreshImage t = true ->
  db s !! target t = Some d ->
  exists s', step i e s = Some s'
    /\ if isStale (now e) (imageUpdatedAt d) IMAGE_TTL_MS || missing (imageUrl d)
       then log s' = log s ++ (if wellFormed (target t)
                               then [(i, Search (target t))] else [])
            /\ tasks s' !! i
               = Some (Task (target t) (refreshPrice t) (refreshImage t)
                         (AwaitImage d))
       else searchers (log s') = searchers (log s).
Proof.
  intros Hi Hat Hri Hd. pose proof (lookup_lt_Some _ _ _ Hi) as Hlt.
  unfold step. rewrite Hi, Hat, Hd, Hri. simpl.
  destruct (isStale (now e) (imageUpdatedAt d) IMAGE_TTL_MS || missing (imageUrl d)).
  - eexists. split; [reflexivity|].
    destruct (wellFormed (target t)); simpl;
      (split; [rewrite ?app_nil_r; reflexivity|]);
      rewrite ?Hri; apply list_lookup_insert_eq; exact Hlt.
  - eexists. split; [reflexivity|]. unfold priceStage.
    destruct (refreshPrice t && isStale (now e) (steamUpdatedAt d) PRICE_TTL_MS);
      simpl; [|reflexivity].
    unfold searchers. rewrite omap_app. simpl. rewrite app_nil_r. reflexivity.
Qed.

End RetryPolicy.

(** X27. When a call of [refreshOne] that asks for the image reads a
    record last written by an image refresh: if that refresh found a
    url, the call sends a search request only when more than seven days
    have passed since; if it found nothing ([null]), the call searches
    again however little time has passed; and if it failed, the call does
    what it would have done before the failed refresh.  A call that
    searches goes on to await the image lookup, and its request is sent
    unless the identifier cannot be encoded. *)
Theorem refreshOne_image_retry_policy
    (i : nat) (e0 e : Persistent.env) (s : Persistent.sys)
    (t : Persistent.task) (d : Persistent.Item) :
  Persistent.tasks s !! i = Some t ->
  Persistent.at_ t = Persistent.AwaitFind ->
  Persistent.refreshImage t = true ->
  Persistent.db s !! Persistent.target t
  = Some (Persistent.applyUpdate
            (Persistent.imageWrite (Persistent.target t) e0) d) ->
  exists s',
    Persistent.step i e s = Some s'
    /\ let searched :=
         Persistent.log s'
         = Persistent.log s
           ++ (if wellFormed (Persistent.target t)
               then [(i, Persistent.Search (Persistent.target t))] else [])
         /\ Persistent.tasks s' !! i
            = Some (Persistent.Task (Persistent.target t)
                      (Persistent.refreshPrice t) (Persistent.refreshImage t)
                      (Persistent.AwaitImage
                         (Persistent.applyUpdate
                            (Persistent.imageWrite (Persistent.target t) e0) d))) in
       let quiet :=
         Persistent.searchers (Persistent.log s')
         = Persistent.searchers (Persistent.log s) in
       match Persistent.fetchSteamImage (Persistent.target t)
               (Persistent.searchReply e0) with
       | Ret (Some _) =>
           if (Persistent.now e - Persistent.now e0 >? Persistent.IMAGE_TTL_MS)%Z
           then searched else quiet
       | Ret None => searched
       | Throw _ =>
           if Persistent.isStale (Persistent.now e) (Persistent.imageUpdatedAt d)
                Persistent.IMAGE_TTL_MS
              || Persistent.missing (Persistent.imageUrl d)
           then searched else quiet
       end.
Proof.
  intros Hi Hat Hri Hd.
  destruct (step_at_find i e s t _ Hi Hat Hri Hd) as (s' & Hs & Hlog).
  exists s'. split; [exact Hs|]. cbv zeta.
  unfold Persistent.imageWrite in Hlog |- *.
  destruct (Persistent.fetchSteamImage (Persistent.target t)
              (Persistent.searchReply e0))
    as [[url|]|err] eqn:Hf; simpl in Hlog.
  - rewrite (fetchSteamImage_truthy _ _ _ Hf) in Hlog. simpl in Hlog.
    rewrite orb_false_r in Hlog. exact Hlog.
  - rewrite orb_true_r in Hlog. exact Hlog.
  - exact Hlog.
Qed.

Lemma refreshOne_image_retry_policy_witness :
  let key := u "AK-47 | Redline (Field-Tested)" in
  let d :=
    Persistent.MkItem key key None (Some 9%Q) None None None [key] 100
      None None None None None None None None in
  let e0 := Persistent.Env 1000 (Body (JObj [])) Persistent.fetchSteamPrice in
  let e := Persistent.Env 1001 (Body (JObj [])) Persistent.fetchSteamPrice in
  let s :=
    Persistent.Sys {[ key := Persistent.applyUpdate (Persistent.imageWrite key e0) d ]}
      {[ key ]} [Persistent.Task key false true Persistent.AwaitFind] [] in
  exists s',
    Persistent.step 0 e s = Some s'
    /\ Persistent.log s' = [(0%nat, Persistent.Search key)].
Proof.
  intros key d e0 e s.
  assert (Hd : Persistent.db s !! key
               = Some (Persistent.applyUpdate (Persistent.imageWrite key e0) d))
    by apply lookup_singleton_eq.
  destruct (refreshOne_image_retry_policy 0 e0 e s
              (Persistent.Task key false true Persistent.AwaitFind) d
              eq_refl eq_refl eq_refl Hd) as (s' & Hs & Hlog & _).
  exists s'. split; [exact Hs|]. exact Hlog.
Defined.

Section StoredOnly.

Import Persistent.

Lemma initial_stocked (db0 : gmap (list N) Item) (calls : list task) :
  Forall (fun t => at_ t = Called) calls ->
  stocked (Sys db0 ∅ calls []).
Proof.
  intros Hall. split; simpl.
  - intros i t Hi Hh. rewrite Forall_lookup in Hall.
    specialize (Hall _ _ Hi). unfold holdsRecord in Hh. rewrite Hall in Hh.
    discriminate.
  - intros i a H. apply elem_of_nil in H. destruct H.
Qed.

Lemma step_acts (i : nat) (e : env) (s s' : sys) :
  step i e s = Some s' ->
  exists t t' acts,
    tasks s !! i = Some t
    /\ tasks s' = <[i := t']> (tasks s)
    /\ target t' = target t
    /\ log s' = log s ++ map (fun a => (i, a)) acts
    /\ Forall (fun a => actionKey a = target t) acts
    /\ (holdsRecord t' = true \/ acts <> [] ->
        holdsRecord t = true \/ target t ∈ dom (db s)).
Proof.
  unfold step. destruct (tasks s !! i) as [t|] eqn:Hi; [|discriminate].
  destruct t as [key rp ri p]. simpl.
  destruct p as [| |doc|doc w|doc|w|worked]; try discriminate.
  - destruct (bool_decide (key ∈ inFlight s)); intros [= <-];
      exists (Task key rp ri Called); eexists _, [];
      (split; [reflexivity|]); simpl;
      (split; [reflexivity|]); (split; [reflexivity|]);
      (split; [rewrite app_nil_r; reflexivity|]); (split; [constructor|]);
      intros [H|H]; [discriminate|congruence|discriminate|congruence].
  - destruct (db s !! key) as [doc|] eqn:Hdoc.
    + assert (Hin : key ∈ dom (db s)) by (apply elem_of_dom; eauto).
      destruct (ri && _).
      * destruct (wellFormed key); intros [= <-].
        -- exists (Task key rp ri AwaitFind). eexists _, [Search key].
           split; [reflexivity|]. simpl. split; [reflexivity|]. split; [reflexivity|].
           split; [reflexivity|]. split; [repeat constructor|]. auto.
        -- exists (Task key rp ri AwaitFind). eexists _, [].
           split; [reflexivity|]. simpl. split; [reflexivity|]. split; [reflexivity|].
           split; [rewrite app_nil_r; reflexivity|]. split; [constructor|]. auto.
      * unfold priceStage. simpl. destruct (rp && _); intros [= <-].
        -- exists (Task key rp ri AwaitFind). eexists _, [PriceLookup key].
           split; [reflexivity|]. simpl. split; [reflexivity|]. split; [reflexivity|].
           split; [reflexivity|]. split; [repeat constructor|]. auto.
        -- exists (Task key rp ri AwaitFind). eexists _, [].
           split; [reflexivity|]. simpl. split; [reflexivity|]. split; [reflexivity|].
           split; [rewrite app_nil_r; reflexivity|]. split; [constructor|]. auto.
    + intros [= <-]. exists (Task key rp ri AwaitFind). eexists _, [].
      split; [reflexivity|]. simpl. split; [reflexivity|]. split; [reflexivity|].
      split; [rewrite app_nil_r; reflexivity|]. split; [constructor|].
      intros [H|H]; [discriminate|congruence].
  - intros [= <-]. exists (Task key rp ri (AwaitImage doc)). eexists _, [].
    split; [reflexivity|]. simpl. split; [reflexivity|]. split; [reflexivity|].
    split; [rewrite app_nil_r; reflexivity|]. split; [constructor|]. auto.
  - unfold priceStage. simpl. destruct (rp && _); intros [= <-].
    + exists (Task key rp ri (AwaitImageWrite doc w)).
      eexists _, [Write key w; PriceLookup key].
      split; [reflexivity|]. simpl. split; [reflexivity|]. split; [reflexivity|].
      split; [rewrite <- app_assoc; reflexivity|].
      split; [repeat constructor|]. auto.
    + exists (Task key rp ri (AwaitImageWrite doc w)). eexists _, [Write key w].
      split; [reflexivity|]. simpl. split; [reflexivity|]. split; [reflexivity|].
      split; [reflexivity|]. split; [repeat constructor|]. auto.
  - intros [= <-]. exists (Task key rp ri (AwaitPrice doc)). eexists _, [].
    split; [reflexivity|]. simpl. split; [reflexivity|]. split; [reflexivity|].
    split; [rewrite app_nil_r; reflexivity|]. split; [constructor|]. auto.
  - intros [= <-]. exists (Task key rp ri (AwaitPriceWrite w)). eexists _, [Write key w].
    split; [reflexivity|]. simpl. split; [reflexivity|]. split; [reflexivity|].
    split; [reflexivity|]. split; [repeat constructor|]. auto.
Qed.

Lemma step_stocked (i : nat) (e : env) (s s' : sys) :
  stocked s -> step i e s = Some s' -> stocked s'.
Proof.
  intros [Hrec Hlog] Hstep.
  destruct (step_shape _ _ _ _ Hstep) as (t0 & t0' & Hi0 & _ & _ & _ & Hdb & _).
  destruct (step_acts _ _ _ _ Hstep)
    as (t & t' & acts & Hi & Htasks & Htarget & Hlog' & Hacts & Hheld).
  assert (Hdom : dom (db s') = dom (db s)).
  { destruct Hdb as [->|(w & ->)]; [reflexivity|]. apply updateOne_dom. }
  pose proof (lookup_lt_Some _ _ _ Hi) as Hlt.
  assert (Hkey : holdsRecord t' = true \/ acts <> [] -> target t ∈ dom (db s)).
  { intros H. destruct (Hheld H) as [Hh|Hin]; [|exact Hin].
    apply (Hrec _ _ Hi Hh). }
  split.
  - intros j tj. rewrite Htasks, Hdom.
    destruct (decide (j = i)) as [->|Hne].
    + rewrite list_lookup_insert_eq by assumption. intros [= <-] Hh.
      rewrite Htarget. apply Hkey. left. exact Hh.
    + rewrite list_lookup_insert_ne by congruence. apply Hrec.
  - intros j a. rewrite Hlog', Hdom, Htasks. rewrite elem_of_app.
    intros [Hold|Hnew].
    + destruct (Hlog _ _ Hold) as (Hin & tj & Hj & Htj). split; [exact Hin|].
      destruct (decide (j = i)) as [->|Hne].
      * exists t'. rewrite list_lookup_insert_eq by assumption.
        split; [reflexivity|]. congruence.
      * exists tj. rewrite list_lookup_insert_ne by congruence. auto.
    + apply list_elem_of_fmap in Hnew as (a' & [= -> ->] & Ha').
      rewrite Forall_forall in Hacts.
      assert (Hk : actionKey a' = target t).
      { apply Hacts. exact Ha'. }
      rewrite Hk. split.
      * apply Hkey. right. intros ->. apply elem_of_nil in Ha'. exact Ha'.
      * exists t'. rewrite list_lookup_insert_eq by assumption. auto.
Qed.

Lemma run_stocked (sched : list (nat * env)) (s s' : sys) :
  stocked s -> run sched s = Some s' -> stocked s'.
Proof.
  revert s. induction sched as [|[i e] sched IH]; intros s Hs; simpl.
  - intros [= <-]. exact Hs.
  - destruct (step i e s) as [s1|] eqn:Hstep; [|discriminate].
    apply IH. eapply step_stocked; eassumption.
Qed.

End StoredOnly.

(** X28. [refreshOne] acts only on stored records: under any
    interleaving of any calls, every search request, price request and
    write is for the identifier the acting call was given, and that
    identifier has a record in the store, at the start as at the end. *)
Theorem refreshOne_acts_only_on_stored_records
    (db0 : gmap (list N) Persistent.Item) (calls : list Persistent.task)
    (sched : list (nat * Persistent.env)) (s : Persistent.sys)
    (i : nat) (a : Persistent.action) :
  Forall (fun t => Persistent.at_ t = Persistent.Called) calls ->
  Persistent.run sched (Persistent.Sys db0 ∅ calls []) = Some s ->
  (i, a) ∈ Persistent.log s ->
  Persistent.actionKey a ∈ dom db0
  /\ Persistent.actionKey a ∈ dom (Persistent.db s)
  /\ exists t, calls !! i = Some t /\ Persistent.target t = Persistent.actionKey a.
Proof.
  intros Hall Hrun Hlog.
  destruct (run_stocked _ _ _ (initial_stocked db0 calls Hall) Hrun) as [_ H].
  destruct (H _ _ Hlog) as (Hin & t & Hi & Ht).
  destruct (run_frame _ _ _ Hrun) as (Htargets & Hdom & _).
  simpl in Hdom, Htargets.
  split; [rewrite <- Hdom; exact Hin|]. split; [exact Hin|].
  assert (Hm : map Persistent.target (Persistent.tasks s) !! i
               = Some (Persistent.target t)).
  { rewrite list_lookup_fmap, Hi. reflexivity. }
  rewrite Htargets, list_lookup_fmap in Hm.
  destruct (calls !! i) as [t0|]; [|discriminate].
  exists t0. split; [reflexivity|]. simpl in Hm. congruence.
Qed.

Lemma refreshOne_acts_only_on_stored_records_witness :
  let key := u "AK-47 | Redline (Field-Tested)" in
  let d :=
    Persistent.MkItem key key None (Some 9%Q) None None None [key] 100
      None None None None None None None None in
  let e :=
    Persistent.Env 1000 (BadBody (u "eof")) Persistent.fetchSteamPrice in
  let calls := [Persistent.Task (u "gone") true true Persistent.Called;
                Persistent.Task key true true Persistent.Called] in
  exists s,
    Persistent.run [(0, e); (1, e); (0, e); (1, e)]%nat
      (Persistent.Sys {[ key := d ]} ∅ calls []) = Some s
    /\ Persistent.log s = [(1%nat, Persistent.Search key)]
    /\ key ∈ dom ({[ key := d ]} : gmap (list N) Persistent.Item).
Proof.
  intros key d e calls.
  destruct (Persistent.run [(0, e); (1, e); (0, e); (1, e)]%nat
              (Persistent.Sys {[ key := d ]} ∅ calls [])) as [s|] eqn:Hrun;
    [|vm_compute in Hrun; discriminate].
  assert (Hlog : Persistent.log s = [(1%nat, Persistent.Search key)]).
  { vm_compute in Hrun. injection Hrun as <-. reflexivity. }
  exists s. split; [reflexivity|]. split; [exact Hlog|].
  assert (Hcalls : Forall (fun t => Persistent.at_ t = Persistent.Called) calls)
    by (repeat constructor).
  assert (Hin : (1%nat, Persistent.Search key) ∈ Persistent.log s).
  { rewrite Hlog. apply list_elem_of_singleton. reflexivity. }
  exact (proj1 (refreshOne_acts_only_on_stored_records {[ key := d ]} calls
                  [(0, e); (1, e); (0, e); (1, e)]%nat s 1 (Persistent.Search key)
                  Hcalls Hrun Hin)).
Defined.

(** ** [mapLimit] for any limit *)

Section MapLimitMore.

Local Open Scope nat_scope.

Context {A B : Type}.
Variable items : list A.
Variable fn : A -> nat -> B.







End MapLimitMore.


(** ** Attempt B of the image lookup *)

Section AttemptB.

Local Open Scope nat_scope.

Lemma many_inv {R} (cls : char -> bool) (k : str -> option R) (least : nat)
    (s : str) (r : R) :
  many cls k least s = Some r ->
  exists pre post,
    s = pre ++ post /\ Forall (fun c => cls c = true) pre
    /\ least <= length pre /\ k post = Some r.
Proof.
  revert least. induction s as [|c s IH]; intros least; simpl.
  - destruct least; [|discriminate]. intros H. exists [], []. auto.
  - assert (Hstop : match least with O => k (c :: s) | S _ => None end = Some r ->
              exists pre post,
                c :: s = pre ++ post /\ Forall (fun c => cls c = true) pre
                /\ least <= length pre /\ k post = Some r).
    { destruct least; [|discriminate]. intros H. exists [], (c :: s). auto. }
    destruct (cls c) eqn:Hc; [|exact Hstop].
    destruct (many cls k (pred least) s) as [r'|] eqn:Hm; [|exact Hstop].
    intros [= ->]. destruct (IH _ Hm) as (pre & post & -> & Hpre & Hlen & Hk).
    exists (c :: pre), post. simpl. repeat split; auto. lia.
Qed.

Lemma lit_inv (p s r : str) :
  lit true p s = Some r ->
  exists mid, s = mid ++ r /\ Forall2 (fun a b => fold_case a = fold_case b) p mid.
Proof.
  revert s. induction p as [|a p IH]; intros s; simpl.
  - intros [= ->]. exists []. auto.
  - destruct s as [|b s]; [discriminate|].
    destruct (fold_case a =? fold_case b)%N eqn:E; [|discriminate].
    apply N.eqb_eq in E. intros H.
    destruct (IH _ H) as (mid & -> & Hmid). exists (b :: mid). auto.
Qed.

(** The literal [steamstatic] does not match a double quote. *)
Lemma steamstatic_unquoted (mid : str) :
  Forall2 (fun a b => fold_case a = fold_case b) (u "steamstatic") mid ->
  Forall (fun c => notQuote c = true) mid.
Proof.
  assert (Hq : forall a b, fold_case a = fold_case b -> fold_case a <> 34%N ->
                 notQuote b = true).
  { intros a b E Ha. unfold notQuote. apply negb_true_iff, N.eqb_neq.
    intros ->. apply Ha. rewrite E. reflexivity. }
  assert (Hs : Forall (fun a => fold_case a <> 34%N) (u "steamstatic")).
  { vm_compute. repeat constructor; discriminate. }
  revert Hs. generalize (u "steamstatic"). intros p Hs H.
  induction H as [|a b p mid E _ IH]; [constructor|].
  apply Forall_cons in Hs as [Ha Hs]. constructor; eauto.
Qed.

(** What follows group 1 in both patterns does not capture. *)
Lemma tail_keeps_capture (from cap s : str) (r : str * str) :
  matchHere [Lit true [QUOTE]; Many 0 notGt; Lit true (u ">")] from cap s = Some r ->
  fst r = cap.
Proof.
  cbn [matchHere].
  destruct (lit true [QUOTE] s) as [s1|]; [|discriminate].
  intros H. apply many_inv in H as (pre & post & _ & _ & _ & H).
  destruct (lit true (u ">") post); [|discriminate].
  injection H as <-. reflexivity.
Qed.

Lemma take_prefix (a b : str) : take (length (a ++ b) - length b) (a ++ b) = a.
Proof.
  rewrite length_app. replace (length a + length b - length b) with (length a) by lia.
  apply take_app_length.
Qed.

Lemma IMG_ANY_capture (s cap rest : str) :
  matchHere IMG_ANY [] [] s = Some (cap, rest) ->
  cap <> [] /\ Forall (fun c => notQuote c = true) cap.
Proof.
  unfold IMG_ANY. cbn [matchHere].
  destruct (lit true (u "<img") s) as [s1|]; [|discriminate].
  intros H. apply many_inv in H as (_ & s2 & _ & _ & _ & H).
  destruct (lit true (u "src=" ++ [QUOTE]) s2) as [s3|]; [|discriminate].
  apply many_inv in H as (pre & post & -> & Hpre & Hlen & H).
  rewrite take_prefix in H. apply (tail_keeps_capture [] pre post) in H.
  simpl in H. subst cap.
  split; [|exact Hpre]. intros ->. simpl in Hlen. lia.
Qed.

Lemma IMG_STEAMSTATIC_capture (s cap rest : str) :
  matchHere IMG_STEAMSTATIC [] [] s = Some (cap, rest) ->
  cap <> [] /\ Forall (fun c => notQuote c = true) cap.
Proof.
  unfold IMG_STEAMSTATIC. cbn [matchHere].
  destruct (lit true (u "<img") s) as [s1|]; [|discriminate].
  intros H. apply many_inv in H as (_ & s2 & _ & _ & _ & H).
  destruct (lit true (u "src=" ++ [QUOTE]) s2) as [s3|]; [|discriminate].
  apply many_inv in H as (pre & post & -> & Hpre & Hlen & H).
  destruct (lit true (u "steamstatic") post) as [s4|] eqn:Hlit; [|discriminate].
  apply lit_inv in Hlit as (mid & -> & Hmid).
  apply many_inv in H as (pre' & post' & -> & Hpre' & _ & H).
  replace (pre ++ mid ++ pre' ++ post') with ((pre ++ mid ++ pre') ++ post') in H
    by (rewrite <- !app_assoc; reflexivity).
  rewrite take_prefix in H.
  apply (tail_keeps_capture [] (pre ++ mid ++ pre') post') in H.
  simpl in H. subst cap.
  split.
  - intros E. apply (f_equal (@length _)) in E. rewrite length_app in E.
    simpl in E. lia.
  - apply Forall_app_2; [exact Hpre|].
    apply Forall_app_2; [|exact Hpre']. apply steamstatic_unquoted. exact Hmid.
Qed.

Lemma search_inv (p : list atom) (s cap : str) :
  search p s = Some cap ->
  exists s' rest, matchHere p [] [] s' = Some (cap, rest).
Proof.
  induction s as [|c s IH]; simpl.
  - destruct (matchHere p [] [] []) as [[cap' rest]|] eqn:H; [|discriminate].
    intros [= ->]. eauto.
  - destruct (matchHere p [] [] (c :: s)) as [[cap' rest]|] eqn:H.
    + intros [= ->]. eauto.
    + exact IH.
Qed.

Lemma unescapeAmp_cons (c : char) (r : str) :
  unescapeAmp (c :: r) = c :: unescapeAmp r
  \/ exists r', r = 97%N :: 109%N :: 112%N :: 59%N :: r'
                /\ unescapeAmp (c :: r) = 38%N :: unescapeAmp r'.
Proof.
  simpl.
  repeat match goal with
         | |- context [match ?x with _ => _ end] => destruct x
         end;
    first [left; reflexivity | right; eexists; split; reflexivity].
Qed.

Lemma unescapeAmp_Forall (P : char -> Prop) (s : str) :
  P 38%N -> Forall P s -> Forall P (unescapeAmp s).
Proof.
  intros Hamp. remember (length s) as n eqn:Hn. revert s Hn.
  induction n as [n IH] using lt_wf_ind. intros [|c r] Hn Hs; [constructor|].
  apply Forall_cons in Hs as [Hc Hr]. simpl in Hn.
  destruct (unescapeAmp_cons c r) as [->|(r' & -> & ->)].
  - constructor; [exact Hc|]. apply (IH (length r)); [lia|reflexivity|exact Hr].
  - constructor; [exact Hamp|]. apply (IH (length r')); [simpl in *; lia|reflexivity|].
    do 4 apply Forall_cons in Hr as [_ Hr]. exact Hr.
Qed.

Lemma scraped_unquoted (html src : str) :
  match (match search IMG_STEAMSTATIC html with
         | Some m1 => Some m1
         | None => search IMG_ANY html
         end) with
  | Some m1 => if truthy m1 then Some (unescapeAmp m1) else None
  | None => None
  end = Some src ->
  exists m1, src = unescapeAmp m1 /\ m1 <> []
             /\ Forall (fun c => notQuote c = true) m1.
Proof.
  destruct (search IMG_STEAMSTATIC html) as [m1|] eqn:H1.
  - destruct (truthy m1); [|discriminate]. intros [= <-].
    apply search_inv in H1 as (s' & rest & H1).
    apply IMG_STEAMSTATIC_capture in H1 as [Hne Hq]. eauto.
  - destruct (search IMG_ANY html) as [m1|] eqn:H2; [|discriminate].
    destruct (truthy m1); [|discriminate]. intros [= <-].
    apply search_inv in H2 as (s' & rest & H2).
    apply IMG_ANY_capture in H2 as [Hne Hq]. eauto.
Qed.

End AttemptB.

(** X30. A url scraped from [results_html] by attempt B is not empty
    and has no double quote in it: it is the value of a quoted [src]
    attribute, with every [&amp;] replaced by [&]. *)
Theorem attemptB_src_is_unquoted (data : json) (src : str) :
  Shared.attemptB data = Ret (Some src) ->
  src <> [] /\ Forall (fun c => c <> QUOTE) src.
Proof.
  unfold Shared.attemptB.
  assert (Hs : forall html,
             match (match search IMG_STEAMSTATIC html with
                    | Some m1 => Some m1
                    | None => search IMG_ANY html
                    end) with
             | Some m1 => if truthy m1 then Some (unescapeAmp m1) else None
             | None => None
             end = Some src ->
             src <> [] /\ Forall (fun c => c <> QUOTE) src).
  { intros html H. apply scraped_unquoted in H as (m1 & -> & Hne & Hq). split.
    - intros E. assert (Ht : truthy m1 = true) by (destruct m1; [congruence|reflexivity]).
      apply unescapeAmp_truthy in Ht. rewrite E in Ht. discriminate.
    - apply unescapeAmp_Forall; [discriminate|].
      eapply Forall_impl; [exact Hq|]. intros c Hc. unfold notQuote in Hc.
      apply negb_true_iff, N.eqb_neq in Hc. exact Hc. }
  destruct (getField (u "results_html") data) as [v|].
  - destruct (truthyJ v).
    + destruct v as [| | |html| |]; try discriminate. intros H.
      apply (Hs html). injection H as H. exact H.
    + intros H. apply (Hs []). injection H as H. exact H.
  - intros H. apply (Hs []). injection H as H. exact H.
Qed.

Lemma attemptB_src_is_unquoted_witness :
  let html :=
    u "<IMG id=x SRC=" ++ [QUOTE] ++ u "https://cdn/a?b=1&amp;c=2"
      ++ [QUOTE] ++ u " alt=" ++ [QUOTE] ++ u "x" ++ [QUOTE] ++ u ">" in
  let data := JObj [(u "results_html", JStr html)] in
  Shared.attemptB data = Ret (Some (u "https://cdn/a?b=1&c=2"))
  /\ Forall (fun c => c <> QUOTE) (u "https://cdn/a?b=1&c=2").
Proof.
  intros html data.
  assert (H : Shared.attemptB data = Ret (Some (u "https://cdn/a?b=1&c=2")))
    by (vm_compute; reflexivity).
  split; [exact H|]. exact (proj2 (attemptB_src_is_unquoted data _ H)).
Defined.
